(** * ipa-extension-remover: the archive inspection and rebuild logic of
    [src/App.svelte], embedded as Rocq functions.

    The component keeps its state in reactive variables ([files], [ipa],
    [extensionsToKeep], [progress], ...) and runs [loadIPA] and [saveIPA] as
    asynchronous functions.  The embedding keeps the variables in a record,
    turns every [await] of [_saveIPA] into a suspension point of a small
    machine, and lets the abort signal arrive between two suspensions. *)

From Stdlib Require Import ZArith Ascii String List Bool Lia Sorted.
From stdpp Require Import base option list strings pretty gmap fin_maps.

Import ListNotations.
Local Open Scope string_scope.
Local Open Scope Z_scope.

Set Default Proof Using "Type".

(** ** Entries of an archive, as the zip reader hands them out *)

(** Contents are byte strings. *)
Definition Bytes : Type := list Byte.byte.

(** What awaiting [entry.getData(writer)] gives: the content, or a rejection
    (damaged or encrypted data). *)
Inductive ReadResult : Type :=
| ReadOk (data : Bytes)
| ReadError.

(** [zip.Entry]: [getData] is an optional member, hence the [option]. *)
Record Entry : Type := mkEntry {
  filename : string;
  directory : bool;
  getData : option ReadResult
}.

(** The [File] picked in the drop zone. *)
Record File : Type := mkFile {
  name : string;
  content : Bytes
}.

(** ** The path patterns

    The three patterns of the component are regular expressions without
    anchors, so [test] asks for a matching substring.  They are kept as
    syntax trees and decided with derivatives. *)
Module Regex.

Inductive regex : Type :=
| Void                       (* matches nothing *)
| Eps                        (* the empty string *)
| Chr (c : ascii)            (* one given character *)
| NotSlash                   (* [^/] *)
| Digit                      (* \d *)
| AnyChar                    (* any character at all *)
| Seq (r1 r2 : regex)
| Alt (r1 r2 : regex)
| Star (r : regex).

Definition Opt (r : regex) : regex := Alt Eps r.     (* r? *)
Definition Plus (r : regex) : regex := Seq r (Star r). (* r+ *)

(** A literal run of characters. *)
Fixpoint Lit (s : string) : regex :=
  match s with
  | EmptyString => Eps
  | String c s' => Seq (Chr c) (Lit s')
  end.

Fixpoint nullable (r : regex) : bool :=
  match r with
  | Void => false
  | Eps => true
  | Chr _ | NotSlash | Digit | AnyChar => false
  | Seq r1 r2 => nullable r1 && nullable r2
  | Alt r1 r2 => nullable r1 || nullable r2
  | Star _ => true
  end.

Definition is_digit (c : ascii) : bool :=
  let n := nat_of_ascii c in (48 <=? n)%nat && (n <=? 57)%nat.

Fixpoint deriv (c : ascii) (r : regex) : regex :=
  match r with
  | Void | Eps => Void
  | Chr d => if Ascii.eqb c d then Eps else Void
  | NotSlash => if Ascii.eqb c "/" then Void else Eps
  | Digit => if is_digit c then Eps else Void
  | AnyChar => Eps
  | Seq r1 r2 =>
      if nullable r1
      then Alt (Seq (deriv c r1) r2) (deriv c r2)
      else Seq (deriv c r1) r2
  | Alt r1 r2 => Alt (deriv c r1) (deriv c r2)
  | Star r1 => Seq (deriv c r1) (Star r1)
  end.

(** Derivatives are pruned as they are built, which keeps them small. *)
Fixpoint prune (r : regex) : regex :=
  match r with
  | Seq r1 r2 =>
      match prune r1, prune r2 with
      | Void, _ | _, Void => Void
      | Eps, r2' => r2'
      | r1', r2' => Seq r1' r2'
      end
  | Alt r1 r2 =>
      match prune r1, prune r2 with
      | Void, r2' => r2'
      | r1', Void => r1'
      | r1', r2' => Alt r1' r2'
      end
  | _ => r
  end.

(** The whole string is in the language of [r]. *)
Fixpoint matches (r : regex) (s : string) : bool :=
  match s with
  | EmptyString => nullable r
  | String c s' => matches (prune (deriv c r)) s'
  end.

(** [RegExp.prototype.test] of a pattern without anchors or flags: some
    substring matches. *)
Definition test (r : regex) (s : string) : bool :=
  matches (Seq (Star AnyChar) (Seq r (Star AnyChar))) s.

End Regex.

Import Regex.

(** [/((:?\/)?Payload\/[^/]+\.app\/)Info\.plist/] *)
Definition metadataRegex : regex :=
  Seq (Seq (Opt (Seq (Opt (Chr ":")) (Chr "/")))
        (Seq (Lit "Payload/") (Seq (Plus NotSlash) (Lit ".app/"))))
      (Lit "Info.plist").

(** [/Payload\/[^/]+\.app\/PlugIns\/(?:([^/]+)\.appex)\//] *)
Definition extensionRegex : regex :=
  Seq (Lit "Payload/")
   (Seq (Plus NotSlash)
     (Seq (Lit ".app/PlugIns/")
       (Seq (Seq (Plus NotSlash) (Lit ".appex"))
            (Chr "/")))).

(** ** String helpers of the JavaScript library *)

(** [s.startsWith(p)] *)
Fixpoint startsWith (p s : string) : bool :=
  match p, s with
  | EmptyString, _ => true
  | String a p', String b s' => Ascii.eqb a b && startsWith p' s'
  | String _ _, EmptyString => false
  end.

(** [s.endsWith(suffix)] *)
Fixpoint endsWith (suffix s : string) : bool :=
  String.eqb suffix s ||
  match s with
  | EmptyString => false
  | String _ s' => endsWith suffix s'
  end.

(** [s.split("/")]: the segments between the slashes; a trailing slash
    leaves an empty last segment. *)
Fixpoint split_slash (s : string) : list string :=
  match s with
  | EmptyString => [EmptyString]
  | String c s' =>
      if Ascii.eqb c "/" then EmptyString :: split_slash s'
      else match split_slash s' with
           | seg :: segs => String c seg :: segs
           | [] => [String c EmptyString]
           end
  end.

(** [arr.at(-k) || ""] for k = 1, 2: the k-th segment from the end, the empty
    string when there is none. *)
Definition at_from_end (k : nat) (segs : list string) : string :=
  nth (k - 1) (rev segs) EmptyString.

(** [ellipsis(text, max)] *)
Definition ellipsis (text : string) (max : nat) : string :=
  if (max <? String.length text)%nat
  then String.substring 0 (max - 3) text ++ "..."
  else text.

(** ** Extension discovery, [loadIPA] lines 59-64 *)

Definition is_extension (entry : Entry) : bool :=
  directory entry && endsWith ".appex/" (filename entry).

(** [entries.filter(entry => entry.directory && entry.filename.endsWith(".appex/"))] *)
Definition discover (entries : list Entry) : list Entry :=
  List.filter is_extension entries.

(** [Object.fromEntries(pairs)]: a later pair replaces an earlier one with
    the same key. *)
Definition fromEntries (pairs : list (string * bool)) : gmap string bool :=
  fold_left (fun m kv => <[kv.1 := kv.2]> m) pairs ∅.

Definition initial_selection (extensions : list Entry) : gmap string bool :=
  fromEntries (List.map (fun extension => (filename extension, true)) extensions).

(** ** [Math.round(ipa.length * 1.1)]

    The product is a binary64 multiplication.  The double nearest to 1.1 is
    [4953959590107546 / 2^52]; a length [n] is an integer and exact; the
    exact product is rounded to 53 significant bits, ties to even; and
    [Math.round] takes the nearest integer, ties upwards.  Values are kept as
    integers counting units of [2^-52]. *)
Module Number.

Definition mantissa_1_1 : Z := 4953959590107546.

(** Round a positive integer to 53 significant bits, ties to even. *)
Definition round53 (p : Z) : Z :=
  let k := Z.log2 p - 52 in
  if k <=? 0 then p
  else
    let q := p / 2 ^ k in
    let r := p mod 2 ^ k in
    let half := 2 ^ (k - 1) in
    let up := (half <? r) || ((r =? half) && Z.odd q) in
    (if up then q + 1 else q) * 2 ^ k.

(** [n * 1.1] in units of [2^-52]. *)
Definition times_1_1 (n : Z) : Z := round53 (n * mantissa_1_1).

(** [Math.round(x)] for [x] given in units of [2^-52]: [floor (x + 1/2)]. *)
Definition Math_round (x : Z) : Z := (2 * x + 2 ^ 52) / 2 ^ 53.

Definition round_times_1_1 (n : Z) : Z := Math_round (times_1_1 n).

End Number.

(** ** The state of the component *)

(** What [zipWriter.add] was given: a directory placeholder (no data) or a
    file with its bytes. *)
Record OutEntry : Type := mkOut {
  out_filename : string;
  out_directory : bool;
  out_data : option Bytes
}.

(** The archive writer is the external codec; the model keeps what was added,
    in the order of the calls, and whether [close] has run.  Every [add] is
    taken to succeed: a writer that refuses an entry is outside the model. *)
Record ZipWriter : Type := mkWriter {
  added : list OutEntry;
  closed : bool
}.

(** The blob handed to [saveBlob]: the picked file itself, or the archive the
    writer produced. *)
Inductive Payload : Type :=
| OriginalFile (f : File)
| Archive (entries : list OutEntry).

(** The writes that an observer of the component sees, in program order. *)
Inductive Effect : Type :=
| SetProgress (v : Z)
| SetProgressMax (v : Z)
| SetProgressText (s : string)
| SaveBlob (blob : Payload) (download : string).

(** Parsed property lists ([Dictionary], [PlistValue]): strings, integers,
    booleans, arrays and dictionaries (reals, dates and data are left out;
    the component reads none of them). *)
#[warnings="-register-all"]
Inductive PlistValue : Type :=
| PlString (s : string)
| PlInteger (z : Z)
| PlBoolean (b : bool)
| PlArray (items : list PlistValue)
| PlDict (fields : list (string * PlistValue)).

(** The reactive variables.  [abortController] holds the number of the save
    attempt whose signal it controls. *)
Record App : Type := mkApp {
  files : option (list File);
  abortController : option nat;
  ipa : option (list Entry);
  metadata : option PlistValue;
  appIcon : option Bytes;
  extensions : list Entry;
  extensionsToKeep : gmap string bool;
  saving : bool;
  progress : Z;
  progressMax : Z;
  progressText : string
}.

Record World : Type := mkWorld {
  vars : App;
  effects : list Effect
}.

Definition with_progress (v : Z) (a : App) : App :=
  mkApp (files a) (abortController a) (ipa a) (metadata a) (appIcon a)
        (extensions a) (extensionsToKeep a) (saving a)
        v (progressMax a) (progressText a).

Definition with_progressMax (v : Z) (a : App) : App :=
  mkApp (files a) (abortController a) (ipa a) (metadata a) (appIcon a)
        (extensions a) (extensionsToKeep a) (saving a)
        (progress a) v (progressText a).

Definition with_progressText (s : string) (a : App) : App :=
  mkApp (files a) (abortController a) (ipa a) (metadata a) (appIcon a)
        (extensions a) (extensionsToKeep a) (saving a)
        (progress a) (progressMax a) s.

Definition emit (e : Effect) (w : World) : World :=
  mkWorld (vars w) (effects w ++ [e]).

(** [progress = v] *)
Definition set_progress (v : Z) (w : World) : World :=
  emit (SetProgress v) (mkWorld (with_progress v (vars w)) (effects w)).

(** [progressMax = v] *)
Definition set_progressMax (v : Z) (w : World) : World :=
  emit (SetProgressMax v) (mkWorld (with_progressMax v (vars w)) (effects w)).

(** [progressText = s] *)
Definition set_progressText (s : string) (w : World) : World :=
  emit (SetProgressText s) (mkWorld (with_progressText s (vars w)) (effects w)).

(** [saveBlob(blob, filename)] starts a download. *)
Definition saveBlob (blob : Payload) (download : string) (w : World) : World :=
  emit (SaveBlob blob download) w.

(** ** One activation of [_saveIPA] *)

Inductive PromiseState : Type :=
| Pending
| Resolved
| Rejected (msg : string).

(** Where the executor of the promise stands: before its first statement, at
    one of its [await]s, or finished. *)
Inductive Pc : Type :=
| AtStart
| AwaitAddDirectory (entry : Entry) (rest : list Entry)
| AwaitGetData (entry : Entry) (rest : list Entry)
| AwaitAddFile (entry : Entry) (data : Bytes) (rest : list Entry)
| AwaitClose
| AwaitBlob
| Returned
| Threw.

Record Frame : Type := mkFrame {
  pc : Pc;
  aborted : bool;
  promise : PromiseState;
  file : option File;
  extensionsToRemove : list string;
  zipWriter : option ZipWriter
}.

Definition with_pc (p : Pc) (fr : Frame) : Frame :=
  mkFrame p (aborted fr) (promise fr) (file fr) (extensionsToRemove fr)
          (zipWriter fr).

(** [resolve()] and [reject(...)] settle a promise once; later calls do
    nothing. *)
Definition settle (s : PromiseState) (fr : Frame) : Frame :=
  match promise fr with
  | Pending =>
      mkFrame (pc fr) (aborted fr) s (file fr) (extensionsToRemove fr)
              (zipWriter fr)
  | _ => fr
  end.

Definition new_frame : Frame :=
  mkFrame AtStart false Pending None [] None.

(** The completed [zipWriter.add(...)]. *)
Definition writer_add (o : OutEntry) (fr : Frame) : Frame :=
  mkFrame (pc fr) (aborted fr) (promise fr) (file fr) (extensionsToRemove fr)
          (match zipWriter fr with
           | Some zw => Some (mkWriter (added zw ++ [o]) (closed zw))
           | None => None
           end).

(** The completed [zipWriter.close()]. *)
Definition writer_close (fr : Frame) : Frame :=
  mkFrame (pc fr) (aborted fr) (promise fr) (file fr) (extensionsToRemove fr)
          (match zipWriter fr with
           | Some zw => Some (mkWriter (added zw) true)
           | None => None
           end).

(** The listener of the abort signal, lines 124-129.  The event is dispatched
    once per signal. *)
Definition on_abort (fr : Frame) (w : World) : Frame * World :=
  if aborted fr then (fr, w)
  else
    let fr := mkFrame (pc fr) true (promise fr) (file fr)
                      (extensionsToRemove fr) (zipWriter fr) in
    let w := set_progress 0 w in
    let w := set_progressMax 0 w in
    (settle (Rejected "Aborted") fr, w).

(** [Object.values(extensionsToKeep).every((e) => e)] *)
Definition every_kept (selection : gmap string bool) : bool :=
  forallb (fun e : bool => e) (map_to_list selection).*2.

(** [!extensionsToKeep[extension.filename]]: a missing key reads as
    [undefined], whose negation is [true]. *)
Definition not_kept (selection : gmap string bool) (extension : Entry) : bool :=
  match selection !! filename extension with
  | Some keep => negb keep
  | None => true
  end.

(** The inner loop of lines 156-162. *)
Definition skip_entry (toRemove : list string) (entry : Entry) : bool :=
  existsb (fun extension => startsWith extension (filename entry)) toRemove.

(** Lines 177-178: the statements after the loop, up to the [await] of
    [zipWriter.close()]. *)
Definition after_loop (fr : Frame) (w : World) : Frame * World :=
  let w := if aborted fr then w else set_progressText "Finalizing archive" w in
  (with_pc AwaitClose fr, w).

(** Lines 153-176: the loop from the top of an iteration with [rest] still to
    visit, up to the next [await]. *)
Fixpoint loop (rest : list Entry) (fr : Frame) (w : World) : Frame * World :=
  match rest with
  | [] => after_loop fr w
  | entry :: rest' =>
      if aborted fr then after_loop fr w
      else
        let w := set_progress (progress (vars w) + 1) w in
        if skip_entry (extensionsToRemove fr) entry then loop rest' fr w
        else if directory entry then
          let w := set_progressText
                     ("Creating directory " ++
                      ellipsis (at_from_end 2 (split_slash (filename entry))) 15)
                     w in
          (with_pc (AwaitAddDirectory entry rest') fr, w)
        else
          match getData entry with
          | Some _ =>
              let w := set_progressText
                         ("Adding " ++
                          ellipsis (at_from_end 1 (split_slash (filename entry))) 30)
                         w in
              (with_pc (AwaitGetData entry rest') fr, w)
          | None => loop rest' fr w
          end
  end.

(** Lines 131-152, then the loop. *)
Definition start (fr : Frame) (w : World) : Frame * World :=
  let w := set_progress 0 w in
  match files (vars w), ipa (vars w) with
  | Some (f :: _), Some entries =>
      if every_kept (extensionsToKeep (vars w)) then
        if aborted fr then (with_pc Returned fr, w)
        else
          let w := set_progressMax 1 w in
          let w := set_progress 1 w in
          let w := set_progressText "Done!" w in
          let w := saveBlob (OriginalFile f) (name f) w in
          (with_pc Returned (settle Resolved fr), w)
      else
        let w := set_progressText "Filtering extensions" w in
        let toRemove :=
          List.map filename
            (List.filter (not_kept (extensionsToKeep (vars w)))
                         (extensions (vars w))) in
        let w := set_progressText "Creating new IPA archive" w in
        let fr := mkFrame (pc fr) (aborted fr) (promise fr) (Some f) toRemove
                          (Some (mkWriter [] false)) in
        let w := set_progressMax
                   (Number.round_times_1_1 (Z.of_nat (List.length entries))) w in
        loop entries fr w
  | _, _ => (with_pc Returned (settle (Rejected "IPA not loaded") fr), w)
  end.

(** The archive the blob writer holds once the zip writer is closed. *)
Definition written (fr : Frame) : list OutEntry :=
  match zipWriter fr with
  | Some zw => added zw
  | None => []
  end.

Definition file_name (fr : Frame) : string :=
  match file fr with
  | Some f => name f
  | None => ""
  end.

(** The executor continues from where it is suspended, up to its next
    [await] or its end. *)
Definition resume (fr : Frame) (w : World) : Frame * World :=
  match pc fr with
  | AtStart => start fr w
  | AwaitAddDirectory entry rest =>
      loop rest (writer_add (mkOut (filename entry) true None) fr) w
  | AwaitGetData entry rest =>
      match getData entry with
      | Some (ReadOk data) => (with_pc (AwaitAddFile entry data rest) fr, w)
      | _ => (with_pc Threw fr, w)
      end
  | AwaitAddFile entry data rest =>
      loop rest (writer_add (mkOut (filename entry) false (Some data)) fr) w
  | AwaitClose =>
      let fr := writer_close fr in
      if aborted fr then (with_pc Returned fr, w)
      else (with_pc AwaitBlob fr, set_progressText "Saving archive" w)
  | AwaitBlob =>
      let w := saveBlob (Archive (written fr)) (file_name fr) w in
      let w := set_progress (progressMax (vars w)) w in
      let w := set_progressText "Done!" w in
      (with_pc Returned (settle Resolved fr), w)
  | Returned | Threw => (fr, w)
  end.

(** [_saveIPA(abortSignal)]: the promise is created and its executor runs,
    within the call, up to its first [await]. *)
Definition _saveIPA (w : World) : Frame * World := resume new_frame w.

(** What can happen to a save: the executor runs its next stretch (the first
    one within the call, the later ones when the operation it awaits
    completes), or the abort signal fires, between two stretches. *)
Inductive JobEvent : Type :=
| Resume
| Abort.

(** The listener is registered by the first statement of the executor
    (line 124), and [abortSignal.aborted] is read nowhere: a signal that
    fires before the executor has run meets no listener and is never seen. *)
Definition job_step (c : Frame * World) (ev : JobEvent) : Frame * World :=
  match ev with
  | Resume => resume c.1 c.2
  | Abort =>
      match pc c.1 with
      | AtStart => c
      | _ => on_abort c.1 c.2
      end
  end.

Definition job_run (evs : list JobEvent) (c : Frame * World) : Frame * World :=
  fold_left job_step evs c.

(** The writes to [progress], oldest first. *)
Definition progress_values (es : list Effect) : list Z :=
  omap (fun e => match e with SetProgress v => Some v | _ => None end) es.

(** The downloads started, oldest first. *)
Definition downloads (es : list Effect) : list (Payload * string) :=
  omap (fun e => match e with SaveBlob b n => Some (b, n) | _ => None end) es.

(** ** Loading a package: [getMetadata] and [loadIPA] *)

(** Reading a member of a property-list value the way JavaScript does: only a
    dictionary has the members asked for here, everything else answers
    [undefined] ([None]). *)
Definition prop (key : string) (v : PlistValue) : option PlistValue :=
  match v with
  | PlDict fields => snd <$> List.find (fun kv => String.eqb key kv.1) fields
  | _ => None
  end.

(** [v[0]] *)
Definition index0 (v : PlistValue) : option PlistValue :=
  match v with
  | PlArray items => head items
  | PlString (String c _) => Some (PlString (String c EmptyString))
  | PlDict _ => prop "0" v
  | _ => None
  end.

Definition truthy (v : PlistValue) : bool :=
  match v with
  | PlString EmptyString => false
  | PlInteger 0 => false
  | PlBoolean b => b
  | _ => true
  end.

(** The text a value leaves in a template literal. *)
Fixpoint template_text (v : PlistValue) : string :=
  match v with
  | PlString s => s
  | PlInteger z => pretty z
  | PlBoolean b => if b then "true" else "false"
  | PlArray items => String.concat "," (List.map template_text items)
  | PlDict _ => "[object Object]"
  end.

(** The source text that [appIconRegex] hands to [new RegExp]. *)
Definition appIconRegex_source (appIconName : option PlistValue) : string :=
  "Payload\/[^/]+\.app\/" ++
  match appIconName with
  | Some v => template_text v
  | None => "undefined"
  end ++
  "(@\d+x)?\.[^/]+".

(** Why an asynchronous function of the component ends in a rejection. *)
Inductive Error : Type :=
| NoFileSelected
| CorruptArchive
| ReadFailure
| TypeError
| SyntaxError
| DecodeFailure.

Definition with_loaded (entries : list Entry) (a : App) : App :=
  mkApp (files a) (abortController a) (Some entries) (metadata a) (appIcon a)
        (discover entries) (initial_selection (discover entries)) (saving a)
        (progress a) (progressMax a) (progressText a).

Definition with_metadata (md : option PlistValue) (a : App) : App :=
  mkApp (files a) (abortController a) (ipa a) md (appIcon a)
        (extensions a) (extensionsToKeep a) (saving a)
        (progress a) (progressMax a) (progressText a).

Definition with_appIcon (icon : option Bytes) (a : App) : App :=
  mkApp (files a) (abortController a) (ipa a) (metadata a) icon
        (extensions a) (extensionsToKeep a) (saving a)
        (progress a) (progressMax a) (progressText a).

Section Collaborators.

(** The libraries the component calls: the zip reader ([None]: the archive
    cannot be read), the property-list parser and the CgBI decoder
    ([None]: they throw), and the [RegExp] constructor ([None]: a syntax
    error). *)
Variable getEntries : File -> option (list Entry).
Variable parsePlist : Bytes -> option PlistValue.
Variable cgbiToPng : Bytes -> option Bytes.
Variable RegExp : string -> option regex.

(** [getMetadata], lines 83-97.  The [try] encloses the parser only. *)
Definition getMetadata (a : App) : Error + option PlistValue :=
  match ipa a with
  | None => inr None
  | Some entries =>
      match List.find (fun entry => test metadataRegex (filename entry)) entries with
      | None => inr None
      | Some metadataEntry =>
          match getData metadataEntry with
          | None => inr None
          | Some ReadError => inl ReadFailure
          | Some (ReadOk metadataBlob) =>
              match parsePlist metadataBlob with
              | Some parsed => inr (Some parsed)
              | None => inr None
              end
          end
      end
  end.

(** Lines 66-80 of [loadIPA]: the icon. *)
Definition load_icon (entries : list Entry) (a : App) : App * option Error :=
  match metadata a ≫= prop "CFBundleIcons" with
  | None => (a, None)
  | Some cfBundleIcons =>
      if negb (truthy cfBundleIcons) then (a, None)
      else
        match prop "CFBundlePrimaryIcon" cfBundleIcons
                ≫= prop "CFBundleIconFiles" with
        | None => (a, Some TypeError)
        | Some iconFiles =>
            match RegExp (appIconRegex_source (index0 iconFiles)) with
            | None => (a, Some SyntaxError)
            | Some regex =>
                match List.find (fun entry => test regex (filename entry)) entries with
                | Some (mkEntry _ _ (Some ReadError)) => (a, Some ReadFailure)
                | Some (mkEntry _ _ (Some (ReadOk iconData))) =>
                    match cgbiToPng iconData with
                    | None => (a, Some DecodeFailure)
                    | Some decodedPng => (with_appIcon (Some decodedPng) a, None)
                    end
                | _ => (a, None)
                end
            end
        end
  end.

(** [loadIPA], lines 51-81: the new state, and the error the function ends
    with when it does not run to its end. *)
Definition loadIPA (a : App) : App * option Error :=
  match files a with
  | Some (f :: _) =>
      match getEntries f with
      | None => (a, Some CorruptArchive)
      | Some entries =>
          let a := with_loaded entries a in
          match getMetadata a with
          | inl err => (a, Some err)
          | inr md => load_icon entries (with_metadata md a)
          end
      end
  | _ => (a, Some NoFileSelected)
  end.

(** ** The component as a whole: save attempts next to the vars *)

(** An invocation of [saveIPA] that got past its guard: the activation of
    [_saveIPA] it started, and whether [saveIPA] is still suspended at its
    [await] (line 111). *)
Record Attempt : Type := mkAttempt {
  frame : Frame;
  waiting : bool
}.

Record Sys : Type := mkSys {
  world : World;
  attempts : list Attempt
}.

Definition with_controller (c : option nat) (sv : bool) (a : App) : App :=
  mkApp (files a) c (ipa a) (metadata a) (appIcon a)
        (extensions a) (extensionsToKeep a) sv
        (progress a) (progressMax a) (progressText a).

Definition on_vars (f : App -> App) (w : World) : World :=
  mkWorld (f (vars w)) (effects w).

(** [saveIPA], lines 105-111: the guard, then the synchronous part of
    [_saveIPA]. *)
Definition saveIPA (s : Sys) : Sys :=
  let a := vars (world s) in
  if bool_decide (abortController a <> None) || saving a then s
  else
    let id := List.length (attempts s) in
    let w := on_vars (with_controller (Some id) true) (world s) in
    let '(fr, w) := _saveIPA w in
    mkSys w (attempts s ++ [mkAttempt fr true]).

(** The rest of [saveIPA], lines 112-117, which runs once the promise of
    attempt [i] is settled. *)
Definition saveIPA_finally (i : nat) (s : Sys) : Sys :=
  match attempts s !! i with
  | Some (mkAttempt fr true) =>
      match promise fr with
      | Pending => s
      | _ =>
          mkSys (on_vars (with_controller None false) (world s))
                (<[i := mkAttempt fr false]> (attempts s))
      end
  | _ => s
  end.

(** An operation awaited by attempt [i] completes. *)
Definition io_done (i : nat) (s : Sys) : Sys :=
  match attempts s !! i with
  | Some (mkAttempt fr wt) =>
      let '(fr, w) := resume fr (world s) in
      mkSys w (<[i := mkAttempt fr wt]> (attempts s))
  | None => s
  end.

(** Lines 39-45 of [clearIPA]; the progress vars follow. *)
Definition cleared (a : App) : App :=
  mkApp None (abortController a) None None None [] ∅ false
        (progress a) (progressMax a) (progressText a).

(** [clearIPA], lines 35-49. *)
Definition clearIPA (s : Sys) : Sys :=
  let s :=
    match abortController (vars (world s)) with
    | Some i =>
        match attempts s !! i with
        | Some (mkAttempt fr wt) =>
            let '(fr, w) := on_abort fr (world s) in
            mkSys w (<[i := mkAttempt fr wt]> (attempts s))
        | None => s
        end
    | None => s
    end in
  mkSys (set_progressText "Idle"
           (set_progressMax 0 (set_progress 0 (on_vars cleared (world s)))))
        (attempts s).

Definition with_files (fs : option (list File)) (a : App) : App :=
  mkApp fs (abortController a) (ipa a) (metadata a) (appIcon a)
        (extensions a) (extensionsToKeep a) (saving a)
        (progress a) (progressMax a) (progressText a).

Definition with_selection (sel : gmap string bool) (a : App) : App :=
  mkApp (files a) (abortController a) (ipa a) (metadata a) (appIcon a)
        (extensions a) sel (saving a)
        (progress a) (progressMax a) (progressText a).

(** The drop zone is there while [files] is unset; it binds [files] and
    calls [loadIPA]. *)
Definition drop (fs : list File) (s : Sys) : Sys :=
  match files (vars (world s)) with
  | None =>
      mkSys (on_vars (fun a => (loadIPA (with_files (Some fs) a)).1) (world s))
            (attempts s)
  | Some _ => s
  end.

(** The toggle of a listed extension, lines 269-271:
    [extensionsToKeep[name] = !extensionsToKeep[name]]. *)
Definition toggle (extension : string) (a : App) : App :=
  if existsb (fun e => String.eqb extension (filename e)) (extensions a) then
    with_selection
      (<[extension := match extensionsToKeep a !! extension with
                      | Some keep => negb keep
                      | None => true
                      end]> (extensionsToKeep a)) a
  else a.

Inductive Event : Type :=
| ClickSave
| ClickBack
| Drop (fs : list File)
| Toggle (extension : string)
| IoDone (i : nat)
| Settled (i : nat).

Definition sys_step (s : Sys) (ev : Event) : Sys :=
  match ev with
  | ClickSave => saveIPA s
  | ClickBack => clearIPA s
  | Drop fs => drop fs s
  | Toggle extension => mkSys (on_vars (toggle extension) (world s)) (attempts s)
  | IoDone i => io_done i s
  | Settled i => saveIPA_finally i s
  end.

Definition sys_run (evs : list Event) (s : Sys) : Sys :=
  fold_left sys_step evs s.

(** The component as it is mounted, lines 19-33. *)
Definition initial : Sys :=
  mkSys (mkWorld (mkApp None None None None None [] ∅ false 0 0 "Idle") []) [].

(** A save attempt is in flight while [saveIPA] has not reached the end of
    its [finally]. *)
Definition in_flight (s : Sys) : Prop :=
  exists i att, attempts s !! i = Some att /\ waiting att = true.

End Collaborators.

(** * The vocabulary of the properties, and sample packages *)

(** A single path segment. *)
Definition has_no_slash (s : string) : Prop :=
  forall pre post, s <> pre ++ "/" ++ post.

(** The sub-component convention in the words of the specification: the path
    is [Payload/<app>.app/PlugIns/<name>.appex/], with one segment for the
    application and one for the extension. *)
Definition conventional_extension_path (path : string) : Prop :=
  exists app ext,
    app <> "" /\ ext <> "" /\ has_no_slash app /\ has_no_slash ext /\
    path = "Payload/" ++ app ++ ".app/PlugIns/" ++ ext ++ ".appex/".

(** The package of the specification's example. *)
Definition sample_file : File := mkFile "App.ipa" [].

Definition sample_catalog : list Entry :=
  [ mkEntry "Payload/App.app/" true None;
    mkEntry "Payload/App.app/Info.plist" false (Some (ReadOk []));
    mkEntry "Payload/App.app/PlugIns/Ext.appex/" true None;
    mkEntry "Payload/App.app/PlugIns/Ext.appex/Ext" false (Some (ReadOk [])) ].

(** The state right after the sample package was loaded. *)
Definition sample_loaded : App :=
  mkApp (Some [sample_file]) None (Some sample_catalog) None None
        (discover sample_catalog) (initial_selection (discover sample_catalog))
        false 0 0 "Idle".

(** A package whose descriptor names the icon [AppIcon60x60]. *)
Definition icon_plist : PlistValue :=
  PlDict [("CFBundleName", PlString "App");
          ("CFBundleIcons",
           PlDict [("CFBundlePrimaryIcon",
                    PlDict [("CFBundleIconFiles",
                             PlArray [PlString "AppIcon60x60"])])])].

(** Its entries: the descriptor and the icon at scale 2. *)
Definition icon_catalog : list Entry :=
  [ mkEntry "Payload/App.app/" true None;
    mkEntry "Payload/App.app/Info.plist" false (Some (ReadOk []));
    mkEntry "Payload/App.app/AppIcon60x60@2x.png" false (Some (ReadOk [])) ].

(** The pattern [new RegExp] builds from the source text of that icon name. *)
Definition icon_RegExp (source : string) : option regex :=
  if String.eqb source "Payload\/[^/]+\.app\/AppIcon60x60(@\d+x)?\.[^/]+"
  then Some (Seq (Lit "Payload/")
             (Seq (Plus NotSlash)
              (Seq (Lit ".app/")
               (Seq (Lit "AppIcon60x60")
                (Seq (Opt (Seq (Chr "@") (Seq (Plus Digit) (Chr "x"))))
                 (Seq (Chr ".") (Plus NotSlash)))))))
  else None.

(** The component before anything is dropped on it, with a file chosen. *)
Definition chosen (f : File) : App :=
  mkApp (Some [f]) None None None None [] ∅ false 0 0 "Idle".

(** The frame of a save that is under way: the sample package, with the
    extension marked for removal. *)
Definition removing_frame : Frame :=
  mkFrame AtStart false Pending (Some sample_file)
          ["Payload/App.app/PlugIns/Ext.appex/"] (Some (mkWriter [] false)).

(** A package loaded with a given selection. *)
Definition loaded_with (f : File) (catalog : list Entry)
    (selection : gmap string bool) : App :=
  mkApp (Some [f]) None (Some catalog) None None (discover catalog) selection
        false 0 0 "Idle".

(** The selection of the sample package after its extension is switched
    off. *)
Definition remove_ext : gmap string bool :=
  <["Payload/App.app/PlugIns/Ext.appex/" := false]>
    (initial_selection (discover sample_catalog)).

(** The sample package with a fifth entry. *)
Definition five_entries : list Entry :=
  (sample_catalog ++ [mkEntry "Payload/App.app/App" false (Some (ReadOk []))])%list.

(** The copy of a catalog entry in the rebuilt archive: its path, its kind
    and, for a file, the bytes its read gives. *)
Definition copy_of (entry : Entry) : OutEntry :=
  mkOut (filename entry) (directory entry)
        (if directory entry then None
         else match getData entry with
              | Some (ReadOk data) => Some data
              | _ => None
              end).

(** What the loop hands to the writer for an entry it does not skip: a
    directory placeholder, a file with the bytes read, or nothing when a file
    entry has no [getData]. *)
Definition as_written (entry : Entry) : option OutEntry :=
  if directory entry then Some (mkOut (filename entry) true None)
  else match getData entry with
       | Some (ReadOk data) => Some (mkOut (filename entry) false (Some data))
       | _ => None
       end.

(** The removal in the words of the specification: the path of the entry
    starts with the path of an extension that the selection maps to
    [false]. *)
Definition removed_by (selection : gmap string bool) (exts : list Entry)
    (entry : Entry) : bool :=
  existsb (fun ext =>
             bool_decide (selection !! filename ext = Some false) &&
             startsWith (filename ext) (filename entry))
          exts.

(** The frame in which the loop ends when nothing interrupts it. *)
Definition loop_end (fr : Frame) (zw : ZipWriter) (outs : list OutEntry) : Frame :=
  mkFrame AwaitClose false (promise fr) (file fr) (extensionsToRemove fr)
          (Some (mkWriter (added zw ++ outs) (closed zw))).






(** The writes to [progressMax], oldest first. *)
Definition progressMax_values (es : list Effect) : list Z :=
  omap (fun e => match e with SetProgressMax v => Some v | _ => None end) es.

(** [climbs a l b]: starting from [a], the values of [l] never go down, and
    they end at [b]. *)
Fixpoint climbs (a : Z) (l : list Z) (b : Z) : Prop :=
  match l with
  | [] => a = b
  | x :: l' => a <= x /\ climbs x l' b
  end.

(** The entries the loop has still to visit at a suspension. *)
Definition remaining (p : Pc) : nat :=
  match p with
  | AwaitAddDirectory _ rest | AwaitGetData _ rest | AwaitAddFile _ _ rest =>
      List.length rest
  | _ => 0%nat
  end.

(** The state of a save in which no abort was signalled, after its first
    stretch: the values written to [progress] so far start at 0, never go
    down and end at the current value; while the promise is pending the total
    was written once, is still in [progressMax], and leaves room for the
    entries not yet visited. *)
Definition on_course (before : list Effect) (c : Frame * World) : Prop :=
  exists new tail,
    effects c.2 = (before ++ new)%list /\
    progress_values new = 0 :: tail /\
    climbs 0 tail (progress (vars c.2)) /\
    match promise c.1 with
    | Resolved =>
        pc c.1 = Returned /\
        exists total, progressMax_values new = [total] /\
                      progress (vars c.2) = total
    | Rejected _ => pc c.1 = Returned
    | Pending =>
        aborted c.1 = false /\ pc c.1 <> AtStart /\
        exists total,
          progressMax_values new = [total] /\
          progressMax (vars c.2) = total /\
          progress (vars c.2) + Z.of_nat (remaining (pc c.1)) <= total
    end.

(** The executor has started, and once its listener has run [progress] and
    [progressMax] are 0. *)
Definition zero_once_aborted (c : Frame * World) : Prop :=
  pc c.1 <> AtStart /\
  (aborted c.1 = true ->
   progress (vars c.2) = 0 /\ progressMax (vars c.2) = 0).

(** The vars that only loading, clearing, toggling and [saveIPA] itself
    write. *)
Definition same_package (a b : App) : Prop :=
  files a = files b /\ abortController a = abortController b /\
  ipa a = ipa b /\ extensions a = extensions b /\
  extensionsToKeep a = extensionsToKeep b /\ saving a = saving b.

(** While [saveIPA] is suspended at its [await], [abortController] holds its
    controller. *)
Definition controller_held (s : Sys) : Prop :=
  forall i att,
    attempts s !! i = Some att -> waiting att = true ->
    abortController (vars (world s)) = Some i.

(** The selection has exactly the paths of the listed extensions as keys, and
    the listed extensions are the ones discovered in the loaded catalog. *)
Definition selection_matches (a : App) : Prop :=
  (forall k, is_Some (extensionsToKeep a !! k) <->
             exists ext, In ext (extensions a) /\ filename ext = k) /\
  (forall catalog, ipa a = Some catalog -> extensions a = discover catalog).

(** A session: the sample package is dropped, its extension is switched off,
    and Save is clicked; the first directory is being written. *)
Definition sample_session : list Event :=
  [Drop [sample_file]; Toggle "Payload/App.app/PlugIns/Ext.appex/"; ClickSave].

(** A package with two extensions and no descriptor. *)
Definition two_extensions : list Entry :=
  [ mkEntry "Payload/App.app/" true None;
    mkEntry "Payload/App.app/PlugIns/Share.appex/" true None;
    mkEntry "Payload/App.app/PlugIns/Share.appex/Share" false (Some (ReadOk []));
    mkEntry "Payload/App.app/PlugIns/Widget.appex/" true None ].

(** The progress bar is within its bounds: [progress] is not negative, and
    with the entries the loop has still to visit it does not pass
    [progressMax] (after an abort the loop visits none). *)
Definition within_total (c : Frame * World) : Prop :=
  0 <= progress (vars c.2) /\
  progress (vars c.2)
    + (if aborted c.1 then 0 else Z.of_nat (remaining (pc c.1)))
  <= progressMax (vars c.2).

(** The executor is suspended at one of its [await]s. *)
Definition suspended (p : Pc) : Prop :=
  match p with
  | AtStart | Returned | Threw => False
  | _ => True
  end.

(** What a save has downloaded since it was called on [w0]: nothing while it
    is under way, at most one blob once it is over, and only under the name of
    the file it picked. *)
Definition one_download (w0 : World) (c : Frame * World) : Prop :=
  files (vars c.2) = files (vars w0) /\
  exists ds,
    downloads (effects c.2) = (downloads (effects w0) ++ ds)%list /\
    (forall d, In d ds ->
               exists f fs, files (vars w0) = Some (f :: fs) /\ d.2 = name f) /\
    match pc c.1 with
    | Returned | Threw => (List.length ds <= 1)%nat
    | AtStart => ds = []
    | _ => ds = [] /\
           exists f fs, files (vars w0) = Some (f :: fs) /\ file c.1 = Some f
    end.

(** The sample package with an entry that cannot be read. *)
Definition unreadable_entry : list Entry :=
  [ mkEntry "Payload/App.app/" true None;
    mkEntry "Payload/App.app/Info.plist" false (Some (ReadOk []));
    mkEntry "Payload/App.app/App" false (Some ReadError);
    mkEntry "Payload/App.app/PlugIns/Ext.appex/" true None ].

(** In every save attempt whose signal has fired, the promise is settled. *)
Definition signal_rejects (s : Sys) : Prop :=
  forall i att,
    attempts s !! i = Some att ->
    aborted (frame att) = true -> promise (frame att) <> Pending.

(** The language of a pattern: the strings it matches from their first
    character to their last. *)
Inductive lang : regex -> string -> Prop :=
| lang_Eps : lang Eps ""
| lang_Chr (c : ascii) : lang (Chr c) (String c "")
| lang_NotSlash (c : ascii) : c <> "/"%char -> lang NotSlash (String c "")
| lang_Digit (c : ascii) : is_digit c = true -> lang Digit (String c "")
| lang_AnyChar (c : ascii) : lang AnyChar (String c "")
| lang_Seq (r1 r2 : regex) (s1 s2 : string) :
    lang r1 s1 -> lang r2 s2 -> lang (Seq r1 r2) (s1 ++ s2)
| lang_Alt_l (r1 r2 : regex) (s : string) : lang r1 s -> lang (Alt r1 r2) s
| lang_Alt_r (r1 r2 : regex) (s : string) : lang r2 s -> lang (Alt r1 r2) s
| lang_Star_nil (r : regex) : lang (Star r) ""
| lang_Star_cons (r : regex) (s1 s2 : string) :
    lang r s1 -> lang (Star r) s2 -> lang (Star r) (s1 ++ s2).

(** Some substring of [s] is in the language of [r]. *)
Definition occurs_in (r : regex) (s : string) : Prop :=
  exists pre mid post, s = pre ++ mid ++ post /\ lang r mid.

(** ** [getExtensionName], lines 99-103 *)

(** [String.prototype.match] returns the captures of the first match, so the
    matcher with continuations of the language definition is followed here:
    [run r s k] matches [r] at the start of [s] and hands the rest of the
    input to [k]; alternatives are tried in the order of the pattern, and a
    repetition tries one more round before it tries to stop (greedy), a round
    that consumes nothing being refused. *)
Module Backtrack.

Fixpoint repeat_matcher {A : Type}
    (m : string -> (string -> option A) -> option A)
    (rounds : nat) (s : string) (k : string -> option A) : option A :=
  match rounds with
  | O => k s
  | S rounds' =>
      match m s (fun s' =>
                   if (String.length s' <? String.length s)%nat
                   then repeat_matcher m rounds' s' k
                   else None) with
      | Some v => Some v
      | None => k s
      end
  end.

Fixpoint run {A : Type} (r : regex) : string -> (string -> option A) -> option A :=
  match r with
  | Void => fun _ _ => None
  | Eps => fun s k => k s
  | Chr c => fun s k =>
      match s with
      | String d s' => if Ascii.eqb d c then k s' else None
      | EmptyString => None
      end
  | NotSlash => fun s k =>
      match s with
      | String d s' => if Ascii.eqb d "/" then None else k s'
      | EmptyString => None
      end
  | Digit => fun s k =>
      match s with
      | String d s' => if is_digit d then k s' else None
      | EmptyString => None
      end
  | AnyChar => fun s k =>
      match s with
      | String _ s' => k s'
      | EmptyString => None
      end
  | Seq r1 r2 => fun s k => run r1 s (fun s' => run r2 s' k)
  | Alt r1 r2 => fun s k =>
      match run r1 s k with
      | Some v => Some v
      | None => run r2 s k
      end
  | Star r1 => fun s k => repeat_matcher (run r1) (String.length s) s k
  end.

(** A pattern with its groups marked: [Group] is the capturing group (one at
    most is used here, outside every repetition and alternative). *)
Inductive grouped : Type :=
| Plain (r : regex)
| Group (r : regex)             (* ( r ) *)
| NonCapturing (g : grouped)    (* (?: g ) *)
| Then (g1 g2 : grouped).

Fixpoint erase (g : grouped) : regex :=
  match g with
  | Plain r | Group r => r
  | NonCapturing g' => erase g'
  | Then g1 g2 => Seq (erase g1) (erase g2)
  end.

(** [cap] is capture 1 so far: [None] is [undefined]. *)
Fixpoint grun {A : Type} (g : grouped) (s : string) (cap : option string)
    (k : string -> option string -> option A) : option A :=
  match g with
  | Plain r => run r s (fun s' => k s' cap)
  | Group r =>
      run r s (fun s' =>
        k s' (Some (String.substring 0 (String.length s - String.length s') s)))
  | NonCapturing g' => grun g' s cap k
  | Then g1 g2 => grun g1 s cap (fun s' cap' => grun g2 s' cap' k)
  end.

(** One attempt, at the start of [s]: capture 1 of the match found. *)
Definition exec_at (g : grouped) (s : string) : option (option string) :=
  grun g s None (fun _ cap => Some cap).

(** [s.match(g)] without the global flag: the attempts start at index 0, then
    1, and so on to the end of the string; the result is [None] for [null],
    else capture 1 of the first attempt that succeeds. *)
Fixpoint js_match (g : grouped) (s : string) : option (option string) :=
  match exec_at g s with
  | Some cap => Some cap
  | None =>
      match s with
      | EmptyString => None
      | String _ s' => js_match g s'
      end
  end.

End Backtrack.

(** [extensionRegex] with its groups:
    [/Payload\/[^/]+\.app\/PlugIns\/(?:([^/]+)\.appex)\//] *)
Definition extensionRegex_groups : Backtrack.grouped :=
  Backtrack.Then (Backtrack.Plain (Lit "Payload/"))
   (Backtrack.Then (Backtrack.Plain (Plus NotSlash))
     (Backtrack.Then (Backtrack.Plain (Lit ".app/PlugIns/"))
       (Backtrack.Then
          (Backtrack.NonCapturing
             (Backtrack.Then (Backtrack.Group (Plus NotSlash))
                             (Backtrack.Plain (Lit ".appex"))))
          (Backtrack.Plain (Chr "/"))))).

(** [getExtensionName(path)]: [None] is [null], [Some cap] is [match[1]]. *)
Definition getExtensionName (path : string) : option (option string) :=
  match Backtrack.js_match extensionRegex_groups path with
  | None => None
  | Some cap => Some cap
  end.

(** [abortController] holds a controller only for a save that is suspended
    at the [await] of [saveIPA], and [saving] is set only while it holds
    one. *)
Definition guard_agrees (s : Sys) : Prop :=
  (forall i, abortController (vars (world s)) = Some i ->
             exists att, attempts s !! i = Some att /\ waiting att = true) /\
  (saving (vars (world s)) = true -> abortController (vars (world s)) <> None).

(** ** The three screens of the template, lines 208-227 *)

Inductive Screen : Type :=
| DropZone      (* [{#if !files}] *)
| Analyzing     (* [{:else if !ipa}] *)
| Package.      (* [{:else}] *)

Definition screen (a : App) : Screen :=
  match files a, ipa a with
  | None, _ => DropZone
  | Some _, None => Analyzing
  | Some _, Some _ => Package
  end.

(** What the screen lets happen: the drop zone takes a drop unless it is
    disabled; the package screen has the Back button, and, when extensions
    are listed, their toggles and the Save button, disabled while [saving];
    the "Analyzing" screen has no control at all.  The operations awaited by
    a save complete whatever is on the screen. *)
Definition offered (a : App) (ev : Event) : bool :=
  match ev, screen a with
  | Drop _, DropZone => negb (saving a)
  | ClickBack, Package => true
  | Toggle extension, Package =>
      existsb (fun e => String.eqb extension (filename e)) (extensions a)
      && negb (saving a)
  | ClickSave, Package =>
      negb (Nat.eqb (List.length (extensions a)) 0) && negb (saving a)
  | IoDone _, _ | Settled _, _ => true
  | _, _ => false
  end.

Section Offered.

Variable getEntries : File -> option (list Entry).
Variable parsePlist : Bytes -> option PlistValue.
Variable cgbiToPng : Bytes -> option Bytes.
Variable RegExp : string -> option regex.

(** Every event of the list is offered by the screen it meets. *)
Fixpoint all_offered (evs : list Event) (s : Sys) : bool :=
  match evs with
  | [] => true
  | ev :: evs' =>
      offered (vars (world s)) ev
      && all_offered evs' (sys_step getEntries parsePlist cgbiToPng RegExp s ev)
  end.

End Offered.

(** [a] is [b] but for [progress], [progressMax] and [progressText]. *)
Definition same_but_progress (a b : App) : Prop :=
  files a = files b /\ abortController a = abortController b /\
  ipa a = ipa b /\ metadata a = metadata b /\ appIcon a = appIcon b /\
  extensions a = extensions b /\ extensionsToKeep a = extensionsToKeep b /\
  saving a = saving b.

(** * Properties *)

(** ** Strings *)

Lemma append_nil (t : string) : "" ++ t = t.
Proof. reflexivity. Qed.

Lemma append_cons (c : ascii) (s t : string) :
  String c s ++ t = String c (s ++ t).
Proof. reflexivity. Qed.

Lemma append_assoc (a b c : string) : (a ++ b) ++ c = a ++ (b ++ c).
Proof.
  induction a as [|x a IH]; [reflexivity |].
  now rewrite !append_cons, IH.
Qed.

Ltac unfold_append :=
  repeat (rewrite ?append_nil, ?append_cons in * ).

Lemma endsWith_spec (suffix s : string) :
  endsWith suffix s = true <-> exists stem, s = stem ++ suffix.
Proof.
  induction s as [|c s IH]; simpl.
  - rewrite orb_false_r, String.eqb_eq. split.
    + intros ->. now exists "".
    + intros [stem H]. destruct stem; unfold_append; [now subst | discriminate].
  - rewrite orb_true_iff, String.eqb_eq, IH. split.
    + intros [-> | [stem ->]]; [now exists "" | now exists (String c stem)].
    + intros [[|c' stem] H]; unfold_append.
      * now left.
      * injection H as -> ->. right. now exists stem.
Qed.

Lemma startsWith_spec (p s : string) :
  startsWith p s = true <-> exists rest, s = p ++ rest.
Proof.
  revert s. induction p as [|a p IH]; intros s; simpl.
  - split; [intros _; now exists s | reflexivity].
  - destruct s as [|b s].
    + split; [discriminate | intros [rest H]; unfold_append; discriminate].
    + rewrite andb_true_iff, Ascii.eqb_eq, IH. split.
      * intros [-> [rest ->]]. now exists rest.
      * intros [rest H]. unfold_append. injection H as -> ->.
        split; [reflexivity | now exists rest].
Qed.

(** ** Discovery *)

Lemma conventional_endsWith (path : string) :
  conventional_extension_path path -> endsWith ".appex/" path = true.
Proof.
  intros (app & ext & _ & _ & _ & _ & ->).
  apply endsWith_spec. exists ("Payload/" ++ app ++ ".app/PlugIns/" ++ ext).
  now rewrite !append_assoc.
Qed.

(** C4, as the code has it: an entry is discovered exactly when it is a
    directory entry of the catalog whose path ends with [.appex/], wherever in
    the archive it lies; the directories that follow the convention
    [Payload/<app>.app/PlugIns/<name>.appex/] are among them. *)
Theorem discover_by_suffix_only :
  (forall (catalog : list Entry) (entry : Entry),
      In entry (discover catalog) <->
      In entry catalog /\ directory entry = true /\
      exists stem, filename entry = stem ++ ".appex/") /\
  (forall (catalog : list Entry) (entry : Entry),
      In entry catalog -> directory entry = true ->
      conventional_extension_path (filename entry) ->
      In entry (discover catalog)).
Proof.
  assert (Hiff : forall catalog entry,
             In entry (discover catalog) <->
             In entry catalog /\ directory entry = true /\
             exists stem, filename entry = stem ++ ".appex/").
  { intros catalog entry. unfold discover, is_extension.
    rewrite filter_In, andb_true_iff, endsWith_spec. tauto. }
  split; [exact Hiff |].
  intros catalog entry Hin Hdir Hconv. apply Hiff.
  split; [assumption | split; [assumption |]].
  apply endsWith_spec, conventional_endsWith, Hconv.
Qed.

(** C4, the claim as it is worded fails: a directory [Foo.appex/] at the root
    of the archive is discovered although it is neither inside a main
    application directory nor inside [PlugIns] (and the pattern
    [extensionRegex] does not match it). *)
Lemma discover_outside_plugins :
  let stray := mkEntry "Foo.appex/" true None in
  In stray (discover [mkEntry "Payload/App.app/" true None; stray]) /\
  test extensionRegex (filename stray) = false /\
  ~ conventional_extension_path (filename stray).
Proof.
  split; [| split].
  - vm_compute. now left.
  - vm_compute. reflexivity.
  - intros (app & ext & _ & _ & _ & _ & H). simpl in H. unfold_append.
    discriminate H.
Qed.

Lemma discover_by_suffix_only_witness :
  In (mkEntry "Payload/App.app/PlugIns/Ext.appex/" true None)
     (discover [mkEntry "Payload/App.app/" true None;
                mkEntry "Payload/App.app/PlugIns/Ext.appex/" true None]).
Proof.
  apply (proj2 discover_by_suffix_only).
  - right. now left.
  - reflexivity.
  - exists "App", "Ext". repeat split; try discriminate.
    + intros pre post H.
      destruct pre as [|a [|b [|c [|d pre]]]]; unfold_append;
        try discriminate; injection H; intros; subst; discriminate.
    + intros pre post H.
      destruct pre as [|a [|b [|c [|d pre]]]]; unfold_append;
        try discriminate; injection H; intros; subst; discriminate.
Defined.

(** ** The binary64 product and its rounding *)

Lemma round53_spec (p : Z) :
  0 <= p ->
  exists k c,
    0 <= k /\ Number.round53 p = c * 2 ^ k /\
    - 2 ^ k <= 2 * (Number.round53 p - p) <= 2 ^ k /\
    (k = 0 \/ 2 ^ 52 * 2 ^ k <= p < 2 ^ 53 * 2 ^ k).
Proof.
  intros Hp. unfold Number.round53.
  destruct (Z.leb_spec (Z.log2 p - 52) 0) as [Hk | Hk].
  - exists 0, p. rewrite Z.pow_0_r. lia.
  - set (k := Z.log2 p - 52) in *.
    assert (Hp0 : 0 < p).
    { destruct (Z.eq_dec p 0) as [-> | ?]; [| lia]. simpl in k. lia. }
    pose proof (Z.log2_spec p Hp0) as [Hlo Hhi].
    replace (Z.log2 p) with (52 + k) in Hlo by lia.
    replace (Z.succ (Z.log2 p)) with (53 + k) in Hhi by lia.
    rewrite Z.pow_add_r in Hlo, Hhi by lia.
    assert (HK : 2 ^ k = 2 * 2 ^ (k - 1)).
    { replace k with (1 + (k - 1)) at 1 by lia. rewrite Z.pow_add_r by lia. reflexivity. }
    assert (Hh : 0 < 2 ^ (k - 1)) by (apply Z.pow_pos_nonneg; lia).
    pose proof (Z.div_mod p (2 ^ k) ltac:(lia)) as Hdm.
    pose proof (Z.mod_pos_bound p (2 ^ k) ltac:(lia)) as Hr.
    set (q := p / 2 ^ k) in *. set (r := p mod 2 ^ k) in *.
    set (half := 2 ^ (k - 1)) in *.
    exists k. 
    destruct ((half <? r) || ((r =? half) && Z.odd q)) eqn:E.
    + exists (q + 1). split; [lia |]. split; [reflexivity |]. split; [| right; lia].
      assert (half <= r).
      { apply orb_true_iff in E. destruct E as [E | E].
        - apply Z.ltb_lt in E. lia.
        - apply andb_true_iff in E. destruct E as [E _]. apply Z.eqb_eq in E. lia. }
      nia.
    + exists q. split; [lia |]. split; [reflexivity |]. split; [| right; lia].
      apply orb_false_iff in E. destruct E as [E _]. apply Z.ltb_ge in E. nia.
Qed.

Lemma round_times_1_1_nearest (n : Z) :
  0 <= n < 2 ^ 32 -> Number.round_times_1_1 n = (11 * n + 5) / 10.
Proof.
  intros Hn. unfold Number.round_times_1_1, Number.times_1_1, Number.Math_round.
  set (p := n * Number.mantissa_1_1).
  assert (Hp : 0 <= p) by (unfold p, Number.mantissa_1_1; lia).
  destruct (round53_spec p Hp) as (k & c & Hk & HR & Hnear & Hcase).
  set (R := Number.round53 p) in *.
  set (T := (11 * n + 5) / 10).
  pose proof (Z.div_mod (11 * n + 5) 10 ltac:(lia)) as HT.
  pose proof (Z.mod_pos_bound (11 * n + 5) 10 ltac:(lia)) as HTr.
  fold T in HT.
  assert (H10p : 10 * p = 2 ^ 52 * (11 * n) + 4 * n).
  { unfold p, Number.mantissa_1_1. change (2 ^ 52) with 4503599627370496. lia. }
  symmetry. apply Z.div_unique with (r := 2 * R + 2 ^ 52 - T * 2 ^ 53).
  2: lia.
  left.
  destruct Hcase as [-> | Hrange].
  - rewrite Z.pow_0_r in *. change (2 ^ 53) with 9007199254740992 in *.
    change (2 ^ 52) with 4503599627370496 in *. change (2^32) with 4294967296 in *. lia.
  - assert (Hk32 : k <= 32).
    { destruct (Z.le_gt_cases k 32) as [? | Hgt]; [assumption |].
      assert (2 ^ 33 <= 2 ^ k) by (apply Z.pow_le_mono_r; lia).
      unfold p, Number.mantissa_1_1 in Hrange.
      change (2 ^ 52) with 4503599627370496 in *. change (2^32) with 4294967296 in *.
      change (2 ^ 33) with 8589934592 in *. nia. }
    assert (HK32 : 2 ^ k <= 2 ^ 32) by (apply Z.pow_le_mono_r; lia).
    assert (HKpos : 0 < 2 ^ k) by (apply Z.pow_pos_nonneg; lia).
    assert (Hsplit : 2 ^ 51 = 2 ^ k * 2 ^ (51 - k)).
    { rewrite <- Z.pow_add_r by lia. f_equal. lia. }
    set (K := 2 ^ k) in *. set (K' := 2 ^ (51 - k)) in *.
    assert (Hlow : (2 * T - 1) * 2 ^ 51 <= R).
    { rewrite Hsplit, HR.
      assert (Hc : (2 * T - 1) * K' <= c).
      { assert ((2 * ((2 * T - 1) * K') - 2 * c - 1) * K < 0); [| nia].
        assert (10 * ((2 * T - 1) * 2 ^ 51) <= 10 * p).
        { rewrite H10p. change (2 ^ 52) with (2 * 2 ^ 51). nia. }
        rewrite Hsplit in H. nia. }
      nia. }
    change (2 ^ 53) with (4 * 2 ^ 51). change (2 ^ 52) with (2 * 2 ^ 51) in *.
    change (2 ^ 32) with 4294967296 in *.
    change (2 ^ 51) with 2251799813685248 in *. lia.
Qed.

Lemma round_times_1_1_lower (n : Z) : 0 <= n -> n <= Number.round_times_1_1 n.
Proof.
  intros Hn. unfold Number.round_times_1_1, Number.times_1_1, Number.Math_round.
  set (p := n * Number.mantissa_1_1).
  assert (Hp : 0 <= p) by (unfold p, Number.mantissa_1_1; lia).
  destruct (round53_spec p Hp) as (k & c & Hk & HR & Hnear & Hcase).
  set (R := Number.round53 p) in *.
  apply Z.div_le_lower_bound; [reflexivity |].
  assert (HKpos : 0 < 2 ^ k) by (apply Z.pow_pos_nonneg; lia).
  unfold p, Number.mantissa_1_1 in *.
  change (2 ^ 53) with 9007199254740992 in *.
  change (2 ^ 52) with 4503599627370496 in *.
  destruct Hcase as [-> | Hrange].
  - rewrite Z.pow_0_r in *. lia.
  - set (K := 2 ^ k) in *. lia.
Qed.

(** ** The initial selection *)

Lemma fromEntries_all_true (exts : list Entry) (m : gmap string bool) (k : string) :
  fold_left (fun m kv => <[kv.1 := kv.2]> m)
            (List.map (fun extension => (filename extension, true)) exts) m !! k =
  if existsb (fun e => String.eqb k (filename e)) exts then Some true else m !! k.
Proof.
  revert m. induction exts as [|e exts IH]; intros m; simpl; [reflexivity |].
  rewrite IH. destruct (String.eqb_spec k (filename e)) as [-> | Hne]; simpl.
  - rewrite lookup_insert_eq. now destruct (existsb _ exts).
  - rewrite lookup_insert_ne by congruence. reflexivity.
Qed.

Lemma initial_selection_lookup (exts : list Entry) (k : string) :
  initial_selection exts !! k =
  if existsb (fun e => String.eqb k (filename e)) exts then Some true else None.
Proof.
  unfold initial_selection, fromEntries. rewrite fromEntries_all_true.
  now rewrite lookup_empty.
Qed.

Lemma initial_selection_keys (exts : list Entry) (k : string) :
  is_Some (initial_selection exts !! k) ->
  exists ext, In ext exts /\ filename ext = k.
Proof.
  rewrite initial_selection_lookup.
  destruct (existsb _ exts) eqn:E; [| intros [? ?]; discriminate].
  intros _. apply existsb_exists in E. destruct E as (ext & Hin & Heq).
  apply String.eqb_eq in Heq. now exists ext.
Qed.

Lemma initial_selection_true (exts : list Entry) (ext : Entry) :
  In ext exts -> initial_selection exts !! filename ext = Some true.
Proof.
  intros Hin. rewrite initial_selection_lookup.
  replace (existsb _ exts) with true; [reflexivity |].
  symmetry. apply existsb_exists. exists ext. split; [exact Hin |].
  apply String.eqb_refl.
Qed.

(** ** Runs of one save *)

Lemma job_run_app (evs1 evs2 : list JobEvent) (c : Frame * World) :
  job_run (evs1 ++ evs2) c = job_run evs2 (job_run evs1 c).
Proof. unfold job_run. apply fold_left_app. Qed.

Lemma job_run_cons (ev : JobEvent) (evs : list JobEvent) (c : Frame * World) :
  job_run (ev :: evs) c = job_run evs (job_step c ev).
Proof. reflexivity. Qed.

(** Where the listener is registered, the signal runs it. *)
Lemma job_step_abort (fr : Frame) (w : World) :
  pc fr <> AtStart -> job_step (fr, w) Abort = on_abort fr w.
Proof. intros H. cbn [job_step fst snd]. now destruct (pc fr). Qed.

Lemma job_step_abort_unheard (fr : Frame) (w : World) :
  pc fr = AtStart -> job_step (fr, w) Abort = (fr, w).
Proof. intros H. cbn [job_step fst snd]. now rewrite H. Qed.

Lemma job_step_abort_cases (fr : Frame) (w : World) :
  job_step (fr, w) Abort = (fr, w) \/ job_step (fr, w) Abort = on_abort fr w.
Proof. cbn [job_step fst snd]. destruct (pc fr); auto. Qed.

Lemma downloads_app (es1 es2 : list Effect) :
  downloads (es1 ++ es2) = (downloads es1 ++ downloads es2)%list.
Proof. unfold downloads. apply omap_app. Qed.

Lemma progress_values_app (es1 es2 : list Effect) :
  progress_values (es1 ++ es2) = (progress_values es1 ++ progress_values es2)%list.
Proof. unfold progress_values. apply omap_app. Qed.

(** The listener starts no download. *)
Lemma on_abort_downloads (fr : Frame) (w : World) :
  downloads (effects (on_abort fr w).2) = downloads (effects w).
Proof.
  unfold on_abort. destruct (aborted fr); [reflexivity |].
  simpl. rewrite !downloads_app. simpl. now rewrite !app_nil_r.
Qed.

Lemma on_abort_pc (fr : Frame) (w : World) : pc (on_abort fr w).1 = pc fr.
Proof.
  unfold on_abort, settle. destruct (aborted fr); [reflexivity |].
  simpl. now destruct (promise fr).
Qed.

(** Once the executor has returned, nothing is saved any more. *)
Lemma returned_stays (evs : list JobEvent) (fr : Frame) (w : World) :
  pc fr = Returned ->
  pc (job_run evs (fr, w)).1 = Returned /\
  downloads (effects (job_run evs (fr, w)).2) = downloads (effects w).
Proof.
  revert fr w. induction evs as [|ev evs IH]; intros fr w Hpc; [now split |].
  rewrite job_run_cons.
  destruct ev; [simpl | rewrite job_step_abort by (rewrite Hpc; discriminate)].
  - unfold resume. rewrite Hpc. now apply IH.
  - destruct (on_abort fr w) as [fr' w'] eqn:E.
    assert (Hpc' : pc fr' = Returned)
      by (change fr' with (fr', w').1; rewrite <- E, on_abort_pc; exact Hpc).
    destruct (IH fr' w' Hpc') as [H1 H2]. split; [exact H1 |].
    rewrite H2. change w' with (fr', w').2. rewrite <- E. apply on_abort_downloads.
Qed.

Lemma every_kept_true (selection : gmap string bool) :
  every_kept selection = true <->
  forall k keep, selection !! k = Some keep -> keep = true.
Proof.
  unfold every_kept. rewrite forallb_forall. split.
  - intros H k keep Hk. apply H, list_elem_of_In, list_elem_of_fmap.
    exists (k, keep). split; [reflexivity |]. now apply elem_of_map_to_list.
  - intros H keep Hin. apply list_elem_of_In, list_elem_of_fmap in Hin.
    destruct Hin as ([k keep'] & -> & Hin). apply elem_of_map_to_list in Hin.
    exact (H k keep' Hin).
Qed.

(** C2: when every discovered extension is mapped to [true] (and the
    selection has no other keys), the save writes progress 1 of 1 with the
    text "Done!", then hands the picked file itself to [saveBlob] under its
    own name and resolves; no archive writer is created, and nothing else is
    ever saved by this invocation. *)
Theorem save_without_removal
    (w : World) (f : File) (fs : list File) (catalog : list Entry) :
  files (vars w) = Some (f :: fs) ->
  ipa (vars w) = Some catalog ->
  (forall k, is_Some (extensionsToKeep (vars w) !! k) ->
             exists ext, In ext (extensions (vars w)) /\ filename ext = k) ->
  (forall ext, In ext (extensions (vars w)) ->
               extensionsToKeep (vars w) !! filename ext = Some true) ->
  let c := _saveIPA w in
  pc c.1 = Returned /\ promise c.1 = Resolved /\ zipWriter c.1 = None /\
  effects c.2 =
    (effects w ++
     [SetProgress 0; SetProgressMax 1; SetProgress 1; SetProgressText "Done!";
      SaveBlob (OriginalFile f) (name f)])%list /\
  progress (vars c.2) = 1 /\ progressMax (vars c.2) = 1 /\
  progressText (vars c.2) = "Done!" /\
  forall evs,
    downloads (effects (job_run evs c).2) =
    (downloads (effects w) ++ [(OriginalFile f, name f)])%list.
Proof.
  intros Hfiles Hipa Hkeys Htrue.
  assert (Hall : every_kept (extensionsToKeep (vars w)) = true).
  { apply every_kept_true. intros k keep Hk.
    destruct (Hkeys k (ex_intro _ keep Hk)) as (ext & Hin & <-).
    specialize (Htrue ext Hin). congruence. }
  assert (E : resume new_frame w =
              (with_pc Returned (settle Resolved new_frame),
               saveBlob (OriginalFile f) (name f)
                 (set_progressText "Done!"
                    (set_progress 1 (set_progressMax 1 (set_progress 0 w)))))).
  { unfold resume, start. simpl. rewrite Hfiles, Hipa, Hall. reflexivity. }
  unfold _saveIPA. rewrite E. simpl. repeat split.
  - now rewrite <- !app_assoc.
  - intros evs.
    destruct (returned_stays evs (with_pc Returned (settle Resolved new_frame))
                (saveBlob (OriginalFile f) (name f)
                   (set_progressText "Done!"
                      (set_progress 1 (set_progressMax 1 (set_progress 0 w)))))
                eq_refl) as [_ ->].
    simpl. rewrite !downloads_app. simpl. now rewrite !app_nil_r.
Qed.

Lemma save_without_removal_witness :
  downloads (effects (_saveIPA (mkWorld sample_loaded [])).2) =
  [(OriginalFile sample_file, "App.ipa")].
Proof.
  pose proof (save_without_removal (mkWorld sample_loaded []) sample_file []
                sample_catalog eq_refl eq_refl) as H.
  assert (H1 : forall k, is_Some (extensionsToKeep sample_loaded !! k) ->
                 exists ext, In ext (extensions sample_loaded) /\ filename ext = k).
  { intros k Hk. apply initial_selection_keys. exact Hk. }
  assert (H2 : forall ext, In ext (extensions sample_loaded) ->
                 extensionsToKeep sample_loaded !! filename ext = Some true).
  { intros ext Hin. apply initial_selection_true. exact Hin. }
  destruct (H H1 H2) as (_ & _ & _ & _ & _ & _ & _ & Hd).
  exact (Hd []).
Defined.

(** ** Metadata and icon *)

Section Resolution.

Variable getEntries : File -> option (list Entry).
Variable parsePlist : Bytes -> option PlistValue.
Variable cgbiToPng : Bytes -> option Bytes.
Variable RegExp : string -> option regex.

(** No entry matches the descriptor pattern: no metadata, no error. *)
Lemma getMetadata_no_match (a : App) (entries : list Entry) :
  ipa a = Some entries ->
  List.find (fun entry => test metadataRegex (filename entry)) entries = None ->
  getMetadata parsePlist a = inr None.
Proof. intros Hipa Hfind. unfold getMetadata. now rewrite Hipa, Hfind. Qed.

(** The parser throws: no metadata, no error. *)
Lemma getMetadata_parse_failure
    (a : App) (entries : list Entry) (e : Entry) (blob : Bytes) :
  ipa a = Some entries ->
  List.find (fun entry => test metadataRegex (filename entry)) entries = Some e ->
  getData e = Some (ReadOk blob) ->
  parsePlist blob = None ->
  getMetadata parsePlist a = inr None.
Proof.
  intros Hipa Hfind Hdata Hparse. unfold getMetadata.
  now rewrite Hipa, Hfind, Hdata, Hparse.
Qed.

(** Reading the descriptor entry is rejected: the rejection leaves
    [getMetadata]. *)
Lemma getMetadata_read_failure (a : App) (entries : list Entry) (e : Entry) :
  ipa a = Some entries ->
  List.find (fun entry => test metadataRegex (filename entry)) entries = Some e ->
  getData e = Some ReadError ->
  getMetadata parsePlist a = inl ReadFailure.
Proof.
  intros Hipa Hfind Hdata. unfold getMetadata. now rewrite Hipa, Hfind, Hdata.
Qed.

Lemma ipa_with_loaded (entries : list Entry) (a : App) :
  ipa (with_loaded entries a) = Some entries.
Proof. reflexivity. Qed.

(** C6, where the code leaves the claim.  When the decoder throws on the
    bytes of the icon entry, [loadIPA] ends with the decoder's error: the call
    of line 75 is awaited outside any [try], while the parser call of
    [getMetadata] is inside one.  The state is as the claim has it: no icon is
    stored ([appIcon] keeps the value it had, [null] after a fresh start or a
    clear), and the catalog, the extensions, the selection and the metadata of
    this load stay in place. *)
Theorem decoder_failure_ends_load
    (a : App) (f : File) (fs : list File) (entries : list Entry)
    (md cfBundleIcons iconFiles : PlistValue) (regex : regex)
    (iconEntry : Entry) (iconData : Bytes) :
  files a = Some (f :: fs) ->
  getEntries f = Some entries ->
  getMetadata parsePlist (with_loaded entries a) = inr (Some md) ->
  prop "CFBundleIcons" md = Some cfBundleIcons ->
  truthy cfBundleIcons = true ->
  prop "CFBundlePrimaryIcon" cfBundleIcons ≫= prop "CFBundleIconFiles"
    = Some iconFiles ->
  RegExp (appIconRegex_source (index0 iconFiles)) = Some regex ->
  List.find (fun entry => test regex (filename entry)) entries = Some iconEntry ->
  getData iconEntry = Some (ReadOk iconData) ->
  cgbiToPng iconData = None ->
  let r := loadIPA getEntries parsePlist cgbiToPng RegExp a in
  r.2 = Some DecodeFailure /\
  appIcon r.1 = appIcon a /\
  ipa r.1 = Some entries /\
  extensions r.1 = discover entries /\
  extensionsToKeep r.1 = initial_selection (discover entries) /\
  metadata r.1 = Some md.
Proof.
  intros Hfiles Hentries Hmd Hicons Htruthy Hfilesprop Hre Hfind Hdata Hdec.
  assert (E : loadIPA getEntries parsePlist cgbiToPng RegExp a =
              (with_metadata (Some md) (with_loaded entries a), Some DecodeFailure)).
  { unfold loadIPA. rewrite Hfiles, Hentries, Hmd. unfold load_icon. simpl.
    rewrite Hicons, Htruthy. simpl. rewrite Hfilesprop, Hre, Hfind.
    destruct iconEntry as [n d g]. simpl in Hdata. subst g. now rewrite Hdec. }
  simpl. rewrite E. simpl. repeat split.
Qed.

End Resolution.

Lemma decoder_failure_ends_load_witness :
  (loadIPA (fun _ => Some icon_catalog) (fun _ => Some icon_plist)
           (fun _ => None) icon_RegExp (chosen sample_file)).2
  = Some DecodeFailure /\
  appIcon (loadIPA (fun _ => Some icon_catalog) (fun _ => Some icon_plist)
                   (fun _ => None) icon_RegExp (chosen sample_file)).1 = None.
Proof.
  pose proof (decoder_failure_ends_load
                (fun _ => Some icon_catalog) (fun _ => Some icon_plist)
                (fun _ => None) icon_RegExp (chosen sample_file) sample_file []
                icon_catalog icon_plist
                (PlDict [("CFBundlePrimaryIcon",
                          PlDict [("CFBundleIconFiles",
                                   PlArray [PlString "AppIcon60x60"])])])
                (PlArray [PlString "AppIcon60x60"])
                _
                (mkEntry "Payload/App.app/AppIcon60x60@2x.png" false (Some (ReadOk [])))
                []
                eq_refl eq_refl eq_refl eq_refl eq_refl eq_refl eq_refl
                eq_refl eq_refl eq_refl) as H.
  destruct H as (H1 & H2 & _). split; [exact H1 | exact H2].
Defined.

(** C5, the code at the failing input: the descriptor entry is there but
    reading it is rejected (an encrypted or damaged entry).  [getMetadata]
    does not return "no metadata": the rejection leaves it, and [loadIPA]
    ends with it. *)
Lemma unreadable_descriptor_rejects_load :
  let catalog :=
    [ mkEntry "Payload/App.app/" true None;
      mkEntry "Payload/App.app/Info.plist" false (Some ReadError) ] in
  getMetadata (fun _ => Some icon_plist)
              (with_loaded catalog (chosen sample_file)) = inl ReadFailure /\
  (loadIPA (fun _ => Some catalog) (fun _ => Some icon_plist)
           (fun _ => None) icon_RegExp (chosen sample_file)).2
  = Some ReadFailure.
Proof. split; vm_compute; reflexivity. Qed.

(** ** The frame does not depend on the vars once the loop is entered *)

Lemma loop_frame (rest : list Entry) (fr : Frame) (w1 w2 : World) :
  (loop rest fr w1).1 = (loop rest fr w2).1.
Proof.
  revert w1 w2. induction rest as [|entry rest IH]; intros w1 w2; simpl.
  - reflexivity.
  - destruct (aborted fr); [reflexivity |].
    destruct (skip_entry (extensionsToRemove fr) entry); [apply IH |].
    destruct (directory entry); [reflexivity |].
    destruct (getData entry); [reflexivity | apply IH].
Qed.

Lemma loop_pc (rest : list Entry) (fr : Frame) (w : World) :
  pc (loop rest fr w).1 <> AtStart.
Proof.
  revert w. induction rest as [|entry rest IH]; intros w; simpl.
  - discriminate.
  - destruct (aborted fr); [discriminate |].
    destruct (skip_entry (extensionsToRemove fr) entry); [apply IH |].
    destruct (directory entry); [discriminate |].
    destruct (getData entry); [discriminate | apply IH].
Qed.

Lemma resume_frame (fr : Frame) (w1 w2 : World) :
  pc fr <> AtStart ->
  (resume fr w1).1 = (resume fr w2).1 /\ pc (resume fr w1).1 <> AtStart.
Proof.
  intros Hpc. unfold resume.
  destruct (pc fr) eqn:E; try contradiction.
  - split; [apply loop_frame | apply loop_pc].
  - destruct (getData entry) as [[data|]|]; split; simpl; congruence.
  - split; [apply loop_frame | apply loop_pc].
  - simpl. destruct (aborted fr); split; simpl; congruence.
  - split; simpl; congruence.
  - split; simpl; congruence.
  - split; simpl; congruence.
Qed.

Lemma job_run_frame (evs : list JobEvent) (fr : Frame) (w1 w2 : World) :
  pc fr <> AtStart ->
  (job_run evs (fr, w1)).1 = (job_run evs (fr, w2)).1.
Proof.
  revert fr w1 w2. induction evs as [|ev evs IH]; intros fr w1 w2 Hpc;
    [reflexivity |].
  rewrite !job_run_cons.
  destruct ev; [simpl | rewrite !job_step_abort by exact Hpc].
  - destruct (resume_frame fr w1 w2 Hpc) as [Heq Hpc'].
    destruct (resume fr w1) as [fr1 w1'], (resume fr w2) as [fr2 w2'].
    simpl in *. subst fr2. now apply IH.
  - unfold on_abort. destruct (aborted fr); [now apply IH |].
    apply IH. unfold settle. simpl. now destruct (promise fr).
Qed.

(** C10: a file entry that is not skipped and has no [getData] costs one
    unit of progress and nothing else.  The loop goes on with the next entry
    from the same frame (same writer contents, same promise, nothing thrown),
    and from there on the frame evolves, under any events, exactly as if the
    loop had started at the next entry. *)
Theorem entry_without_accessor_is_omitted
    (entry : Entry) (rest : list Entry) (fr : Frame) (w : World) :
  aborted fr = false ->
  skip_entry (extensionsToRemove fr) entry = false ->
  directory entry = false ->
  getData entry = None ->
  loop (entry :: rest) fr w
    = loop rest fr (set_progress (progress (vars w) + 1) w) /\
  forall evs,
    (job_run evs (loop (entry :: rest) fr w)).1
    = (job_run evs (loop rest fr w)).1.
Proof.
  intros Hab Hskip Hdir Hget.
  assert (E : loop (entry :: rest) fr w
              = loop rest fr (set_progress (progress (vars w) + 1) w)).
  { simpl. now rewrite Hab, Hskip, Hdir, Hget. }
  split; [exact E |].
  intros evs. rewrite E.
  pose proof (loop_frame rest fr (set_progress (progress (vars w) + 1) w) w) as Hfr.
  pose proof (loop_pc rest fr w) as Hpc.
  destruct (loop rest fr (set_progress (progress (vars w) + 1) w)) as [fr1 w1].
  destruct (loop rest fr w) as [fr2 w2]. simpl in *. subst fr2.
  now apply job_run_frame.
Qed.

Lemma entry_without_accessor_is_omitted_witness :
  written
    (job_run [Resume; Resume; Resume]
       (loop [mkEntry "Payload/App.app/Assets.car" false None;
              mkEntry "Payload/App.app/Info.plist" false (Some (ReadOk []))]
             removing_frame (mkWorld sample_loaded []))).1
  = [mkOut "Payload/App.app/Info.plist" false (Some [])].
Proof.
  rewrite (proj2 (entry_without_accessor_is_omitted
                    (mkEntry "Payload/App.app/Assets.car" false None)
                    [mkEntry "Payload/App.app/Info.plist" false (Some (ReadOk []))]
                    removing_frame (mkWorld sample_loaded [])
                    eq_refl eq_refl eq_refl eq_refl)).
  reflexivity.
Defined.

(** ** The progress total *)

Lemma after_loop_progressMax (fr : Frame) (w : World) :
  progressMax (vars (after_loop fr w).2) = progressMax (vars w).
Proof. unfold after_loop. now destruct (aborted fr). Qed.

Lemma loop_progressMax (rest : list Entry) (fr : Frame) (w : World) :
  progressMax (vars (loop rest fr w).2) = progressMax (vars w).
Proof.
  revert w. induction rest as [|entry rest IH]; intros w; simpl.
  - apply after_loop_progressMax.
  - destruct (aborted fr); [apply after_loop_progressMax |].
    destruct (skip_entry (extensionsToRemove fr) entry); [now rewrite IH |].
    destruct (directory entry); [reflexivity |].
    destruct (getData entry); [reflexivity | now rewrite IH].
Qed.

Lemma every_kept_false (selection : gmap string bool) (k : string) :
  selection !! k = Some false -> every_kept selection = false.
Proof.
  intros Hk. destruct (every_kept selection) eqn:E; [| reflexivity].
  pose proof (proj1 (every_kept_true selection) E k false Hk). discriminate.
Qed.

(** What [start] does when something is to be removed. *)
Lemma start_filtering
    (fr : Frame) (w : World) (f : File) (fs : list File) (catalog : list Entry) :
  files (vars w) = Some (f :: fs) ->
  ipa (vars w) = Some catalog ->
  every_kept (extensionsToKeep (vars w)) = false ->
  start fr w =
  loop catalog
    (mkFrame (pc fr) (aborted fr) (promise fr) (Some f)
       (List.map filename
          (List.filter (not_kept (extensionsToKeep (vars w))) (extensions (vars w))))
       (Some (mkWriter [] false)))
    (set_progressMax (Number.round_times_1_1 (Z.of_nat (List.length catalog)))
       (set_progressText "Creating new IPA archive"
          (set_progressText "Filtering extensions" (set_progress 0 w)))).
Proof.
  intros Hfiles Hipa Hk. unfold start. simpl. now rewrite Hfiles, Hipa, Hk.
Qed.

(** C7, as the code has it: a save that removes something sets the progress
    total to [Math.round(entryCount * 1.1)], the binary64 product rounded to
    the nearest integer with ties upwards.  For every length an array can
    have this is the integer nearest to [1.1 * entryCount], halves upwards:
    [floor((11 * entryCount + 5) / 10)]. *)
Theorem progress_total_is_rounded
    (w : World) (f : File) (fs : list File) (catalog : list Entry) (k : string) :
  files (vars w) = Some (f :: fs) ->
  ipa (vars w) = Some catalog ->
  extensionsToKeep (vars w) !! k = Some false ->
  let n := Z.of_nat (List.length catalog) in
  progressMax (vars (_saveIPA w).2) = Number.round_times_1_1 n /\
  (n < 2 ^ 32 -> Number.round_times_1_1 n = (11 * n + 5) / 10).
Proof.
  intros Hfiles Hipa Hk n. split.
  - unfold _saveIPA, resume. simpl.
    rewrite (start_filtering new_frame w f fs catalog Hfiles Hipa
               (every_kept_false _ k Hk)).
    now rewrite loop_progressMax.
  - intros Hn. apply round_times_1_1_nearest. unfold n. lia.
Qed.

(** C7, the claim as it is worded fails: with five entries the total is set
    to 6, and the floor of 5.5 is 5. *)
Lemma progress_total_is_not_floor :
  progressMax
    (vars (_saveIPA
             (mkWorld (loaded_with sample_file five_entries remove_ext) [])).2) = 6 /\
  (Z.of_nat (List.length five_entries) * 11) / 10 = 5.
Proof. split; vm_compute; reflexivity. Qed.

Lemma progress_total_is_rounded_witness :
  progressMax
    (vars (_saveIPA
             (mkWorld (loaded_with sample_file five_entries remove_ext) [])).2)
  = Number.round_times_1_1 5.
Proof.
  exact (proj1 (progress_total_is_rounded
                  (mkWorld (loaded_with sample_file five_entries remove_ext) [])
                  sample_file [] five_entries
                  "Payload/App.app/PlugIns/Ext.appex/"
                  eq_refl eq_refl eq_refl)).
Defined.

(** ** What a completed rebuild contains *)

Lemma existsb_map_filter {A B : Type} (f : B -> bool) (g : A -> B)
    (p : A -> bool) (l : list A) :
  existsb f (List.map g (List.filter p l)) = existsb (fun x => p x && f (g x)) l.
Proof.
  induction l as [|x l IH]; simpl; [reflexivity |].
  destruct (p x); simpl; now rewrite IH.
Qed.

Lemma existsb_ext_in {A : Type} (f g : A -> bool) (l : list A) :
  (forall x, In x l -> f x = g x) -> existsb f l = existsb g l.
Proof.
  induction l as [|x l IH]; intros H; simpl; [reflexivity |].
  rewrite (H x (or_introl eq_refl)), IH; [reflexivity |].
  intros y Hy. apply H. now right.
Qed.

(** With a key for every listed extension, the program's list of prefixes
    removes what the specification's words say. *)
Lemma skip_entry_removed_by (selection : gmap string bool) (exts : list Entry)
    (entry : Entry) :
  (forall ext, In ext exts -> is_Some (selection !! filename ext)) ->
  skip_entry (List.map filename (List.filter (not_kept selection) exts)) entry
  = removed_by selection exts entry.
Proof.
  intros Hcov. unfold skip_entry, removed_by. rewrite existsb_map_filter.
  apply existsb_ext_in. intros ext Hin. f_equal.
  unfold not_kept. destruct (Hcov ext Hin) as [keep ->].
  now destruct keep.
Qed.

Lemma resume_returned (fr : Frame) (w : World) :
  pc fr = Returned -> resume fr w = (fr, w).
Proof. intros H. unfold resume. now rewrite H. Qed.

Lemma resumes_returned (n : nat) (fr : Frame) (w : World) :
  pc fr = Returned -> job_run (repeat Resume n) (fr, w) = (fr, w).
Proof.
  intros H. induction n as [|n IH]; [reflexivity |].
  simpl repeat. rewrite job_run_cons. simpl. now rewrite resume_returned.
Qed.

Lemma downloads_set_progress (v : Z) (w : World) :
  downloads (effects (set_progress v w)) = downloads (effects w).
Proof. simpl. rewrite downloads_app. simpl. apply app_nil_r. Qed.

Lemma downloads_set_progressText (s : string) (w : World) :
  downloads (effects (set_progressText s w)) = downloads (effects w).
Proof. simpl. rewrite downloads_app. simpl. apply app_nil_r. Qed.

Lemma downloads_set_progressMax (v : Z) (w : World) :
  downloads (effects (set_progressMax v w)) = downloads (effects w).
Proof. simpl. rewrite downloads_app. simpl. apply app_nil_r. Qed.

Lemma omap_cons_Some {A B : Type} (f : A -> option B) (x : A) (l : list A) (y : B) :
  f x = Some y -> omap f (x :: l) = y :: omap f l.
Proof. intros H. simpl. now rewrite H. Qed.

Lemma omap_cons_None {A B : Type} (f : A -> option B) (x : A) (l : list A) :
  f x = None -> omap f (x :: l) = omap f l.
Proof. intros H. simpl. now rewrite H. Qed.

Lemma job_step_resume (fr : Frame) (w : World) :
  job_step (fr, w) Resume = resume fr w.
Proof. reflexivity. Qed.

Lemma resume_add_directory (entry : Entry) (rest : list Entry) (fr : Frame) (w : World) :
  resume (with_pc (AwaitAddDirectory entry rest) fr) w
  = loop rest (writer_add (mkOut (filename entry) true None)
                 (with_pc (AwaitAddDirectory entry rest) fr)) w.
Proof. reflexivity. Qed.

Lemma resume_get_data (entry : Entry) (rest : list Entry) (data : Bytes)
    (fr : Frame) (w : World) :
  getData entry = Some (ReadOk data) ->
  resume (with_pc (AwaitGetData entry rest) fr) w
  = (with_pc (AwaitAddFile entry data rest) (with_pc (AwaitGetData entry rest) fr), w).
Proof. intros H. unfold resume. cbn [pc with_pc]. now rewrite H. Qed.

Lemma resume_add_file (entry : Entry) (data : Bytes) (rest : list Entry)
    (fr : Frame) (w : World) :
  resume (with_pc (AwaitAddFile entry data rest) fr) w
  = loop rest (writer_add (mkOut (filename entry) false (Some data))
                 (with_pc (AwaitAddFile entry data rest) fr)) w.
Proof. reflexivity. Qed.

(** Without an abort, and with the files it does not skip read with their
    data, the loop reaches its end after at most two resumptions per entry,
    having added a copy of every entry it did not skip, in their order.  The
    entries it skips are not read. *)
Lemma loop_completes (rest : list Entry) :
  forall (fr : Frame) (w : World) (zw : ZipWriter),
    aborted fr = false ->
    zipWriter fr = Some zw ->
    (forall e, In e rest ->
               skip_entry (extensionsToRemove fr) e = false ->
               directory e = false ->
               exists data, getData e = Some (ReadOk data)) ->
    exists (k : nat) (w' : World),
      (k <= 2 * List.length rest)%nat /\
      job_run (repeat Resume k) (loop rest fr w)
      = (loop_end fr zw
           (List.map copy_of
              (List.filter (fun e => negb (skip_entry (extensionsToRemove fr) e)) rest)),
         w') /\
      downloads (effects w') = downloads (effects w).
Proof.
  induction rest as [|entry rest IH]; intros fr w zw Hab Hzw Hread.
  - exists 0%nat. eexists. split; [simpl; lia |]. split.
    + simpl. unfold after_loop, loop_end. rewrite Hab. f_equal.
      destruct fr, zw; simpl in *. subst. now rewrite app_nil_r.
    + apply downloads_set_progressText.
  - assert (Hrest : forall e, In e rest ->
                      skip_entry (extensionsToRemove fr) e = false ->
                      directory e = false ->
                      exists data, getData e = Some (ReadOk data))
      by (intros e He; apply Hread; now right).
    simpl loop. rewrite Hab. simpl List.filter.
    destruct (skip_entry (extensionsToRemove fr) entry) eqn:Hskip; simpl negb.
    { destruct (IH fr (set_progress (progress (vars w) + 1) w) zw Hab Hzw Hrest)
        as (k & w' & Hk & Hrun & Hd).
      exists k, w'. split; [simpl; lia |]. split; [exact Hrun |].
      now rewrite Hd, downloads_set_progress. }
    destruct (directory entry) eqn:Hdir.
    { set (o := mkOut (filename entry) true None).
      assert (Hcopy : copy_of entry = o)
        by (unfold copy_of; now rewrite Hdir).
      simpl List.map. rewrite Hcopy.
      set (w2 := set_progressText _ _).
      set (fr' := writer_add o (with_pc (AwaitAddDirectory entry rest) fr)).
      assert (Hzw' : zipWriter fr' = Some (mkWriter (added zw ++ [o]) (closed zw)))
        by (unfold fr', writer_add; simpl; now rewrite Hzw).
      destruct (IH fr' w2 _ Hab Hzw' Hrest) as (k & w' & Hk & Hrun & Hd).
      exists (S k), w'. split; [simpl in *; lia |]. split.
      - simpl repeat.
        rewrite job_run_cons, job_step_resume, resume_add_directory.
        fold o. fold fr'. rewrite Hrun.
        unfold loop_end. simpl. now rewrite <- app_assoc.
      - rewrite Hd. unfold w2.
        now rewrite downloads_set_progressText, downloads_set_progress. }
    destruct (Hread entry (or_introl eq_refl) Hskip Hdir) as [data Hget].
    rewrite Hget.
    set (o := mkOut (filename entry) false (Some data)).
    assert (Hcopy : copy_of entry = o)
      by (unfold copy_of; now rewrite Hdir, Hget).
    simpl List.map. rewrite Hcopy.
    set (w2 := set_progressText _ _).
    set (fr' := writer_add o (with_pc (AwaitAddFile entry data rest)
                                (with_pc (AwaitGetData entry rest) fr))).
    assert (Hzw' : zipWriter fr' = Some (mkWriter (added zw ++ [o]) (closed zw)))
      by (unfold fr', writer_add; simpl; now rewrite Hzw).
    destruct (IH fr' w2 _ Hab Hzw' Hrest) as (k & w' & Hk & Hrun & Hd).
    exists (S (S k)), w'. split; [simpl in *; lia |]. split.
    + simpl repeat.
      rewrite job_run_cons, job_step_resume, (resume_get_data _ _ _ _ _ Hget).
      rewrite job_run_cons, job_step_resume, resume_add_file.
      fold o. fold fr'. rewrite Hrun.
      unfold loop_end. simpl. now rewrite <- app_assoc.
    + rewrite Hd. unfold w2.
      now rewrite downloads_set_progressText, downloads_set_progress.
Qed.

(** From the end of the loop, two more resumptions close the writer, save the
    archive and resolve. *)
Lemma finish_run (fr : Frame) (w : World) (m : nat) :
  pc fr = AwaitClose -> aborted fr = false -> promise fr = Pending ->
  let c := job_run (repeat Resume (2 + m)) (fr, w) in
  pc c.1 = Returned /\ promise c.1 = Resolved /\
  downloads (effects c.2)
  = (downloads (effects w) ++ [(Archive (written fr), file_name fr)])%list.
Proof.
  intros Hpc Hab Hpr.
  assert (E1 : resume fr w
               = (with_pc AwaitBlob (writer_close fr),
                  set_progressText "Saving archive" w)).
  { unfold resume. rewrite Hpc. cbn [aborted writer_close]. now rewrite Hab. }
  set (fr1 := with_pc AwaitBlob (writer_close fr)) in *.
  set (w1 := set_progressText "Saving archive" w) in *.
  set (w2 := set_progressText "Done!"
               (set_progress
                  (progressMax (vars (saveBlob (Archive (written fr1)) (file_name fr1) w1)))
                  (saveBlob (Archive (written fr1)) (file_name fr1) w1))).
  assert (E2 : resume fr1 w1 = (with_pc Returned (settle Resolved fr1), w2))
    by reflexivity.
  assert (Hrun : job_run (repeat Resume (2 + m)) (fr, w)
                 = (with_pc Returned (settle Resolved fr1), w2)).
  { rewrite repeat_app, job_run_app. change (repeat Resume 2) with [Resume; Resume].
    rewrite job_run_cons, job_step_resume, E1.
    rewrite job_run_cons, job_step_resume, E2.
    change (job_run [] ?x) with x. now apply resumes_returned. }
  cbv zeta. rewrite Hrun. cbn [fst snd]. split; [reflexivity |]. split.
  - unfold settle, fr1, writer_close. cbn [promise with_pc]. now rewrite Hpr.
  - unfold w2. rewrite downloads_set_progressText, downloads_set_progress.
    unfold saveBlob, emit. cbn [effects]. rewrite downloads_app.
    unfold w1. rewrite downloads_set_progressText. cbn [downloads omap list_omap].
    do 3 f_equal.
    unfold fr1, written, writer_close. cbn [zipWriter with_pc].
    now destruct (zipWriter fr).
Qed.

Lemma filter_ext_in {A : Type} (f g : A -> bool) (l : list A) :
  (forall x, In x l -> f x = g x) -> List.filter f l = List.filter g l.
Proof.
  induction l as [|x l IH]; intros H; simpl; [reflexivity |].
  rewrite (H x (or_introl eq_refl)), IH; [reflexivity |].
  intros y Hy. apply H. now right.
Qed.

(** C1: the rebuilt archive is the original minus the removed subtrees.  With
    a key for every discovered extension and at least one of them mapped to
    [false], a save that is not aborted, on a catalog whose surviving file
    entries are read with their data (the entries that are removed are not
    read at all), resolves after at most two resumptions per entry (and
    three more) and starts exactly one download, under the name of the
    picked file: the archive whose entries are the copies of the catalog
    entries whose path does not start with the path of an extension mapped
    to [false], in catalog order, each with its path, its kind and, for a
    file, its bytes. *)
Theorem rebuild_output
    (w : World) (f : File) (fs : list File) (catalog : list Entry) :
  files (vars w) = Some (f :: fs) ->
  ipa (vars w) = Some catalog ->
  extensions (vars w) = discover catalog ->
  (forall ext, In ext (discover catalog) ->
               is_Some (extensionsToKeep (vars w) !! filename ext)) ->
  (exists ext, In ext (discover catalog) /\
               extensionsToKeep (vars w) !! filename ext = Some false) ->
  (forall e, In e catalog ->
             removed_by (extensionsToKeep (vars w)) (discover catalog) e = false ->
             directory e = false ->
             exists data, getData e = Some (ReadOk data)) ->
  forall n, (2 * List.length catalog + 3 <= n)%nat ->
  let c := job_run (repeat Resume n) (new_frame, w) in
  pc c.1 = Returned /\ promise c.1 = Resolved /\
  downloads (effects c.2) =
    (downloads (effects w) ++
     [(Archive
         (List.map copy_of
            (List.filter
               (fun e => negb (removed_by (extensionsToKeep (vars w))
                                 (discover catalog) e))
               catalog)),
       name f)])%list.
Proof.
  intros Hfiles Hipa Hexts Hcov (ext0 & _ & Hfalse) Hread n Hn.
  set (sel := extensionsToKeep (vars w)) in *.
  set (toRemove := List.map filename (List.filter (not_kept sel) (discover catalog))).
  set (fr0 := mkFrame AtStart false Pending (Some f) toRemove
                      (Some (mkWriter [] false))).
  set (w0 := set_progressMax (Number.round_times_1_1 (Z.of_nat (List.length catalog)))
               (set_progressText "Creating new IPA archive"
                  (set_progressText "Filtering extensions" (set_progress 0 w)))).
  assert (Hstart : resume new_frame w = loop catalog fr0 w0).
  { unfold resume. cbn [pc new_frame].
    rewrite (start_filtering new_frame w f fs catalog Hfiles Hipa
               (every_kept_false _ _ Hfalse)).
    simpl. rewrite Hexts. reflexivity. }
  assert (Hskip : forall e,
             skip_entry (extensionsToRemove fr0) e
             = removed_by sel (discover catalog) e).
  { intros e. unfold fr0, toRemove. cbn [extensionsToRemove].
    now apply skip_entry_removed_by. }
  assert (Hread0 : forall e, In e catalog ->
                     skip_entry (extensionsToRemove fr0) e = false ->
                     directory e = false ->
                     exists data, getData e = Some (ReadOk data)).
  { intros e He Hs. apply Hread; [exact He | now rewrite <- Hskip]. }
  destruct (loop_completes catalog fr0 w0 (mkWriter [] false) eq_refl eq_refl Hread0)
    as (k & w1 & Hk & Hloop & Hd1).
  replace n with (1 + (k + (2 + (n - k - 3))))%nat by lia.
  rewrite repeat_app, job_run_app. change (repeat Resume 1) with [Resume].
  rewrite job_run_cons, job_step_resume, Hstart.
  change (job_run [] (loop catalog fr0 w0)) with (loop catalog fr0 w0).
  rewrite repeat_app, job_run_app, Hloop.
  destruct (finish_run
              (loop_end fr0 (mkWriter [] false)
                 (List.map copy_of
                    (List.filter
                       (fun e => negb (skip_entry (extensionsToRemove fr0) e))
                       catalog)))
              w1 (n - k - 3) eq_refl eq_refl eq_refl) as (H1 & H2 & H3).
  cbv zeta. split; [exact H1 | split; [exact H2 |]].
  rewrite H3, Hd1. unfold w0.
  rewrite downloads_set_progressMax, !downloads_set_progressText,
    downloads_set_progress.
  assert (Hfilter :
            List.filter (fun e => negb (skip_entry (extensionsToRemove fr0) e)) catalog
            = List.filter
                (fun e => negb (removed_by sel (discover catalog) e)) catalog).
  { apply filter_ext_in. intros e _. f_equal. apply Hskip. }
  rewrite Hfilter. reflexivity.
Qed.

Lemma rebuild_output_witness :
  downloads
    (effects
       (job_run (repeat Resume 11)
          (new_frame, mkWorld (loaded_with sample_file sample_catalog remove_ext) [])).2)
  = [(Archive [mkOut "Payload/App.app/" true None;
               mkOut "Payload/App.app/Info.plist" false (Some [])],
      "App.ipa")].
Proof.
  assert (Hcov : forall ext, In ext (discover sample_catalog) ->
                   is_Some (remove_ext !! filename ext)).
  { intros ext [<- | []]. now exists false. }
  assert (Hsome : exists ext, In ext (discover sample_catalog) /\
                    remove_ext !! filename ext = Some false).
  { exists (mkEntry "Payload/App.app/PlugIns/Ext.appex/" true None).
    split; [now left | reflexivity]. }
  assert (Hread : forall e, In e sample_catalog ->
                    removed_by remove_ext (discover sample_catalog) e = false ->
                    directory e = false ->
                    exists data, getData e = Some (ReadOk data)).
  { intros e [<- | [<- | [<- | [<- | []]]]] _ Hdir;
      first [discriminate Hdir | now exists []]. }
  destruct (rebuild_output
              (mkWorld (loaded_with sample_file sample_catalog remove_ext) [])
              sample_file [] sample_catalog eq_refl eq_refl eq_refl
              Hcov Hsome Hread 11%nat) as (_ & _ & H).
  - simpl. lia.
  - rewrite H. reflexivity.
Defined.

(** ** Cancellation *)

Lemma loop_aborted (rest : list Entry) (fr : Frame) (w : World) :
  aborted fr = true -> loop rest fr w = (with_pc AwaitClose fr, w).
Proof.
  intros Hab. destruct rest as [|entry rest]; simpl; unfold after_loop;
    now rewrite Hab.
Qed.

Lemma settle_settled (s : PromiseState) (fr : Frame) :
  promise fr <> Pending -> settle s fr = fr.
Proof. unfold settle. now destruct (promise fr). Qed.

Lemma aborted_settle (s : PromiseState) (fr : Frame) :
  aborted (settle s fr) = aborted fr.
Proof. unfold settle. now destruct (promise fr). Qed.

Lemma pc_settle (s : PromiseState) (fr : Frame) : pc (settle s fr) = pc fr.
Proof. unfold settle. now destruct (promise fr). Qed.

Lemma loop_keeps_signal (rest : list Entry) (fr : Frame) (w : World) :
  aborted (loop rest fr w).1 = aborted fr /\
  promise (loop rest fr w).1 = promise fr.
Proof.
  revert w. induction rest as [|entry rest IH]; intros w; simpl loop.
  - unfold after_loop. now split.
  - destruct (aborted fr) eqn:E; [unfold after_loop; now split |].
    destruct (skip_entry (extensionsToRemove fr) entry); [apply IH |].
    destruct (directory entry); [now split |].
    destruct (getData entry); [now split | apply IH].
Qed.

Lemma resume_keeps_signal (fr : Frame) (w : World) :
  aborted (resume fr w).1 = aborted fr /\
  (promise fr <> Pending -> promise (resume fr w).1 = promise fr).
Proof.
  unfold resume. destruct (pc fr).
  - unfold start.
    destruct (files (vars (set_progress 0 w))) as [[|f fs]|];
      [| destruct (ipa (vars (set_progress 0 w))) as [entries|];
         [destruct (every_kept (extensionsToKeep (vars (set_progress 0 w)))) |] |].
    1, 4, 5: cbn [fst with_pc aborted promise]; rewrite aborted_settle;
      split; [reflexivity |]; intros H; now rewrite settle_settled.
    + destruct (aborted fr) eqn:E; cbn [fst with_pc aborted promise];
        rewrite ?aborted_settle; (split; [now rewrite ?E |]);
        intros H; [reflexivity |].
      now rewrite settle_settled.
    + set (fr0 := mkFrame _ _ _ _ _ _).
      destruct (loop_keeps_signal entries fr0
                  (set_progressMax
                     (Number.round_times_1_1 (Z.of_nat (List.length entries)))
                     (set_progressText "Creating new IPA archive"
                        (set_progressText "Filtering extensions"
                           (set_progress 0 w))))) as [H1 H2].
      rewrite H1, H2. now split.
  - destruct (loop_keeps_signal rest
                (writer_add (mkOut (filename entry) true None) fr) w) as [H1 H2].
    rewrite H1, H2. now split.
  - destruct (getData entry) as [[data|]|]; now split.
  - destruct (loop_keeps_signal rest
                (writer_add (mkOut (filename entry) false (Some data)) fr) w)
      as [H1 H2].
    rewrite H1, H2. now split.
  - cbn [aborted writer_close]. destruct (aborted fr) eqn:E;
      cbn [fst with_pc aborted promise writer_close]; now split.
  - cbn [fst with_pc aborted promise]. rewrite aborted_settle.
    split; [reflexivity |]. intros H. now rewrite settle_settled.
  - now split.
  - now split.
Qed.












(** ** Progress *)

Lemma progressMax_values_app (es1 es2 : list Effect) :
  progressMax_values (es1 ++ es2)
  = (progressMax_values es1 ++ progressMax_values es2)%list.
Proof. unfold progressMax_values. apply omap_app. Qed.

Lemma climbs_app (a b c : Z) (l1 l2 : list Z) :
  climbs a l1 b -> climbs b l2 c -> climbs a (l1 ++ l2) c.
Proof.
  revert a. induction l1 as [|x l1 IH]; intros a H1 H2; simpl in *.
  - now subst.
  - destruct H1 as [Hax H1]. split; [exact Hax | now apply IH].
Qed.

Lemma climbs_le (a b : Z) (l : list Z) : climbs a l b -> a <= b.
Proof.
  revert a. induction l as [|x l IH]; intros a H; simpl in H.
  - lia.
  - destruct H as [Hax H]. specialize (IH x H). lia.
Qed.

Lemma climbs_sorted (a b : Z) (l : list Z) :
  climbs a l b -> StronglySorted Z.le (a :: l).
Proof.
  revert a. induction l as [|x l IH]; intros a H; simpl in H.
  - constructor; constructor.
  - destruct H as [Hax H]. pose proof (IH x H) as Hs.
    constructor; [exact Hs |].
    constructor; [exact Hax |].
    apply StronglySorted_inv in Hs. destruct Hs as [_ Hall].
    eapply List.Forall_impl; [| exact Hall]. intros y Hy. simpl in Hy. lia.
Qed.

Lemma climbs_last (a b : Z) (l : list Z) : climbs a l b -> last (a :: l) = Some b.
Proof.
  revert a. induction l as [|x l IH]; intros a H; simpl in H.
  - now subst.
  - destruct H as [_ H]. rewrite last_cons_cons. now apply IH.
Qed.

(** What one stretch of the loop does to the progress, when no abort has
    been signalled. *)
Lemma loop_climbs (rest : list Entry) :
  forall (fr : Frame) (w : World),
    aborted fr = false ->
    exists new,
      effects (loop rest fr w).2 = (effects w ++ new)%list /\
      climbs (progress (vars w)) (progress_values new)
             (progress (vars (loop rest fr w).2)) /\
      progressMax_values new = [] /\
      progressMax (vars (loop rest fr w).2) = progressMax (vars w) /\
      progress (vars (loop rest fr w).2)
        + Z.of_nat (remaining (pc (loop rest fr w).1))
        <= progress (vars w) + Z.of_nat (List.length rest) /\
      aborted (loop rest fr w).1 = false /\
      promise (loop rest fr w).1 = promise fr /\
      pc (loop rest fr w).1 <> AtStart.
Proof.
  induction rest as [|entry rest IH]; intros fr w Hab.
  - simpl. unfold after_loop. rewrite Hab.
    exists [SetProgressText "Finalizing archive"]. simpl.
    repeat split; first [done | lia].
  - simpl loop. rewrite Hab.
    set (w1 := set_progress (progress (vars w) + 1) w).
    assert (Hskip : forall c : Frame * World,
               (exists new,
                   effects c.2 = (effects w1 ++ new)%list /\
                   climbs (progress (vars w1)) (progress_values new)
                          (progress (vars c.2)) /\
                   progressMax_values new = [] /\
                   progressMax (vars c.2) = progressMax (vars w1) /\
                   progress (vars c.2) + Z.of_nat (remaining (pc c.1))
                     <= progress (vars w1) + Z.of_nat (List.length rest) /\
                   aborted c.1 = false /\ promise c.1 = promise fr /\
                   pc c.1 <> AtStart) ->
               exists new,
                 effects c.2 = (effects w ++ new)%list /\
                 climbs (progress (vars w)) (progress_values new)
                        (progress (vars c.2)) /\
                 progressMax_values new = [] /\
                 progressMax (vars c.2) = progressMax (vars w) /\
                 progress (vars c.2) + Z.of_nat (remaining (pc c.1))
                   <= progress (vars w) + Z.of_nat (List.length (entry :: rest)) /\
                 aborted c.1 = false /\ promise c.1 = promise fr /\
                 pc c.1 <> AtStart).
    { intros c (new & He & Hc & Hm & Hpm & Hb & Ha & Hp & Hpc).
      exists (SetProgress (progress (vars w) + 1) :: new).
      split; [rewrite He; unfold w1; simpl; now rewrite <- app_assoc |].
      split; [simpl; split; [lia | exact Hc] |].
      split; [exact Hm |]. split; [exact Hpm |].
      split; [| now repeat split].
      unfold w1 in Hb. simpl in Hb. simpl List.length. lia. }
    destruct (skip_entry (extensionsToRemove fr) entry).
    { apply Hskip, IH, Hab. }
    destruct (directory entry).
    { apply Hskip. eexists [SetProgressText _]. simpl.
      repeat split; first [done | lia]. }
    destruct (getData entry).
    + apply Hskip. eexists [SetProgressText _]. simpl.
      repeat split; first [done | lia].
    + apply Hskip, IH, Hab.
Qed.

Lemma start_on_course (w : World) : on_course (effects w) (resume new_frame w).
Proof.
  unfold resume. cbn [pc new_frame]. unfold start.
  destruct (files (vars (set_progress 0 w))) as [[|f fs]|] eqn:Hfiles.
  1, 3: exists [SetProgress 0], []; simpl; repeat split; done.
  destruct (ipa (vars (set_progress 0 w))) as [entries|] eqn:Hipa.
  2: exists [SetProgress 0], []; simpl; repeat split; done.
  destruct (every_kept (extensionsToKeep (vars (set_progress 0 w)))).
  - cbn [aborted new_frame].
    exists [SetProgress 0; SetProgressMax 1; SetProgress 1; SetProgressText "Done!";
            SaveBlob (OriginalFile f) (name f)], [1].
    simpl. rewrite <- !app_assoc. simpl. repeat split; try done.
    exists 1. now split.
  - set (fr0 := mkFrame _ _ _ _ _ _).
    set (total := Number.round_times_1_1 (Z.of_nat (List.length entries))).
    set (w0 := set_progressMax total _).
    destruct (loop_climbs entries fr0 w0 eq_refl)
      as (new & He & Hc & Hm & Hpm & Hb & Ha & Hp & Hpc).
    exists ([SetProgress 0; SetProgressText "Filtering extensions";
             SetProgressText "Creating new IPA archive"; SetProgressMax total]
              ++ new)%list, (progress_values new).
    split; [rewrite He; unfold w0; simpl; now rewrite <- !app_assoc |].
    split; [reflexivity |]. split; [exact Hc |].
    rewrite Hp. cbn [promise fr0 new_frame].
    split; [exact Ha |]. split; [exact Hpc |].
    exists total. split; [rewrite progressMax_values_app, Hm; reflexivity |].
    split; [rewrite Hpm; reflexivity |].
    pose proof (round_times_1_1_lower (Z.of_nat (List.length entries))
                  ltac:(lia)) as Hlow.
    fold total in Hlow.
    change (progress (vars w0)) with 0 in Hb. lia.
Qed.

Lemma resume_on_course (before : list Effect) (fr : Frame) (w : World) :
  on_course before (fr, w) -> on_course before (resume fr w).
Proof.
  intros (new & tail & He & Hpv & Hc & Hcase). cbn [fst snd] in *.
  destruct (promise fr) eqn:Hpr.
  - (* pending *)
    destruct Hcase as (Hab & Hpc & total & Hm & Hpm & Hb).
    assert (Hloop : forall rest fr', aborted fr' = false -> promise fr' = Pending ->
                      (Z.of_nat (List.length rest) <= Z.of_nat (remaining (pc fr))) ->
                      on_course before (loop rest fr' w)).
    { intros rest fr' Hab' Hpr' Hlen.
      destruct (loop_climbs rest fr' w Hab')
        as (new2 & He2 & Hc2 & Hm2 & Hpm2 & Hb2 & Ha2 & Hp2 & Hpc2).
      exists (new ++ new2)%list, (tail ++ progress_values new2)%list.
      split; [rewrite He2, He; now rewrite app_assoc |].
      split; [rewrite progress_values_app, Hpv; reflexivity |].
      split; [eapply climbs_app; eassumption |].
      rewrite Hp2, Hpr'. split; [exact Ha2 |]. split; [exact Hpc2 |].
      exists total. split; [rewrite progressMax_values_app, Hm, Hm2; reflexivity |].
      split; [congruence |]. lia. }
    unfold resume. destruct (pc fr) eqn:Hpcfr; try contradiction.
    + apply Hloop; [exact Hab | exact Hpr | simpl; lia].
    + destruct (getData entry) as [[data|]|].
      all: exists new, tail; cbn [fst snd with_pc promise pc aborted remaining];
        rewrite Hpr; repeat split; try done; exists total; repeat split;
        try done; simpl in Hb; lia.
    + apply Hloop; [exact Hab | exact Hpr | simpl; lia].
    + cbn [aborted writer_close]. rewrite Hab.
      exists (new ++ [SetProgressText "Saving archive"])%list, tail.
      cbn [fst snd with_pc promise pc aborted remaining writer_close].
      rewrite Hpr. simpl effects. rewrite He, <- app_assoc.
      split; [reflexivity |].
      split; [rewrite progress_values_app, Hpv; simpl; now rewrite app_nil_r |].
      split; [exact Hc |]. split; [exact Hab |]. split; [discriminate |].
      exists total. split; [rewrite progressMax_values_app, Hm; reflexivity |].
      split; [exact Hpm |]. simpl in Hb. simpl. lia.
    + exists (new ++ [SaveBlob (Archive (written fr)) (file_name fr);
                      SetProgress (progressMax (vars w));
                      SetProgressText "Done!"])%list,
             (tail ++ [progressMax (vars w)])%list.
      cbn [fst snd with_pc promise pc settle]. unfold settle. rewrite Hpr.
      cbn [promise pc]. simpl effects. rewrite He, <- !app_assoc.
      split; [reflexivity |].
      split; [rewrite progress_values_app, Hpv; reflexivity |].
      split.
      { eapply climbs_app; [exact Hc |]. simpl. simpl in Hb. split; [lia | reflexivity]. }
      split; [reflexivity |].
      exists total. split; [rewrite progressMax_values_app, Hm; reflexivity |].
      simpl. exact Hpm.
    + exists new, tail. cbn [fst snd]. rewrite Hpr, Hpcfr.
      split; [exact He |]. split; [exact Hpv |]. split; [exact Hc |].
      split; [exact Hab |]. split; [discriminate |].
      exists total. now repeat split.
    + exists new, tail. cbn [fst snd]. rewrite Hpr, Hpcfr.
      split; [exact He |]. split; [exact Hpv |]. split; [exact Hc |].
      split; [exact Hab |]. split; [discriminate |].
      exists total. now repeat split.
  - (* resolved *)
    destruct Hcase as (Hpc & Htotal). rewrite (resume_returned fr w Hpc).
    exists new, tail. cbn [fst snd]. rewrite Hpr. now repeat split.
  - (* rejected *)
    rewrite (resume_returned fr w Hcase).
    exists new, tail. cbn [fst snd]. rewrite Hpr. now repeat split.
Qed.

Lemma resumes_on_course (n : nat) (w : World) :
  on_course (effects w) (job_run (repeat Resume (S n)) (new_frame, w)).
Proof.
  induction n as [|n IH].
  - simpl repeat. rewrite job_run_cons, job_step_resume. apply start_on_course.
  - replace (S (S n)) with (S n + 1)%nat by lia.
    rewrite repeat_app, job_run_app.
    destruct (job_run (repeat Resume (S n)) (new_frame, w)) as [fr1 w1].
    change (repeat Resume 1) with [Resume].
    rewrite job_run_cons, job_step_resume. now apply resume_on_course.
Qed.

Lemma start_pc (fr : Frame) (w : World) : pc (start fr w).1 <> AtStart.
Proof.
  unfold start.
  destruct (files (vars (set_progress 0 w))) as [[|f fs]|];
    [| destruct (ipa (vars (set_progress 0 w))) as [entries|];
       [destruct (every_kept (extensionsToKeep (vars (set_progress 0 w))));
        [destruct (aborted fr) |] |] |].
  all: try (cbn [fst pc with_pc]; discriminate).
  apply loop_pc.
Qed.

Lemma resume_zero_once_aborted (fr : Frame) (w : World) :
  zero_once_aborted (fr, w) -> zero_once_aborted (resume fr w).
Proof.
  intros [Hpc Hz]. cbn [fst snd] in *.
  split; [apply (resume_frame fr w w Hpc) |].
  rewrite (proj1 (resume_keeps_signal fr w)). intros Hab.
  destruct (Hz Hab) as [Hp Hm].
  unfold resume. destruct (pc fr) eqn:E; try contradiction.
  - rewrite loop_aborted by exact Hab. now split.
  - destruct (getData entry) as [[data|]|]; now split.
  - rewrite loop_aborted by exact Hab. now split.
  - cbn [aborted writer_close]. rewrite Hab. now split.
  - cbn [snd]. simpl. now split.
  - now split.
  - now split.
Qed.

Lemma on_abort_zero_once_aborted (fr : Frame) (w : World) :
  pc fr <> AtStart -> zero_once_aborted (fr, w) ->
  zero_once_aborted (on_abort fr w) /\ aborted (on_abort fr w).1 = true.
Proof.
  intros Hpc [_ Hz]. cbn [fst snd] in *. unfold on_abort.
  destruct (aborted fr) eqn:Hab; cbn [fst snd].
  - split; [split; [exact Hpc | intros _; now apply Hz] | exact Hab].
  - unfold zero_once_aborted, settle. destruct (promise fr); simpl;
      (split; [split; [exact Hpc | intros _; now split] | reflexivity]).
Qed.

Lemma run_zero_once_aborted (evs : list JobEvent) (c : Frame * World) :
  zero_once_aborted c -> zero_once_aborted (job_run evs c).
Proof.
  revert c. induction evs as [|ev evs IH]; intros [fr w] Hc; [exact Hc |].
  rewrite job_run_cons. apply IH. destruct ev.
  - now apply resume_zero_once_aborted.
  - rewrite job_step_abort by apply Hc.
    now apply on_abort_zero_once_aborted; [apply Hc |].
Qed.

Lemma run_keeps_aborted (evs : list JobEvent) (c : Frame * World) :
  pc c.1 <> AtStart -> aborted c.1 = true -> aborted (job_run evs c).1 = true.
Proof.
  revert c. induction evs as [|ev evs IH]; intros [fr w] Hpc Hab; [exact Hab |].
  cbn [fst] in *. rewrite job_run_cons. destruct ev.
  - rewrite job_step_resume. apply IH.
    + apply (resume_frame fr w w Hpc).
    + now rewrite (proj1 (resume_keeps_signal fr w)).
  - rewrite job_step_abort by exact Hpc. unfold on_abort. rewrite Hab.
    now apply IH.
Qed.

(** C8, as the code has it.  In a save in which the abort signal does not
    fire, the values written to [progress] never go down, and when the
    promise is resolved [progress] holds the total that was written, once, to
    [progressMax], which is also the last value written to [progress].  When
    the signal fires, at whatever point after the save has started,
    [progress] and [progressMax] are set back to 0, and they are 0 at every
    later point of the save. *)
Theorem progress_of_a_save (w : World) :
  (forall n,
      let c := job_run (repeat Resume n) (new_frame, w) in
      exists new,
        effects c.2 = (effects w ++ new)%list /\
        StronglySorted Z.le (progress_values new) /\
        (promise c.1 = Resolved ->
         exists total,
           progressMax_values new = [total] /\
           progress (vars c.2) = total /\
           last (progress_values new) = Some total)) /\
  (forall evs1 evs2,
      let c := job_run (Resume :: evs1 ++ Abort :: evs2) (new_frame, w) in
      progress (vars c.2) = 0 /\ progressMax (vars c.2) = 0).
Proof.
  split.
  - intros n. destruct n as [|n].
    + exists []. simpl. rewrite app_nil_r. repeat split; [constructor | discriminate].
    + destruct (resumes_on_course n w) as (new & tail & He & Hpv & Hc & Hcase).
      cbv zeta. exists new. split; [exact He |]. rewrite Hpv.
      split; [eapply climbs_sorted; exact Hc |].
      intros Hres. rewrite Hres in Hcase. destruct Hcase as (_ & total & Hm & Hp).
      exists total. split; [exact Hm |]. split; [exact Hp |].
      rewrite <- Hp. eapply climbs_last; exact Hc.
  - intros evs1 evs2. cbv zeta.
    rewrite job_run_cons, job_step_resume, job_run_app, job_run_cons.
    assert (H1 : zero_once_aborted (job_run evs1 (resume new_frame w))).
    { apply run_zero_once_aborted. split.
      - unfold resume. cbn [pc new_frame]. apply start_pc.
      - rewrite (proj1 (resume_keeps_signal new_frame w)). discriminate. }
    destruct (job_run evs1 (resume new_frame w)) as [fr1 w1].
    rewrite job_step_abort by apply H1.
    destruct (on_abort_zero_once_aborted fr1 w1 (proj1 H1) H1) as [H2 Hab].
    pose proof (run_zero_once_aborted evs2 _ H2) as [_ H3].
    apply H3. now apply run_keeps_aborted; [apply H2 |].
Qed.

(** C8, the claim as it is worded fails: the sample save is suspended at the
    write of its first directory, with [progress] at 1, when the signal
    fires; the values written to [progress] are 0, 1, 0. *)
Lemma abort_resets_progress :
  let w := mkWorld (loaded_with sample_file sample_catalog remove_ext) [] in
  progress_values (effects (job_run [Resume; Abort] (new_frame, w)).2) = [0; 1; 0] /\
  ~ StronglySorted Z.le [0; 1; 0].
Proof.
  split; [vm_compute; reflexivity |].
  intros H. apply StronglySorted_inv in H. destruct H as [H _].
  apply StronglySorted_inv in H. destruct H as [_ H].
  apply Forall_inv in H. lia.
Qed.

(** ** What a save leaves alone *)

Lemma same_package_refl (a : App) : same_package a a.
Proof. now repeat split. Qed.

Lemma same_package_trans (a b c : App) :
  same_package a b -> same_package b c -> same_package a c.
Proof.
  unfold same_package. intros (H1 & H2 & H3 & H4 & H5 & H6) (K1 & K2 & K3 & K4 & K5 & K6).
  repeat split; congruence.
Qed.

Lemma loop_same_package (rest : list Entry) (fr : Frame) (w : World) :
  same_package (vars (loop rest fr w).2) (vars w).
Proof.
  revert w. induction rest as [|entry rest IH]; intros w; simpl.
  - unfold after_loop. destruct (aborted fr); now repeat split.
  - destruct (aborted fr) eqn:Hab.
    { unfold after_loop. rewrite Hab. apply same_package_refl. }
    destruct (skip_entry (extensionsToRemove fr) entry).
    { eapply same_package_trans; [apply IH | now repeat split]. }
    destruct (directory entry); [now repeat split |].
    destruct (getData entry); [now repeat split |].
    eapply same_package_trans; [apply IH | now repeat split].
Qed.

Lemma resume_same_package (fr : Frame) (w : World) :
  same_package (vars (resume fr w).2) (vars w).
Proof.
  unfold resume. destruct (pc fr).
  - unfold start.
    destruct (files (vars (set_progress 0 w))) as [[|f fs]|];
      [now repeat split | | now repeat split].
    destruct (ipa (vars (set_progress 0 w))); [| now repeat split].
    destruct (every_kept (extensionsToKeep (vars (set_progress 0 w)))).
    + destruct (aborted fr); now repeat split.
    + eapply same_package_trans; [apply loop_same_package | now repeat split].
  - apply loop_same_package.
  - destruct (getData entry) as [[data|]|]; apply same_package_refl.
  - apply loop_same_package.
  - cbn [aborted writer_close]. destruct (aborted fr); now repeat split.
  - now repeat split.
  - apply same_package_refl.
  - apply same_package_refl.
Qed.

Lemma on_abort_same_package (fr : Frame) (w : World) :
  same_package (vars (on_abort fr w).2) (vars w).
Proof. unfold on_abort. destruct (aborted fr); now repeat split. Qed.

(** ** The guard of [saveIPA] *)

Section Component.

Variable getEntries : File -> option (list Entry).
Variable parsePlist : Bytes -> option PlistValue.
Variable cgbiToPng : Bytes -> option Bytes.
Variable RegExp : string -> option regex.

Local Abbreviation step := (sys_step getEntries parsePlist cgbiToPng RegExp).
Local Abbreviation run := (sys_run getEntries parsePlist cgbiToPng RegExp).
Local Abbreviation load := (loadIPA getEntries parsePlist cgbiToPng RegExp).

Lemma load_icon_controller (entries : list Entry) (a : App) :
  abortController (load_icon cgbiToPng RegExp entries a).1 = abortController a.
Proof.
  unfold load_icon.
  destruct (metadata a ≫= prop "CFBundleIcons") as [icons|]; [| reflexivity].
  destruct (negb (truthy icons)); [reflexivity |].
  destruct (prop "CFBundlePrimaryIcon" icons ≫= prop "CFBundleIconFiles");
    [| reflexivity].
  destruct (RegExp _); [| reflexivity].
  destruct (List.find _ entries) as [[n d [[data|]|]]|]; try reflexivity.
  now destruct (cgbiToPng data).
Qed.

Lemma loadIPA_controller (a : App) :
  abortController (load a).1 = abortController a.
Proof.
  unfold loadIPA. destruct (files a) as [[|f fs]|]; try reflexivity.
  destruct (getEntries f) as [entries|]; [| reflexivity].
  destruct (getMetadata parsePlist (with_loaded entries a)); [reflexivity |].
  now rewrite load_icon_controller.
Qed.

Lemma lookup_insert_waiting (l : list Attempt) (i j : nat) (fr fr' : Frame)
    (wt : bool) (att : Attempt) :
  l !! i = Some (mkAttempt fr wt) ->
  <[i := mkAttempt fr' wt]> l !! j = Some att ->
  exists att0, l !! j = Some att0 /\ waiting att0 = waiting att.
Proof.
  intros Hi Hj. destruct (decide (i = j)) as [<- | Hne].
  - rewrite list_lookup_insert_eq in Hj by (eapply lookup_lt_Some; exact Hi).
    injection Hj as <-. now exists (mkAttempt fr wt).
  - rewrite list_lookup_insert_ne in Hj by exact Hne. now exists att.
Qed.

Lemma step_controller_held (s : Sys) (ev : Event) :
  controller_held s -> controller_held (step s ev).
Proof.
  intros Hinv. destruct ev; simpl.
  - (* saveIPA *)
    unfold saveIPA.
    destruct (bool_decide (abortController (vars (world s)) <> None)
              || saving (vars (world s))) eqn:Hguard; [exact Hinv |].
    apply orb_false_iff in Hguard. destruct Hguard as [Hctl _].
    apply bool_decide_eq_false in Hctl.
    assert (Hnone : abortController (vars (world s)) = None)
      by (destruct (abortController (vars (world s))); [exfalso; now apply Hctl | reflexivity]).
    unfold _saveIPA.
    pose proof (resume_same_package new_frame
                  (on_vars (with_controller (Some (List.length (attempts s))) true)
                           (world s))) as (_ & Hsame & _).
    destruct (resume new_frame _) as [fr w]. cbn [snd] in Hsame.
    intros i att Hi Hw. cbn [world attempts] in *.
    rewrite Hsame. cbn [on_vars vars with_controller abortController].
    destruct (decide (i < List.length (attempts s))%nat) as [Hlt | Hge].
    + rewrite lookup_app_l in Hi by exact Hlt.
      specialize (Hinv i att Hi Hw). congruence.
    + rewrite lookup_app_r in Hi by lia.
      destruct (i - List.length (attempts s))%nat as [|d] eqn:Hd;
        [| now destruct d].
      f_equal. lia.
  - (* clearIPA *)
    unfold clearIPA.
    destruct (abortController (vars (world s))) as [i|] eqn:Hctl.
    + destruct (attempts s !! i) as [[fr wt]|] eqn:Hatt.
      * pose proof (on_abort_same_package fr (world s)) as (_ & Hsame & _).
        destruct (on_abort fr (world s)) as [fr' w']. cbn [snd] in Hsame.
        intros j att Hj Hw. simpl in Hj. simpl.
        destruct (lookup_insert_waiting _ _ _ _ _ _ _ Hatt Hj) as (att0 & Hj0 & Hw0).
        rewrite Hsame, Hctl. rewrite <- Hctl. apply (Hinv j att0 Hj0). congruence.
      * intros j att Hj Hw. simpl in Hj. simpl.
        rewrite Hctl. rewrite <- Hctl. now apply (Hinv j att).
    + intros j att Hj Hw. simpl in Hj. simpl.
      rewrite Hctl. rewrite <- Hctl. now apply (Hinv j att).
  - (* drop *)
    unfold drop. destruct (files (vars (world s))); [exact Hinv |].
    intros j att Hj Hw. cbn [world attempts on_vars vars] in *.
    rewrite loadIPA_controller. cbn [with_files abortController].
    now apply (Hinv j att).
  - (* toggle *)
    intros j att Hj Hw. cbn [world attempts on_vars vars] in *.
    unfold toggle. destruct (existsb _ _); now apply (Hinv j att).
  - (* io_done *)
    unfold io_done. destruct (attempts s !! i) as [[fr wt]|] eqn:Hatt; [| exact Hinv].
    pose proof (resume_same_package fr (world s)) as (_ & Hsame & _).
    destruct (resume fr (world s)) as [fr' w']. cbn [snd] in Hsame.
    intros j att Hj Hw. cbn [world attempts] in *.
    destruct (lookup_insert_waiting _ _ _ _ _ _ _ Hatt Hj) as (att0 & Hj0 & Hw0).
    rewrite Hsame. apply (Hinv j att0 Hj0). congruence.
  - (* saveIPA_finally *)
    unfold saveIPA_finally.
    destruct (attempts s !! i) as [[fr [|]]|] eqn:Hatt; try exact Hinv.
    destruct (promise fr); [exact Hinv | |].
    all: intros j att Hj Hw; cbn [world attempts] in *; exfalso.
    all: pose proof (Hinv i _ Hatt eq_refl) as Hi.
    all: destruct (decide (i = j)) as [<- | Hne];
      [ rewrite list_lookup_insert_eq in Hj by (eapply lookup_lt_Some; exact Hatt);
        injection Hj as <-; discriminate
      | rewrite list_lookup_insert_ne in Hj by exact Hne;
        pose proof (Hinv j att Hj Hw); congruence ].
Qed.

Lemma run_controller_held (evs : list Event) (s : Sys) :
  controller_held s -> controller_held (run evs s).
Proof.
  revert s. induction evs as [|ev evs IH]; intros s Hinv; [exact Hinv |].
  simpl. apply IH, step_controller_held, Hinv.
Qed.

(** C9: in every state the component can reach, at most one invocation of
    [saveIPA] is suspended at its [await]; and while one is, a further
    [saveIPA()] returns at its guard: the vars, the effects and the save
    attempts are what they were (no job is started, nothing is queued,
    nothing is thrown). *)
Theorem save_while_in_flight_is_noop (evs : list Event) :
  let s := run evs initial in
  (forall i j atti attj,
      attempts s !! i = Some atti -> attempts s !! j = Some attj ->
      waiting atti = true -> waiting attj = true -> i = j) /\
  (in_flight s -> step s ClickSave = s).
Proof.
  assert (Hinv : controller_held (run evs initial)).
  { apply run_controller_held. intros i att Hi.
    unfold initial in Hi. cbn [attempts] in Hi. now rewrite lookup_nil in Hi. }
  cbv zeta. split.
  - intros i j atti attj Hi Hj Hwi Hwj.
    pose proof (Hinv i atti Hi Hwi). pose proof (Hinv j attj Hj Hwj). congruence.
  - intros (i & att & Hi & Hw). simpl. unfold saveIPA.
    rewrite (Hinv i att Hi Hw). reflexivity.
Qed.

(** ** The selection of a reachable state *)

Lemma selection_matches_same (a b : App) :
  ipa a = ipa b -> extensions a = extensions b ->
  extensionsToKeep a = extensionsToKeep b ->
  selection_matches b -> selection_matches a.
Proof.
  unfold selection_matches. intros -> -> ->. trivial.
Qed.

Lemma selection_matches_loaded (entries : list Entry) (a : App) :
  selection_matches (with_loaded entries a).
Proof.
  split.
  - intros k. cbn [with_loaded extensionsToKeep extensions]. split.
    + apply initial_selection_keys.
    + intros (ext & Hin & <-). rewrite (initial_selection_true _ _ Hin). now eexists.
  - cbn [with_loaded ipa extensions]. now intros catalog [= <-].
Qed.

Lemma load_icon_listing (entries : list Entry) (a : App) :
  let a' := (load_icon cgbiToPng RegExp entries a).1 in
  ipa a' = ipa a /\ extensions a' = extensions a /\
  extensionsToKeep a' = extensionsToKeep a.
Proof.
  unfold load_icon.
  destruct (metadata a ≫= prop "CFBundleIcons") as [icons|]; [| now repeat split].
  destruct (negb (truthy icons)); [now repeat split |].
  destruct (prop "CFBundlePrimaryIcon" icons ≫= prop "CFBundleIconFiles");
    [| now repeat split].
  destruct (RegExp _); [| now repeat split].
  destruct (List.find _ entries) as [[n d [[data|]|]]|]; try now repeat split.
  now destruct (cgbiToPng data).
Qed.

Lemma loadIPA_selection (a : App) :
  selection_matches a -> selection_matches (load a).1.
Proof.
  intros Ha. unfold loadIPA. destruct (files a) as [[|f fs]|]; try exact Ha.
  destruct (getEntries f) as [entries|]; [| exact Ha].
  destruct (getMetadata parsePlist (with_loaded entries a)) as [err|md].
  - apply selection_matches_loaded.
  - destruct (load_icon_listing entries (with_metadata md (with_loaded entries a)))
      as (H1 & H2 & H3).
    eapply selection_matches_same; [exact H1 | exact H2 | exact H3 |].
    apply (selection_matches_loaded entries a).
Qed.

Lemma toggle_selection (extension : string) (a : App) :
  selection_matches a -> selection_matches (toggle extension a).
Proof.
  intros [Hkeys Hexts]. unfold toggle.
  destruct (existsb _ (extensions a)) eqn:E; [| now split].
  apply existsb_exists in E. destruct E as (ext & Hin & Heq).
  apply String.eqb_eq in Heq. split; [| exact Hexts].
  intros k. cbn [with_selection extensionsToKeep extensions].
  rewrite <- Hkeys. destruct (decide (extension = k)) as [<- | Hne].
  - rewrite lookup_insert_eq. split; [| now eexists].
    intros _. apply Hkeys. now exists ext.
  - now rewrite lookup_insert_ne.
Qed.

Lemma clearIPA_listing (s : Sys) :
  ipa (vars (world (clearIPA s))) = None /\
  extensions (vars (world (clearIPA s))) = [] /\
  extensionsToKeep (vars (world (clearIPA s))) = ∅.
Proof. unfold clearIPA. now repeat split. Qed.

Lemma step_selection (s : Sys) (ev : Event) :
  selection_matches (vars (world s)) -> selection_matches (vars (world (step s ev))).
Proof.
  intros Hs. destruct ev; cbn [sys_step].
  - unfold saveIPA. destruct (_ || _); [exact Hs |].
    unfold _saveIPA.
    pose proof (resume_same_package new_frame
                  (on_vars (with_controller (Some (List.length (attempts s))) true)
                           (world s))) as (_ & _ & H1 & H2 & H3 & _).
    destruct (resume new_frame _) as [fr w]. cbn [snd world] in *.
    eapply selection_matches_same; [exact H1 | exact H2 | exact H3 | exact Hs].
  - destruct (clearIPA_listing s) as (H1 & H2 & H3). split.
    + intros k. rewrite H2, H3, lookup_empty.
      split; [intros [? [=]] | now intros (? & [] & _)].
    + rewrite H1. discriminate.
  - unfold drop. destruct (files (vars (world s))); [exact Hs |].
    cbn [world on_vars vars]. apply loadIPA_selection.
    eapply selection_matches_same; [| | | exact Hs]; reflexivity.
  - cbn [world vars on_vars]. now apply toggle_selection.
  - unfold io_done. destruct (attempts s !! i) as [[fr wt]|]; [| exact Hs].
    pose proof (resume_same_package fr (world s)) as (_ & _ & H1 & H2 & H3 & _).
    destruct (resume fr (world s)) as [fr' w']. cbn [snd world] in *.
    eapply selection_matches_same; [exact H1 | exact H2 | exact H3 | exact Hs].
  - unfold saveIPA_finally.
    destruct (attempts s !! i) as [[fr [|]]|]; try exact Hs.
    destruct (promise fr); [exact Hs | |];
      (eapply selection_matches_same; [| | | exact Hs]; reflexivity).
Qed.

(** In every state the component can reach, the hypotheses on the selection
    made by the properties of the save hold. *)
Lemma reachable_selection (evs : list Event) :
  selection_matches (vars (world (run evs initial))).
Proof.
  assert (H : forall s, selection_matches (vars (world s)) ->
                        selection_matches (vars (world (run evs s)))).
  { induction evs as [|ev evs IH]; intros s Hs; [exact Hs |].
    simpl. apply IH, step_selection, Hs. }
  apply H. split.
  - intros k. simpl. rewrite lookup_empty.
    split; [intros [? [=]] | now intros (? & [] & _)].
  - discriminate.
Qed.

End Component.

Lemma save_while_in_flight_is_noop_witness :
  let s := sys_run (fun _ => Some sample_catalog) (fun _ => None) (fun _ => None)
                   (fun _ => None) sample_session initial in
  sys_step (fun _ => Some sample_catalog) (fun _ => None) (fun _ => None)
           (fun _ => None) s ClickSave = s.
Proof.
  cbv zeta.
  apply (proj2 (save_while_in_flight_is_noop
                  (fun _ => Some sample_catalog) (fun _ => None) (fun _ => None)
                  (fun _ => None) sample_session)).
  exists 0%nat.
  eexists. split; [vm_compute; reflexivity | reflexivity].
Defined.

(** * Further properties of the code *)

(** ** Loading, then saving *)

Section Loading.

Variable getEntries : File -> option (list Entry).
Variable parsePlist : Bytes -> option PlistValue.
Variable cgbiToPng : Bytes -> option Bytes.
Variable RegExp : string -> option regex.

Local Abbreviation load := (loadIPA getEntries parsePlist cgbiToPng RegExp).

Lemma load_icon_files (entries : list Entry) (a : App) :
  files (load_icon cgbiToPng RegExp entries a).1 = files a.
Proof.
  unfold load_icon.
  destruct (metadata a ≫= prop "CFBundleIcons") as [icons|]; [| reflexivity].
  destruct (negb (truthy icons)); [reflexivity |].
  destruct (prop "CFBundlePrimaryIcon" icons ≫= prop "CFBundleIconFiles");
    [| reflexivity].
  destruct (RegExp _); [| reflexivity].
  destruct (List.find _ entries) as [[n d [[data|]|]]|]; try reflexivity.
  now destruct (cgbiToPng data).
Qed.

(** Once the zip reader has listed the entries, the catalog, the extensions
    and the selection are stored, whatever becomes of the descriptor and of
    the icon. *)
Lemma loadIPA_listing (a : App) (f : File) (fs : list File) (entries : list Entry) :
  files a = Some (f :: fs) ->
  getEntries f = Some entries ->
  files (load a).1 = Some (f :: fs) /\
  ipa (load a).1 = Some entries /\
  extensions (load a).1 = discover entries /\
  extensionsToKeep (load a).1 = initial_selection (discover entries).
Proof.
  intros Hfiles Hentries. unfold loadIPA. rewrite Hfiles, Hentries.
  destruct (getMetadata parsePlist (with_loaded entries a)) as [err|md].
  - now repeat split.
  - destruct (load_icon_listing cgbiToPng RegExp entries
                (with_metadata md (with_loaded entries a))) as (H1 & H2 & H3).
    rewrite load_icon_files, H1, H2, H3. now repeat split.
Qed.

(** X1: once [getEntries] has answered, [loadIPA] leaves the catalog in
    [ipa], the discovered directories in [extensions], and a selection whose
    keys are exactly their paths, each mapped to [true]; this holds whether
    the descriptor and the icon are found, missing, or make the function end
    with an error. *)
Theorem load_selects_every_extension
    (a : App) (f : File) (fs : list File) (entries : list Entry) :
  files a = Some (f :: fs) ->
  getEntries f = Some entries ->
  let a' := (load a).1 in
  ipa a' = Some entries /\
  extensions a' = discover entries /\
  (forall ext, In ext (discover entries) ->
               extensionsToKeep a' !! filename ext = Some true) /\
  (forall k keep, extensionsToKeep a' !! k = Some keep ->
                  keep = true /\
                  exists ext, In ext (discover entries) /\ filename ext = k).
Proof.
  intros Hfiles Hentries.
  destruct (loadIPA_listing a f fs entries Hfiles Hentries) as (_ & H1 & H2 & H3).
  cbv zeta. rewrite H1, H2, H3. repeat split.
  - intros ext Hin. now apply initial_selection_true.
  - rewrite initial_selection_lookup in H. destruct (existsb _ _); congruence.
  - apply initial_selection_keys. now exists keep.
Qed.

End Loading.

Lemma load_selects_every_extension_witness :
  extensionsToKeep
    (loadIPA (fun _ => Some two_extensions) (fun _ => None) (fun _ => None)
             (fun _ => None) (chosen sample_file)).1
    !! "Payload/App.app/PlugIns/Widget.appex/" = Some true.
Proof.
  pose proof (load_selects_every_extension
                (fun _ => Some two_extensions) (fun _ => None) (fun _ => None)
                (fun _ => None) (chosen sample_file) sample_file []
                two_extensions eq_refl eq_refl) as (_ & _ & H & _).
  apply (H (mkEntry "Payload/App.app/PlugIns/Widget.appex/" true None)).
  vm_compute. right. now left.
Defined.


(** What [start] does when nothing is to be removed. *)
Lemma start_all_kept
    (w : World) (f : File) (fs : list File) (catalog : list Entry) :
  files (vars w) = Some (f :: fs) ->
  ipa (vars w) = Some catalog ->
  every_kept (extensionsToKeep (vars w)) = true ->
  _saveIPA w =
  (with_pc Returned (settle Resolved new_frame),
   saveBlob (OriginalFile f) (name f)
     (set_progressText "Done!"
        (set_progress 1 (set_progressMax 1 (set_progress 0 w))))).
Proof.
  intros Hfiles Hipa Hall. unfold _saveIPA, resume, start. simpl.
  now rewrite Hfiles, Hipa, Hall.
Qed.

Lemma every_kept_initial (exts : list Entry) :
  every_kept (initial_selection exts) = true.
Proof.
  apply every_kept_true. intros k keep Hk.
  rewrite initial_selection_lookup in Hk. destruct (existsb _ _); congruence.
Qed.

(** X2: a save right after a load gives the picked file back.  Whatever the
    archive contains, and however the descriptor and icon steps ended, the
    call of [_saveIPA] on the loaded state resolves at once and its only
    download is the file that was dropped, under its own name. *)
Theorem save_after_load_returns_the_file
    (getEntries : File -> option (list Entry))
    (parsePlist : Bytes -> option PlistValue)
    (cgbiToPng : Bytes -> option Bytes)
    (RegExp : string -> option regex)
    (a : App) (f : File) (fs : list File) (entries : list Entry)
    (log : list Effect) :
  files a = Some (f :: fs) ->
  getEntries f = Some entries ->
  let c := _saveIPA
             (mkWorld (loadIPA getEntries parsePlist cgbiToPng RegExp a).1 log) in
  promise c.1 = Resolved /\ pc c.1 = Returned /\
  downloads (effects c.2) = (downloads log ++ [(OriginalFile f, name f)])%list.
Proof.
  intros Hfiles Hentries.
  destruct (loadIPA_listing getEntries parsePlist cgbiToPng RegExp a f fs entries
              Hfiles Hentries) as (H0 & H1 & _ & H3).
  cbv zeta.
  rewrite (start_all_kept
             (mkWorld (loadIPA getEntries parsePlist cgbiToPng RegExp a).1 log)
             f fs entries H0 H1)
    by (cbn [vars]; rewrite H3; apply every_kept_initial).
  cbn [fst snd]. split; [reflexivity |]. split; [reflexivity |].
  unfold saveBlob, emit. cbn [effects]. rewrite downloads_app.
  rewrite downloads_set_progressText, downloads_set_progress,
    downloads_set_progressMax, downloads_set_progress.
  reflexivity.
Qed.

Lemma save_after_load_returns_the_file_witness :
  downloads
    (effects
       (_saveIPA
          (mkWorld
             (loadIPA (fun _ => Some two_extensions) (fun _ => None)
                      (fun _ => None) (fun _ => None) (chosen sample_file)).1
             [])).2)
  = [(OriginalFile sample_file, "App.ipa")].
Proof.
  exact (proj2 (proj2 (save_after_load_returns_the_file
                         (fun _ => Some two_extensions) (fun _ => None)
                         (fun _ => None) (fun _ => None) (chosen sample_file)
                         sample_file [] two_extensions [] eq_refl eq_refl))).
Defined.

(** ** The toggles *)

Lemma with_selection_same (a : App) :
  with_selection (extensionsToKeep a) a = a.
Proof. now destruct a. Qed.

(** X3: the toggle of a listed extension whose key is present flips that key
    and no other, and a second toggle restores the state; the name of a
    directory that is not listed changes nothing. *)
Theorem toggle_flips_one_key (a : App) (extension : string) :
  (forall ext, In ext (extensions a) -> filename ext = extension ->
               forall keep, extensionsToKeep a !! extension = Some keep ->
    extensionsToKeep (toggle extension a) !! extension = Some (negb keep) /\
    (forall k, k <> extension ->
               extensionsToKeep (toggle extension a) !! k = extensionsToKeep a !! k) /\
    toggle extension (toggle extension a) = a) /\
  ((forall ext, In ext (extensions a) -> filename ext <> extension) ->
   toggle extension a = a).
Proof.
  split.
  - intros ext Hin Hname keep Hkeep.
    assert (Hlisted : existsb (fun e => String.eqb extension (filename e))
                              (extensions a) = true).
    { apply existsb_exists. exists ext. split; [exact Hin |].
      rewrite Hname. apply String.eqb_refl. }
    assert (E : toggle extension a
                = with_selection (<[extension := negb keep]> (extensionsToKeep a)) a).
    { unfold toggle. now rewrite Hlisted, Hkeep. }
    split; [| split].
    + rewrite E. cbn [with_selection extensionsToKeep]. apply lookup_insert_eq.
    + intros k Hk. rewrite E. cbn [with_selection extensionsToKeep].
      now apply lookup_insert_ne.
    + rewrite E. unfold toggle at 1. cbn [with_selection extensions extensionsToKeep].
      rewrite Hlisted, lookup_insert_eq, insert_insert_eq, negb_involutive.
      rewrite insert_id by exact Hkeep.
      destruct a; reflexivity.
  - intros Hnot. unfold toggle.
    destruct (existsb _ (extensions a)) eqn:E; [| reflexivity].
    apply existsb_exists in E. destruct E as (ext & Hin & Heq).
    apply String.eqb_eq in Heq. exfalso. now apply (Hnot ext Hin).
Qed.

Lemma toggle_flips_one_key_witness :
  toggle "Payload/App.app/PlugIns/Ext.appex/"
         (toggle "Payload/App.app/PlugIns/Ext.appex/" sample_loaded)
  = sample_loaded.
Proof.
  apply (proj1 (toggle_flips_one_key sample_loaded
                  "Payload/App.app/PlugIns/Ext.appex/")
               (mkEntry "Payload/App.app/PlugIns/Ext.appex/" true None)
               ltac:(now left) eq_refl true eq_refl).
Defined.

(** ** The progress bar never overshoots *)

Lemma resume_within_total (fr : Frame) (w : World) :
  within_total (fr, w) -> within_total (resume fr w).
Proof.
  unfold within_total. cbn [fst snd]. intros [H0 Hb].
  assert (Hmax : 0 <= progressMax (vars w)) by (destruct (aborted fr); lia).
  assert (Hloop : forall rest fr',
             aborted fr' = aborted fr ->
             (if aborted fr then 0 else Z.of_nat (List.length rest))
               <= (if aborted fr then 0 else Z.of_nat (remaining (pc fr))) ->
             0 <= progress (vars (loop rest fr' w).2) /\
             progress (vars (loop rest fr' w).2)
               + (if aborted (loop rest fr' w).1 then 0
                  else Z.of_nat (remaining (pc (loop rest fr' w).1)))
             <= progressMax (vars (loop rest fr' w).2)).
  { intros rest fr' Hab Hlen. destruct (aborted fr) eqn:E.
    - rewrite loop_aborted by exact Hab. cbn [fst snd with_pc aborted].
      rewrite Hab. lia.
    - destruct (loop_climbs rest fr' w Hab)
        as (new & _ & Hc & _ & Hpm & Hbud & Ha & _ & _).
      rewrite Ha, Hpm. apply climbs_le in Hc. lia. }
  unfold resume. destruct (pc fr) eqn:Hpc.
  - (* AtStart *)
    unfold start.
    destruct (files (vars (set_progress 0 w))) as [[|f fs]|];
      [| destruct (ipa (vars (set_progress 0 w))) as [entries|];
         [destruct (every_kept (extensionsToKeep (vars (set_progress 0 w)))) |] |].
    1, 4, 5: cbn [fst snd with_pc aborted pc remaining];
      rewrite aborted_settle; simpl; destruct (aborted fr); lia.
    + destruct (aborted fr) eqn:E.
      * cbn [fst snd with_pc aborted pc remaining]. rewrite E. simpl. lia.
      * cbn [fst snd with_pc aborted pc remaining]. rewrite aborted_settle.
        cbn [aborted new_frame]. rewrite E. simpl. lia.
    + set (fr0 := mkFrame _ _ _ _ _ _).
      set (total := Number.round_times_1_1 (Z.of_nat (List.length entries))).
      set (w0 := set_progressMax total _).
      pose proof (round_times_1_1_lower (Z.of_nat (List.length entries))
                    ltac:(lia)) as Hlow. fold total in Hlow.
      destruct (aborted fr) eqn:E.
      * rewrite loop_aborted by reflexivity.
        cbn [fst snd with_pc aborted fr0].
        change (progress (vars w0)) with 0.
        change (progressMax (vars w0)) with total. lia.
      * destruct (loop_climbs entries fr0 w0 eq_refl)
          as (new & _ & Hc & _ & Hpm & Hbud & Ha & _ & _).
        rewrite Ha, Hpm. apply climbs_le in Hc.
        change (progress (vars w0)) with 0 in *.
        change (progressMax (vars w0)) with total. lia.
  - apply Hloop; [reflexivity |]. cbn [remaining]. destruct (aborted fr); lia.
  - cbn [remaining] in Hb.
    destruct (getData entry) as [[data|]|];
      cbn [fst snd with_pc aborted pc remaining]; destruct (aborted fr); lia.
  - apply Hloop; [reflexivity |]. cbn [remaining]. destruct (aborted fr); lia.
  - cbn [aborted writer_close]. cbn [remaining] in Hb.
    destruct (aborted fr) eqn:E;
      cbn [fst snd with_pc aborted pc remaining writer_close]; rewrite E;
      simpl; lia.
  - cbn [fst snd with_pc aborted pc remaining]. rewrite aborted_settle.
    simpl. destruct (aborted fr); lia.
  - cbn [fst snd]. rewrite Hpc. exact (conj H0 Hb).
  - cbn [fst snd]. rewrite Hpc. exact (conj H0 Hb).
Qed.

Lemma on_abort_within_total (fr : Frame) (w : World) :
  within_total (fr, w) -> within_total (on_abort fr w).
Proof.
  unfold within_total, on_abort. cbn [fst snd]. intros [H0 Hb].
  destruct (aborted fr) eqn:E; cbn [fst snd]; [now rewrite E |].
  unfold settle. destruct (promise fr); cbn [aborted]; simpl; lia.
Qed.

(** X4: whatever happens to a save (operations completing, the abort signal
    firing, in any order), [progress] stays between 0 and [progressMax],
    provided it was there when [_saveIPA] was called. *)
Theorem progress_within_total (w : World) (evs : list JobEvent) :
  0 <= progress (vars w) <= progressMax (vars w) ->
  let c := job_run evs (new_frame, w) in
  0 <= progress (vars c.2) <= progressMax (vars c.2).
Proof.
  intros Hw.
  assert (H : forall c, within_total c -> within_total (job_run evs c)).
  { induction evs as [|ev evs IH]; intros c Hc; [exact Hc |].
    rewrite job_run_cons. apply IH. destruct c as [fr w'].
    destruct ev; [now apply resume_within_total |].
    destruct (job_step_abort_cases fr w') as [E | E]; rewrite E;
      [exact Hc | now apply on_abort_within_total]. }
  assert (H0 : within_total (new_frame, w)).
  { unfold within_total. cbn [fst snd new_frame aborted pc remaining]. lia. }
  specialize (H _ H0). unfold within_total in H. cbv zeta.
  destruct (aborted (job_run evs (new_frame, w)).1); lia.
Qed.

Lemma progress_within_total_witness :
  let c := job_run [Resume; Resume; Abort; Resume; Resume]
             (new_frame, mkWorld (loaded_with sample_file sample_catalog remove_ext) []) in
  0 <= progress (vars c.2) <= progressMax (vars c.2).
Proof.
  apply (progress_within_total
           (mkWorld (loaded_with sample_file sample_catalog remove_ext) [])
           [Resume; Resume; Abort; Resume; Resume]).
  simpl. lia.
Defined.

(** ** What a save downloads *)

Lemma after_loop_quiet (fr : Frame) (w : World) :
  downloads (effects (after_loop fr w).2) = downloads (effects w) /\
  file (after_loop fr w).1 = file fr /\
  suspended (pc (after_loop fr w).1).
Proof.
  unfold after_loop. destruct (aborted fr); cbn [fst snd with_pc pc file suspended];
    rewrite ?downloads_set_progressText; now repeat split.
Qed.

(** A stretch of the loop starts no download and ends at an [await]. *)
Lemma loop_quiet (rest : list Entry) (fr : Frame) (w : World) :
  downloads (effects (loop rest fr w).2) = downloads (effects w) /\
  file (loop rest fr w).1 = file fr /\
  suspended (pc (loop rest fr w).1).
Proof.
  revert w. induction rest as [|entry rest IH]; intros w; simpl loop.
  - apply after_loop_quiet.
  - destruct (aborted fr); [apply after_loop_quiet |].
    assert (Hnext : downloads (effects (loop rest fr
                       (set_progress (progress (vars w) + 1) w)).2)
                    = downloads (effects w) /\
                    file (loop rest fr (set_progress (progress (vars w) + 1) w)).1
                    = file fr /\
                    suspended (pc (loop rest fr
                       (set_progress (progress (vars w) + 1) w)).1)).
    { destruct (IH (set_progress (progress (vars w) + 1) w)) as (H1 & H2 & H3).
      rewrite H1, downloads_set_progress. now repeat split. }
    destruct (skip_entry (extensionsToRemove fr) entry); [exact Hnext |].
    destruct (directory entry).
    { cbn [fst snd with_pc pc file suspended].
      rewrite downloads_set_progressText, downloads_set_progress. now repeat split. }
    destruct (getData entry); [| exact Hnext].
    cbn [fst snd with_pc pc file suspended].
    rewrite downloads_set_progressText, downloads_set_progress. now repeat split.
Qed.

Lemma file_settle (s : PromiseState) (fr : Frame) : file (settle s fr) = file fr.
Proof. unfold settle. now destruct (promise fr). Qed.

Lemma resume_one_download (w0 : World) (fr : Frame) (w : World) :
  one_download w0 (fr, w) -> one_download w0 (resume fr w).
Proof.
  intros (Hfiles & ds & Hds & Hnames & Hcase). cbn [fst snd] in *.
  split.
  { destruct (resume_same_package fr w) as (H & _). now rewrite H. }
  assert (Hloop : forall rest fr',
             file fr' = file fr ->
             ds = [] ->
             (exists f fs, files (vars w0) = Some (f :: fs) /\ file fr = Some f) ->
             exists ds',
               downloads (effects (loop rest fr' w).2)
               = (downloads (effects w0) ++ ds')%list /\
               (forall d, In d ds' ->
                  exists f fs, files (vars w0) = Some (f :: fs) /\ d.2 = name f) /\
               match pc (loop rest fr' w).1 with
               | Returned | Threw => (List.length ds' <= 1)%nat
               | AtStart => ds' = []
               | _ => ds' = [] /\
                      exists f fs, files (vars w0) = Some (f :: fs) /\
                                   file (loop rest fr' w).1 = Some f
               end).
  { intros rest fr' Hfile -> Hf.
    destruct (loop_quiet rest fr' w) as (H1 & H2 & H3).
    exists []. rewrite H1, Hds, H2, Hfile. split; [reflexivity |].
    split; [intros d [] |].
    destruct (pc (loop rest fr' w).1); try contradiction; now split. }
  unfold resume. destruct (pc fr) eqn:Hpc.
  - (* AtStart *)
    subst ds. unfold start.
    assert (Hf0 : files (vars (set_progress 0 w)) = files (vars w0)) by exact Hfiles.
    destruct (files (vars (set_progress 0 w))) as [[|f fs]|] eqn:Ef.
    1, 3: exists []; cbn [fst snd with_pc pc]; rewrite ?pc_settle;
      rewrite downloads_set_progress, Hds; cbn [pc];
      repeat split; [intros d [] | simpl; lia].
    destruct (ipa (vars (set_progress 0 w))) as [entries|].
    2: exists []; cbn [fst snd with_pc pc]; rewrite ?pc_settle;
      rewrite downloads_set_progress, Hds; cbn [pc];
      repeat split; [intros d [] | simpl; lia].
    destruct (every_kept (extensionsToKeep (vars (set_progress 0 w)))).
    + destruct (aborted fr).
      * exists []. cbn [fst snd with_pc pc].
        rewrite downloads_set_progress, Hds.
        repeat split; [intros d [] | simpl; lia].
      * exists [(OriginalFile f, name f)]. cbn [fst snd with_pc pc].
        unfold saveBlob, emit. cbn [effects]. rewrite downloads_app.
        rewrite downloads_set_progressText, downloads_set_progress,
          downloads_set_progressMax, downloads_set_progress, Hds.
        rewrite app_nil_r. split; [reflexivity |]. split; [| simpl; lia].
        intros d [<- | []]. exists f, fs. now split.
    + set (fr0 := mkFrame _ _ _ _ _ _). set (w1 := set_progressMax _ _).
      destruct (loop_quiet entries fr0 w1) as (H1 & H2 & H3).
      exists []. rewrite H1. unfold w1.
      rewrite downloads_set_progressMax, !downloads_set_progressText,
        downloads_set_progress, Hds.
      split; [reflexivity |]. split; [intros d [] |].
      assert (Hfile : file (loop entries fr0 w1).1 = Some f) by exact H2.
      fold w1.
      destruct (pc (loop entries fr0 w1).1); try contradiction;
        (split; [reflexivity | exists f, fs; split; [congruence | exact Hfile]]).
  - destruct Hcase as [Hnil Hf]. now apply Hloop.
  - destruct Hcase as [-> Hf].
    destruct (getData entry) as [[data|]|]; exists [];
      cbn [fst snd with_pc pc file]; rewrite Hds;
      (split; [reflexivity |]); (split; [intros d [] |]);
      first [ now split | simpl; lia ].
  - destruct Hcase as [Hnil Hf]. now apply Hloop.
  - destruct Hcase as [-> Hf]. cbn [aborted writer_close].
    destruct (aborted fr); exists [];
      cbn [fst snd with_pc pc file writer_close];
      rewrite ?downloads_set_progressText, Hds;
      (split; [reflexivity |]); (split; [intros d [] |]);
      first [ now split | simpl; lia ].
  - destruct Hcase as [-> (f & fs & Hf0 & Hfr)].
    exists [(Archive (written fr), file_name fr)].
    cbn [fst snd with_pc pc]. rewrite ?pc_settle. cbn [pc].
    rewrite downloads_set_progressText, downloads_set_progress.
    unfold saveBlob, emit. cbn [effects]. rewrite downloads_app, Hds.
    rewrite app_nil_r. split; [reflexivity |]. split; [| simpl; lia].
    intros d [<- | []]. exists f, fs. split; [exact Hf0 |].
    unfold file_name. now rewrite Hfr.
  - exists ds. cbn [fst snd]. rewrite Hpc. now repeat split.
  - exists ds. cbn [fst snd]. rewrite Hpc. now repeat split.
Qed.

Lemma on_abort_file (fr : Frame) (w : World) : file (on_abort fr w).1 = file fr.
Proof.
  unfold on_abort. destruct (aborted fr); [reflexivity |].
  cbn [fst]. now rewrite file_settle.
Qed.

Lemma on_abort_one_download (w0 : World) (fr : Frame) (w : World) :
  one_download w0 (fr, w) -> one_download w0 (on_abort fr w).
Proof.
  intros (Hfiles & ds & Hds & Hnames & Hcase). cbn [fst snd] in *. split.
  { destruct (on_abort_same_package fr w) as (H & _). now rewrite H. }
  exists ds. rewrite on_abort_downloads, on_abort_pc, on_abort_file.
  now repeat split.
Qed.

(** X5: whatever happens to a save, it starts at most one download, and only
    under the name of the first file of [files] as it was when [_saveIPA] was
    called (so none at all when no file was there). *)
Theorem at_most_one_download (w : World) (evs : list JobEvent) :
  exists ds,
    downloads (effects (job_run evs (new_frame, w)).2)
    = (downloads (effects w) ++ ds)%list /\
    (List.length ds <= 1)%nat /\
    forall blob download,
      In (blob, download) ds ->
      exists f fs, files (vars w) = Some (f :: fs) /\ download = name f.
Proof.
  assert (H : forall c, one_download w c -> one_download w (job_run evs c)).
  { induction evs as [|ev evs IH]; intros c Hc; [exact Hc |].
    rewrite job_run_cons. apply IH. destruct c as [fr w'].
    destruct ev; [now apply resume_one_download |].
    destruct (job_step_abort_cases fr w') as [E | E]; rewrite E;
      [exact Hc | now apply on_abort_one_download]. }
  assert (H0 : one_download w (new_frame, w)).
  { split; [reflexivity |]. exists []. cbn [fst snd new_frame pc].
    rewrite app_nil_r. repeat split. intros d []. }
  destruct (H _ H0) as (_ & ds & Hds & Hnames & Hcase).
  exists ds. split; [exact Hds |]. split.
  - destruct (pc (job_run evs (new_frame, w)).1);
      first [ exact Hcase
            | rewrite Hcase; simpl; lia
            | destruct Hcase as [Hnil _]; rewrite Hnil; simpl; lia ].
  - intros blob download Hin. destruct (Hnames _ Hin) as (f & fs & Hf & Hn).
    now exists f, fs.
Qed.

(** ** A signal after the last check *)

(** X6: when the abort signal fires after the check of line 179, while the
    executor waits for the blob of the finished archive, the promise is
    rejected with "Aborted" and yet the archive is saved when the blob
    arrives; [progress] and [progressMax] end at 0 and the text at "Done!". *)
Theorem abort_after_last_check_still_saves (fr : Frame) (w : World) :
  pc fr = AwaitBlob -> aborted fr = false -> promise fr = Pending ->
  let c := job_run [Abort; Resume] (fr, w) in
  promise c.1 = Rejected "Aborted" /\ pc c.1 = Returned /\
  downloads (effects c.2)
  = (downloads (effects w) ++ [(Archive (written fr), file_name fr)])%list /\
  progress (vars c.2) = 0 /\ progressMax (vars c.2) = 0 /\
  progressText (vars c.2) = "Done!".
Proof.
  intros Hpc Hab Hpr. cbv zeta. rewrite !job_run_cons.
  change (job_run [] ?x) with x. cbn [job_step fst snd].
  unfold on_abort. rewrite Hab. unfold settle at 1. cbn [promise]. rewrite Hpr.
  cbn [fst snd]. unfold resume. cbn [pc]. rewrite Hpc.
  cbn [fst snd with_pc pc promise settle]. unfold settle. cbn [promise pc].
  split; [reflexivity |]. split; [reflexivity |].
  split; [| now repeat split].
  rewrite downloads_set_progressText, downloads_set_progress.
  unfold saveBlob, emit. cbn [effects]. rewrite downloads_app.
  rewrite downloads_set_progressMax, downloads_set_progress.
  reflexivity.
Qed.

Lemma abort_after_last_check_still_saves_witness :
  let c5 := job_run (repeat Resume 5)
              (new_frame, mkWorld (loaded_with sample_file sample_catalog remove_ext) []) in
  let c := job_run [Abort; Resume] c5 in
  promise c.1 = Rejected "Aborted" /\
  downloads (effects c.2)
  = [(Archive [mkOut "Payload/App.app/" true None;
               mkOut "Payload/App.app/Info.plist" false (Some [])],
      "App.ipa")].
Proof.
  cbv zeta.
  set (c5 := job_run (repeat Resume 5)
               (new_frame, mkWorld (loaded_with sample_file sample_catalog remove_ext) [])).
  pose proof (abort_after_last_check_still_saves c5.1 c5.2 eq_refl eq_refl eq_refl)
    as (H1 & _ & H3 & _).
  replace c5 with (c5.1, c5.2) by now destruct c5.
  split; [exact H1 | exact H3].
Defined.

(** ** A read that fails during a save *)

(** The loop over [before ++ rest] works through [before] and arrives at the
    top of the iteration for [rest], when no abort is signalled and the reads
    of [before] are answered. *)
Lemma loop_reaches (before : list Entry) :
  forall (rest : list Entry) (fr : Frame) (w : World) (zw : ZipWriter),
    aborted fr = false ->
    zipWriter fr = Some zw ->
    (forall e, In e before -> getData e <> Some ReadError) ->
    exists (k : nat) (fr' : Frame) (w' : World),
      (k <= 2 * List.length before)%nat /\
      job_run (repeat Resume k) (loop (before ++ rest) fr w) = loop rest fr' w' /\
      aborted fr' = false /\ promise fr' = promise fr /\
      extensionsToRemove fr' = extensionsToRemove fr /\
      zipWriter fr' =
        Some (mkWriter
                (added zw ++
                 omap as_written
                   (List.filter
                      (fun e => negb (skip_entry (extensionsToRemove fr) e)) before))
                (closed zw)) /\
      downloads (effects w') = downloads (effects w).
Proof.
  induction before as [|entry before IH]; intros rest fr w zw Hab Hzw Hread.
  - exists 0%nat, fr, w. split; [simpl; lia |]. split; [reflexivity |].
    split; [exact Hab |]. split; [reflexivity |]. split; [reflexivity |].
    split; [| reflexivity]. simpl. rewrite app_nil_r, Hzw. now destruct zw.
  - assert (Hrest : forall e, In e before -> getData e <> Some ReadError)
      by (intros e He; apply Hread; now right).
    change ((entry :: before) ++ rest)%list with (entry :: (before ++ rest))%list.
    simpl loop. rewrite Hab. simpl List.filter.
    destruct (skip_entry (extensionsToRemove fr) entry) eqn:Hskip; simpl negb.
    { destruct (IH rest fr (set_progress (progress (vars w) + 1) w) zw Hab Hzw Hrest)
        as (k & fr' & w' & Hk & Hrun & Ha & Hp & He & Hz & Hd).
      exists k, fr', w'. split; [simpl; lia |]. split; [exact Hrun |].
      split; [exact Ha |]. split; [exact Hp |]. split; [exact He |].
      split; [exact Hz |]. now rewrite Hd, downloads_set_progress. }
    destruct (directory entry) eqn:Hdir.
    { set (o := mkOut (filename entry) true None).
      assert (Has : as_written entry = Some o)
        by (unfold as_written; now rewrite Hdir).
      rewrite (omap_cons_Some _ _ _ _ Has).
      set (w2 := set_progressText _ _).
      set (fr1 := writer_add o (with_pc (AwaitAddDirectory entry (before ++ rest)) fr)).
      assert (Hzw' : zipWriter fr1 = Some (mkWriter (added zw ++ [o]) (closed zw)))
        by (unfold fr1, writer_add; simpl; now rewrite Hzw).
      destruct (IH rest fr1 w2 _ Hab Hzw' Hrest)
        as (k & fr' & w' & Hk & Hrun & Ha & Hp & He & Hz & Hd).
      exists (S k), fr', w'. split; [simpl in *; lia |]. split.
      - simpl repeat.
        rewrite job_run_cons, job_step_resume, resume_add_directory.
        fold o. fold fr1. exact Hrun.
      - split; [exact Ha |]. split; [exact Hp |]. split; [exact He |]. split.
        + rewrite Hz. simpl. now rewrite <- app_assoc.
        + rewrite Hd. unfold w2.
          now rewrite downloads_set_progressText, downloads_set_progress. }
    destruct (getData entry) as [[data|]|] eqn:Hget.
    + set (o := mkOut (filename entry) false (Some data)).
      assert (Has : as_written entry = Some o)
        by (unfold as_written; now rewrite Hdir, Hget).
      rewrite (omap_cons_Some _ _ _ _ Has).
      set (w2 := set_progressText _ _).
      set (fr1 := writer_add o (with_pc (AwaitAddFile entry data (before ++ rest))
                                  (with_pc (AwaitGetData entry (before ++ rest)) fr))).
      assert (Hzw' : zipWriter fr1 = Some (mkWriter (added zw ++ [o]) (closed zw)))
        by (unfold fr1, writer_add; simpl; now rewrite Hzw).
      destruct (IH rest fr1 w2 _ Hab Hzw' Hrest)
        as (k & fr' & w' & Hk & Hrun & Ha & Hp & He & Hz & Hd).
      exists (S (S k)), fr', w'. split; [simpl in *; lia |]. split.
      * simpl repeat.
        rewrite job_run_cons, job_step_resume, (resume_get_data _ _ _ _ _ Hget).
        rewrite job_run_cons, job_step_resume, resume_add_file.
        fold o. fold fr1. exact Hrun.
      * split; [exact Ha |]. split; [exact Hp |]. split; [exact He |]. split.
        -- rewrite Hz. simpl. now rewrite <- app_assoc.
        -- rewrite Hd. unfold w2.
           now rewrite downloads_set_progressText, downloads_set_progress.
    + exfalso. apply (Hread entry); [now left | exact Hget].
    + assert (Has : as_written entry = None)
        by (unfold as_written; now rewrite Hdir, Hget).
      rewrite (omap_cons_None _ _ _ Has).
      destruct (IH rest fr (set_progress (progress (vars w) + 1) w) zw Hab Hzw Hrest)
        as (k & fr' & w' & Hk & Hrun & Ha & Hp & He & Hz & Hd).
      exists k, fr', w'. split; [simpl; lia |]. split; [exact Hrun |].
      split; [exact Ha |]. split; [exact Hp |]. split; [exact He |].
      split; [exact Hz |]. now rewrite Hd, downloads_set_progress.
Qed.

Lemma resumes_threw (n : nat) (fr : Frame) (w : World) :
  pc fr = Threw -> job_run (repeat Resume n) (fr, w) = (fr, w).
Proof.
  intros H. induction n as [|n IH]; [reflexivity |].
  simpl repeat. rewrite job_run_cons, job_step_resume.
  unfold resume. now rewrite H.
Qed.

(** X7: when the read of a file entry that is to be kept is rejected during a
    save, the executor stops there for good: the promise of [_saveIPA] is
    neither resolved nor rejected, nothing is downloaded, and the writer,
    holding the entries written before, is never closed. *)
Theorem failed_read_leaves_the_promise_pending
    (w : World) (f : File) (fs : list File)
    (before : list Entry) (entry : Entry) (after : list Entry) :
  let catalog := (before ++ entry :: after)%list in
  files (vars w) = Some (f :: fs) ->
  ipa (vars w) = Some catalog ->
  extensions (vars w) = discover catalog ->
  (forall ext, In ext (discover catalog) ->
               is_Some (extensionsToKeep (vars w) !! filename ext)) ->
  (exists ext, In ext (discover catalog) /\
               extensionsToKeep (vars w) !! filename ext = Some false) ->
  (forall e, In e before -> getData e <> Some ReadError) ->
  removed_by (extensionsToKeep (vars w)) (discover catalog) entry = false ->
  directory entry = false ->
  getData entry = Some ReadError ->
  forall n, (2 * List.length before + 2 <= n)%nat ->
  let c := job_run (repeat Resume n) (new_frame, w) in
  pc c.1 = Threw /\ promise c.1 = Pending /\
  downloads (effects c.2) = downloads (effects w) /\
  zipWriter c.1 =
    Some (mkWriter
            (omap as_written
               (List.filter
                  (fun e => negb (removed_by (extensionsToKeep (vars w))
                                    (discover catalog) e))
                  before))
            false).
Proof.
  intros catalog Hfiles Hipa Hexts Hcov (ext0 & _ & Hfalse) Hread Hkeep Hdir Hget n Hn.
  set (sel := extensionsToKeep (vars w)) in *.
  set (toRemove := List.map filename (List.filter (not_kept sel) (discover catalog))).
  set (fr0 := mkFrame AtStart false Pending (Some f) toRemove
                      (Some (mkWriter [] false))).
  set (w0 := set_progressMax (Number.round_times_1_1 (Z.of_nat (List.length catalog)))
               (set_progressText "Creating new IPA archive"
                  (set_progressText "Filtering extensions" (set_progress 0 w)))).
  assert (Hstart : resume new_frame w = loop catalog fr0 w0).
  { unfold resume. cbn [pc new_frame].
    rewrite (start_filtering new_frame w f fs catalog Hfiles Hipa
               (every_kept_false _ _ Hfalse)).
    simpl. rewrite Hexts. reflexivity. }
  assert (Hskip : forall e, skip_entry toRemove e = removed_by sel (discover catalog) e).
  { intros e. unfold toRemove. now apply skip_entry_removed_by. }
  destruct (loop_reaches before (entry :: after) fr0 w0 (mkWriter [] false)
              eq_refl eq_refl Hread)
    as (k & fr1 & w1 & Hk & Hloop & Ha & Hp & He & Hz & Hd).
  assert (Hhere : loop (entry :: after) fr1 w1
                  = (with_pc (AwaitGetData entry after) fr1,
                     set_progressText
                       ("Adding " ++
                        ellipsis (at_from_end 1 (split_slash (filename entry))) 30)
                       (set_progress (progress (vars w1) + 1) w1))).
  { simpl loop. rewrite Ha, He. cbn [fr0 extensionsToRemove].
    now rewrite Hskip, Hkeep, Hdir, Hget. }
  set (w2 := set_progressText
               ("Adding " ++
                ellipsis (at_from_end 1 (split_slash (filename entry))) 30)
               (set_progress (progress (vars w1) + 1) w1)) in *.
  assert (Hfinal : job_run (repeat Resume n) (new_frame, w)
                   = (with_pc Threw (with_pc (AwaitGetData entry after) fr1), w2)).
  { replace n with (1 + (k + (1 + (n - k - 2))))%nat by lia.
    rewrite repeat_app, job_run_app. change (repeat Resume 1) with [Resume].
    rewrite job_run_cons, job_step_resume, Hstart.
    change (job_run [] (loop catalog fr0 w0)) with (loop catalog fr0 w0).
    rewrite repeat_app, job_run_app. unfold catalog at 1. rewrite Hloop, Hhere.
    rewrite repeat_app, job_run_app. change (repeat Resume 1) with [Resume].
    rewrite job_run_cons, job_step_resume.
    unfold resume at 1. cbn [pc with_pc]. rewrite Hget.
    change (job_run [] ?x) with x.
    now rewrite resumes_threw by reflexivity. }
  cbv zeta. rewrite Hfinal. cbn [fst snd pc with_pc promise zipWriter].
  split; [reflexivity |]. split; [rewrite Hp; reflexivity |]. split.
  - unfold w2. rewrite downloads_set_progressText, downloads_set_progress, Hd.
    unfold w0.
    now rewrite downloads_set_progressMax, !downloads_set_progressText,
      downloads_set_progress.
  - rewrite Hz. cbn [added closed app fr0 extensionsToRemove]. do 3 f_equal.
    apply filter_ext_in. intros e _. now rewrite Hskip.
Qed.

Lemma failed_read_leaves_the_promise_pending_witness :
  let c := job_run (repeat Resume 7)
             (new_frame, mkWorld (loaded_with sample_file unreadable_entry remove_ext) []) in
  pc c.1 = Threw /\ promise c.1 = Pending /\ downloads (effects c.2) = [].
Proof.
  assert (Hcov : forall ext, In ext (discover unreadable_entry) ->
                   is_Some (remove_ext !! filename ext)).
  { intros ext [<- | []]. now exists false. }
  assert (Hsome : exists ext, In ext (discover unreadable_entry) /\
                    remove_ext !! filename ext = Some false).
  { exists (mkEntry "Payload/App.app/PlugIns/Ext.appex/" true None).
    split; [now left | reflexivity]. }
  assert (Hread : forall e,
             In e [mkEntry "Payload/App.app/" true None;
                   mkEntry "Payload/App.app/Info.plist" false (Some (ReadOk []))] ->
             getData e <> Some ReadError).
  { intros e [<- | [<- | []]]; discriminate. }
  destruct (failed_read_leaves_the_promise_pending
              (mkWorld (loaded_with sample_file unreadable_entry remove_ext) [])
              sample_file []
              [mkEntry "Payload/App.app/" true None;
               mkEntry "Payload/App.app/Info.plist" false (Some (ReadOk []))]
              (mkEntry "Payload/App.app/App" false (Some ReadError))
              [mkEntry "Payload/App.app/PlugIns/Ext.appex/" true None]
              eq_refl eq_refl eq_refl Hcov Hsome Hread eq_refl eq_refl eq_refl
              7%nat) as (H1 & H2 & H3 & _).
  - simpl. lia.
  - cbv zeta. split; [exact H1 |]. split; [exact H2 | exact H3].
Defined.

(** ** Clearing during a save *)

Lemma on_abort_settled (fr : Frame) (w : World) :
  (aborted fr = true -> promise fr <> Pending) ->
  aborted (on_abort fr w).1 = true /\ promise (on_abort fr w).1 <> Pending.
Proof.
  intros H. unfold on_abort. destruct (aborted fr) eqn:E; cbn [fst].
  - split; [exact E | now apply H].
  - rewrite aborted_settle. split; [reflexivity |].
    unfold settle. cbn [promise]. now destruct (promise fr).
Qed.

Lemma clearIPA_attempts (s : Sys) (i : nat) (fr : Frame) (wt : bool) :
  abortController (vars (world s)) = Some i ->
  attempts s !! i = Some (mkAttempt fr wt) ->
  attempts (clearIPA s)
  = <[i := mkAttempt (on_abort fr (world s)).1 wt]> (attempts s).
Proof.
  intros Hctl Hatt. unfold clearIPA. rewrite Hctl, Hatt.
  now destruct (on_abort fr (world s)).
Qed.

Lemma clearIPA_controller (s : Sys) :
  abortController (vars (world (clearIPA s))) = abortController (vars (world s)).
Proof.
  unfold clearIPA.
  destruct (abortController (vars (world s))) as [i|] eqn:Hctl;
    [| simpl; exact Hctl].
  destruct (attempts s !! i) as [[fr wt]|]; [| simpl; exact Hctl].
  destruct (on_abort_same_package fr (world s)) as (_ & H & _).
  destruct (on_abort fr (world s)) as [fr' w']. cbn [snd] in H. simpl.
  now rewrite H.
Qed.

Section Clearing.

Variable getEntries : File -> option (list Entry).
Variable parsePlist : Bytes -> option PlistValue.
Variable cgbiToPng : Bytes -> option Bytes.
Variable RegExp : string -> option regex.

Local Abbreviation step := (sys_step getEntries parsePlist cgbiToPng RegExp).
Local Abbreviation run := (sys_run getEntries parsePlist cgbiToPng RegExp).

Lemma step_signal_rejects (s : Sys) (ev : Event) :
  signal_rejects s -> signal_rejects (step s ev).
Proof.
  intros Hinv. destruct ev; cbn [sys_step].
  - unfold saveIPA. destruct (_ || _); [exact Hinv |]. unfold _saveIPA.
    destruct (resume_keeps_signal new_frame
                (on_vars (with_controller (Some (List.length (attempts s))) true)
                         (world s))) as [Hab _].
    destruct (resume new_frame _) as [fr w]. cbn [fst] in Hab.
    intros j att Hj Ha. cbn [attempts] in Hj.
    destruct (decide (j < List.length (attempts s))%nat) as [Hlt | Hge].
    + rewrite lookup_app_l in Hj by exact Hlt. now apply (Hinv j att).
    + rewrite lookup_app_r in Hj by lia.
      destruct (j - List.length (attempts s))%nat as [|d]; [| now destruct d].
      injection Hj as <-. cbn [frame] in Ha. rewrite Hab in Ha. discriminate.
  - destruct (abortController (vars (world s))) as [i|] eqn:Hctl.
    + destruct (attempts s !! i) as [[fr wt]|] eqn:Hatt.
      * intros j att Hj Ha. rewrite (clearIPA_attempts s i fr wt Hctl Hatt) in Hj.
        destruct (decide (i = j)) as [<- | Hne].
        -- rewrite list_lookup_insert_eq in Hj by (eapply lookup_lt_Some; exact Hatt).
           injection Hj as <-. cbn [frame].
           apply on_abort_settled. intros Hfr. now apply (Hinv i (mkAttempt fr wt)).
        -- rewrite list_lookup_insert_ne in Hj by exact Hne. now apply (Hinv j att).
      * intros j att Hj Ha. unfold clearIPA in Hj. rewrite Hctl, Hatt in Hj.
        now apply (Hinv j att).
    + intros j att Hj Ha. unfold clearIPA in Hj. rewrite Hctl in Hj.
      now apply (Hinv j att).
  - unfold drop. destruct (files (vars (world s))); exact Hinv.
  - exact Hinv.
  - unfold io_done. destruct (attempts s !! i) as [[fr wt]|] eqn:Hatt; [| exact Hinv].
    destruct (resume_keeps_signal fr (world s)) as [Hab Hpr].
    destruct (resume fr (world s)) as [fr' w']. cbn [fst] in Hab, Hpr.
    intros j att Hj Ha. cbn [attempts] in Hj.
    destruct (decide (i = j)) as [<- | Hne].
    + rewrite list_lookup_insert_eq in Hj by (eapply lookup_lt_Some; exact Hatt).
      injection Hj as <-. cbn [frame] in *. rewrite Hab in Ha.
      pose proof (Hinv i _ Hatt Ha) as Hp. cbn [frame] in Hp.
      now rewrite (Hpr Hp).
    + rewrite list_lookup_insert_ne in Hj by exact Hne. now apply (Hinv j att).
  - unfold saveIPA_finally.
    destruct (attempts s !! i) as [[fr [|]]|] eqn:Hatt; try exact Hinv.
    destruct (promise fr) eqn:Hp; [exact Hinv | |].
    all: intros j att Hj Ha; cbn [attempts] in Hj.
    all: destruct (decide (i = j)) as [<- | Hne];
      [ rewrite list_lookup_insert_eq in Hj by (eapply lookup_lt_Some; exact Hatt);
        injection Hj as <-; cbn [frame]; congruence
      | rewrite list_lookup_insert_ne in Hj by exact Hne; now apply (Hinv j att) ].
Qed.

Lemma run_signal_rejects (evs : list Event) (s : Sys) :
  signal_rejects s -> signal_rejects (run evs s).
Proof.
  revert s. induction evs as [|ev evs IH]; intros s Hinv; [exact Hinv |].
  simpl. apply IH, step_signal_rejects, Hinv.
Qed.

(** X8: a click on Back always releases the guard of [saveIPA].  In every
    state the component can reach, if a save is suspended at the [await] of
    [saveIPA], then after [clearIPA] its promise is settled and its signal has
    fired, so the [finally] of that save runs; after it [abortController] is
    [null], [saving] is [false] and no save is in flight. *)
Theorem clear_releases_the_guard (evs : list Event) (i : nat) (att : Attempt) :
  let s := run evs initial in
  attempts s !! i = Some att ->
  waiting att = true ->
  let s1 := step s ClickBack in
  let s2 := step s1 (Settled i) in
  (exists att1, attempts s1 !! i = Some att1 /\
                aborted (frame att1) = true /\ promise (frame att1) <> Pending) /\
  abortController (vars (world s2)) = None /\
  saving (vars (world s2)) = false /\
  ~ in_flight s2.
Proof.
  intros s Hatt Hw.
  assert (Hheld : controller_held s).
  { apply run_controller_held. intros j a Hj.
    unfold initial in Hj. cbn [attempts] in Hj. now rewrite lookup_nil in Hj. }
  assert (Hsig : signal_rejects s).
  { apply run_signal_rejects. intros j a Hj.
    unfold initial in Hj. cbn [attempts] in Hj. now rewrite lookup_nil in Hj. }
  pose proof (Hheld i att Hatt Hw) as Hctl.
  destruct att as [fr wt]. cbn [waiting] in Hw. subst wt.
  cbn [sys_step].
  pose proof (clearIPA_attempts s i fr true Hctl Hatt) as Hatts.
  destruct (on_abort_settled fr (world s)
              (fun H => Hsig i (mkAttempt fr true) Hatt H)) as [Hab Hpr].
  set (fr1 := (on_abort fr (world s)).1) in *.
  assert (Hi1 : attempts (clearIPA s) !! i = Some (mkAttempt fr1 true)).
  { rewrite Hatts. apply list_lookup_insert_eq. eapply lookup_lt_Some; exact Hatt. }
  cbv zeta. split.
  { exists (mkAttempt fr1 true). now repeat split. }
  unfold saveIPA_finally. rewrite Hi1.
  destruct (promise fr1) eqn:Hp1; [now contradiction Hpr | |].
  all: cbn [world vars on_vars with_controller abortController saving attempts].
  all: split; [reflexivity |]; split; [reflexivity |].
  all: intros (j & a & Hj & Hwj); cbn [attempts] in Hj.
  all: destruct (decide (i = j)) as [<- | Hne];
    [ rewrite list_lookup_insert_eq in Hj by (eapply lookup_lt_Some; exact Hi1);
      injection Hj as <-; discriminate
    | rewrite list_lookup_insert_ne in Hj by exact Hne;
      rewrite Hatts in Hj;
      rewrite list_lookup_insert_ne in Hj by exact Hne;
      pose proof (Hheld j a Hj Hwj); congruence ].
Qed.

End Clearing.

Lemma clear_releases_the_guard_witness :
  let s := sys_run (fun _ => Some sample_catalog) (fun _ => None) (fun _ => None)
                   (fun _ => None) sample_session initial in
  let s2 := sys_run (fun _ => Some sample_catalog) (fun _ => None) (fun _ => None)
                    (fun _ => None) [ClickBack; Settled 0%nat] s in
  abortController (vars (world s2)) = None /\ saving (vars (world s2)) = false.
Proof.
  cbv zeta.
  eassert (Hatt : attempts
                    (sys_run (fun _ => Some sample_catalog) (fun _ => None)
                             (fun _ => None) (fun _ => None) sample_session initial)
                  !! 0%nat = Some _) by (vm_compute; reflexivity).
  destruct (clear_releases_the_guard
              (fun _ => Some sample_catalog) (fun _ => None) (fun _ => None)
              (fun _ => None) sample_session 0%nat _ Hatt eq_refl)
    as (_ & H1 & H2 & _).
  split; [exact H1 | exact H2].
Defined.

(** ** The status text *)

Lemma length_append (a b : string) :
  String.length (a ++ b) = (String.length a + String.length b)%nat.
Proof.
  induction a as [|c a IH]; [reflexivity |].
  rewrite append_cons. simpl. now rewrite IH.
Qed.

Lemma substring_prefix (n : nat) (s : string) :
  (n <= String.length s)%nat ->
  exists rest, s = String.substring 0 n s ++ rest /\
               String.length (String.substring 0 n s) = n.
Proof.
  revert s. induction n as [|n IH]; intros s Hn.
  - exists s. destruct s; now split.
  - destruct s as [|c s]; [simpl in Hn; lia |].
    destruct (IH s) as (rest & Hs & Hl); [simpl in Hn; lia |].
    exists rest. simpl. rewrite append_cons. split; [now rewrite <- Hs | now rewrite Hl].
Qed.

(** X9: [ellipsis(text, max)] with [max] at least 3 (the calls use 15 and 30)
    never returns more than [max] characters: a text that fits is returned
    as it is, a longer one is cut to its first [max - 3] characters followed
    by three dots. *)
Theorem ellipsis_fits (text : string) (max : nat) :
  (3 <= max)%nat ->
  (String.length (ellipsis text max) <= max)%nat /\
  ((String.length text <= max)%nat -> ellipsis text max = text) /\
  ((max < String.length text)%nat ->
   exists kept rest,
     text = kept ++ rest /\ String.length kept = (max - 3)%nat /\
     ellipsis text max = kept ++ "...").
Proof.
  intros Hmax. unfold ellipsis.
  destruct (Nat.ltb_spec max (String.length text)) as [Hlong | Hfits].
  - destruct (substring_prefix (max - 3) text ltac:(lia)) as (rest & Hs & Hl).
    split; [rewrite length_append, Hl; simpl; lia |].
    split; [lia |].
    intros _. exists (String.substring 0 (max - 3) text), rest. now repeat split.
  - split; [exact Hfits |]. split; [reflexivity | lia].
Qed.

Lemma ellipsis_fits_witness :
  ellipsis "NotificationServiceExtension" 15 = "Notification...".
Proof.
  destruct (ellipsis_fits "NotificationServiceExtension" 15 ltac:(lia))
    as (_ & _ & H).
  destruct H as (kept & rest & Ht & Hl & ->); [simpl; lia |].
  f_equal.
  do 12 (destruct kept as [|? kept]; [discriminate Hl |];
         rewrite append_cons in Ht; injection Ht as <- Ht).
  destruct kept; [reflexivity | discriminate Hl].
Defined.

Lemma has_no_slash_cons (c : ascii) (s : string) :
  has_no_slash (String c s) -> c <> "/"%char /\ has_no_slash s.
Proof.
  intros H. split.
  - intros ->. apply (H "" s). reflexivity.
  - intros pre post ->. apply (H (String c pre) post). reflexivity.
Qed.

Lemma split_slash_cons_other (c : ascii) (s : string) :
  c <> "/"%char ->
  split_slash (String c s)
  = match split_slash s with
    | seg :: segs => String c seg :: segs
    | [] => [String c EmptyString]
    end.
Proof.
  intros Hc. simpl. destruct (Ascii.eqb_spec c "/"); [contradiction | reflexivity].
Qed.

(** A single segment is its own split. *)
Lemma split_slash_segment (s : string) :
  has_no_slash s -> split_slash s = [s].
Proof.
  induction s as [|c s IH]; intros H; [reflexivity |].
  apply has_no_slash_cons in H. destruct H as [Hc Hs].
  rewrite (split_slash_cons_other c s Hc), (IH Hs). reflexivity.
Qed.

Lemma split_slash_nonempty (s : string) : split_slash s <> [].
Proof.
  induction s as [|c s IH]; simpl; [discriminate |].
  destruct (Ascii.eqb c "/"); [discriminate |].
  destruct (split_slash s); discriminate.
Qed.

(** The segments before a slash, then the segments after it. *)
Lemma split_slash_app (a b : string) :
  split_slash (a ++ "/" ++ b) = (split_slash a ++ split_slash b)%list.
Proof.
  induction a as [|c a IH].
  - rewrite append_nil, append_cons, append_nil. simpl. reflexivity.
  - rewrite append_cons. simpl. destruct (Ascii.eqb c "/"); [now rewrite IH |].
    rewrite IH. pose proof (split_slash_nonempty a) as Hne.
    destruct (split_slash a); [contradiction | reflexivity].
Qed.

(** [s.split("/").join("/")] is [s]. *)
Lemma split_slash_concat (s : string) : String.concat "/" (split_slash s) = s.
Proof.
  induction s as [|c s IH]; [reflexivity |]. simpl.
  pose proof (split_slash_nonempty s) as Hne.
  destruct (Ascii.eqb_spec c "/") as [-> | Hc].
  - destruct (split_slash s) as [|seg segs]; [contradiction |].
    change (String.concat "/" ("" :: seg :: segs))
      with ("" ++ "/" ++ String.concat "/" (seg :: segs)).
    now rewrite IH.
  - destruct (split_slash s) as [|seg [|seg' segs]]; [contradiction | |].
    + simpl in *. now rewrite IH.
    + change (String.concat "/" (String c seg :: seg' :: segs))
        with (String c seg ++ "/" ++ String.concat "/" (seg' :: segs)).
      change (String.concat "/" (seg :: seg' :: segs))
        with (seg ++ "/" ++ String.concat "/" (seg' :: segs)) in IH.
      rewrite append_cons. now rewrite IH.
Qed.

Lemma at_from_end_last (segs : list string) (s : string) :
  at_from_end 1 (segs ++ [s]) = s.
Proof. unfold at_from_end. now rewrite rev_unit. Qed.

Lemma at_from_end_before_last (segs : list string) (s t : string) :
  at_from_end 2 (segs ++ [s; t]) = s.
Proof.
  unfold at_from_end.
  change (segs ++ [s; t])%list with (segs ++ ([s] ++ [t]))%list.
  now rewrite app_assoc, !rev_unit.
Qed.

(** X10: the name the status text shows.  For a file the segment taken,
    [split("/").at(-1)], is the part of the path after its last slash (the
    whole path when it has none); for a directory, whose path ends with a
    slash, the segment taken, [split("/").at(-2)], is the directory's own
    name; and joining the segments of any path with slashes gives the path
    back. *)
Theorem status_names_the_entry (parent name : string) :
  has_no_slash name ->
  at_from_end 1 (split_slash name) = name /\
  at_from_end 1 (split_slash (parent ++ "/" ++ name)) = name /\
  at_from_end 2 (split_slash (name ++ "/")) = name /\
  at_from_end 2 (split_slash (parent ++ "/" ++ name ++ "/")) = name /\
  String.concat "/" (split_slash (parent ++ "/" ++ name)) = parent ++ "/" ++ name.
Proof.
  intros Hname.
  assert (Hdir : split_slash (name ++ "/") = [name; ""]).
  { replace (name ++ "/") with (name ++ "/" ++ "") by reflexivity.
    rewrite split_slash_app, (split_slash_segment name Hname). reflexivity. }
  split; [| split; [| split; [| split]]].
  - rewrite (split_slash_segment name Hname). reflexivity.
  - rewrite split_slash_app, (split_slash_segment name Hname).
    apply at_from_end_last.
  - rewrite Hdir. reflexivity.
  - rewrite split_slash_app, Hdir. apply at_from_end_before_last.
  - apply split_slash_concat.
Qed.

Lemma status_names_the_entry_witness :
  at_from_end 2 (split_slash ("Payload/App.app/PlugIns" ++ "/" ++ "Ext.appex" ++ "/"))
  = "Ext.appex".
Proof.
  apply (status_names_the_entry "Payload/App.app/PlugIns" "Ext.appex").
  intros pre post H.
  do 9 (destruct pre as [|? pre]; [discriminate H |];
        rewrite append_cons in H; injection H as <- H).
  destruct pre; discriminate H.
Defined.

(** ** The patterns *)

Lemma append_empty_r (s : string) : s ++ "" = s.
Proof. induction s as [|c s IH]; [reflexivity |]. now rewrite append_cons, IH. Qed.

Lemma append_eq_empty (a b : string) : a ++ b = "" -> a = "" /\ b = "".
Proof.
  destruct a; rewrite ?append_nil, ?append_cons; [now intros -> | discriminate].
Qed.

Lemma append_eq_cons (a b : string) (c : ascii) (s : string) :
  a ++ b = String c s ->
  (a = "" /\ b = String c s) \/ exists a', a = String c a' /\ s = a' ++ b.
Proof.
  destruct a as [|x a]; rewrite ?append_nil, ?append_cons; [intros ->; now left |].
  intros [= -> <-]. right. now exists a.
Qed.

Lemma lang_Seq_inv (r1 r2 : regex) (s : string) :
  lang (Seq r1 r2) s -> exists s1 s2, s = s1 ++ s2 /\ lang r1 s1 /\ lang r2 s2.
Proof. inversion 1; subst. eauto. Qed.

Lemma lang_Alt_inv (r1 r2 : regex) (s : string) :
  lang (Alt r1 r2) s -> lang r1 s \/ lang r2 s.
Proof. inversion 1; subst; auto. Qed.

Lemma lang_Void_inv (s : string) : ~ lang Void s.
Proof. inversion 1. Qed.

Lemma lang_Eps_inv (s : string) : lang Eps s -> s = "".
Proof. now inversion 1. Qed.

(** A non-empty string of a repetition starts with a non-empty string of
    the repeated pattern. *)
Lemma lang_Star_cons_inv (r : regex) (c : ascii) (s : string) :
  lang (Star r) (String c s) ->
  exists s1 s2, s = s1 ++ s2 /\ lang r (String c s1) /\ lang (Star r) s2.
Proof.
  intros H. remember (Star r) as r' eqn:Er. remember (String c s) as t eqn:Et.
  induction H as [| | | | | | | | |r0 s1 s2 H1 _ H2 IH2]; try discriminate.
  injection Er as ->.
  destruct (append_eq_cons _ _ _ _ Et) as [[-> ->] | (a' & -> & ->)].
  - now apply IH2.
  - now exists a', s2.
Qed.

Lemma nullable_spec (r : regex) : nullable r = true <-> lang r "".
Proof.
  induction r as [| | | | | |r1 IH1 r2 IH2|r1 IH1 r2 IH2|r IH]; simpl.
  - split; [discriminate | intros H; now apply lang_Void_inv in H].
  - split; [constructor | reflexivity].
  - split; [discriminate | inversion 1].
  - split; [discriminate | inversion 1].
  - split; [discriminate | inversion 1].
  - split; [discriminate | inversion 1].
  - rewrite andb_true_iff, IH1, IH2. split.
    + intros [H1 H2]. exact (lang_Seq r1 r2 "" "" H1 H2).
    + intros H. apply lang_Seq_inv in H. destruct H as (s1 & s2 & E & H1 & H2).
      symmetry in E. apply append_eq_empty in E. destruct E as [-> ->]. now split.
  - rewrite orb_true_iff, IH1, IH2. split.
    + intros [H | H]; [now apply lang_Alt_l | now apply lang_Alt_r].
    + apply lang_Alt_inv.
  - split; [constructor | reflexivity].
Qed.

Lemma deriv_spec (c : ascii) (r : regex) (s : string) :
  lang (deriv c r) s <-> lang r (String c s).
Proof.
  revert s.
  induction r as [| | d | | | |r1 IH1 r2 IH2|r1 IH1 r2 IH2|r IH]; intros s; simpl.
  - split; inversion 1.
  - split; inversion 1.
  - destruct (Ascii.eqb_spec c d) as [-> | Hcd].
    + split; [intros H; apply lang_Eps_inv in H; subst; constructor |].
      inversion 1; subst. constructor.
    + split; [inversion 1 | inversion 1; subst; contradiction].
  - destruct (Ascii.eqb_spec c "/") as [-> | Hc].
    + split; [inversion 1 | inversion 1; subst; contradiction].
    + split; [intros H; apply lang_Eps_inv in H; subst; now constructor |].
      inversion 1; subst. constructor.
  - destruct (is_digit c) eqn:Hd.
    + split; [intros H; apply lang_Eps_inv in H; subst; now constructor |].
      inversion 1; subst. constructor.
    + split; [inversion 1 | inversion 1; subst; congruence].
  - split; [intros H; apply lang_Eps_inv in H; subst; constructor |].
    inversion 1; subst. constructor.
  - assert (Hhead : forall t, lang (Seq (deriv c r1) r2) t ->
                              lang (Seq r1 r2) (String c t)).
    { intros t H. apply lang_Seq_inv in H. destruct H as (s1 & s2 & -> & H1 & H2).
      rewrite <- append_cons. apply lang_Seq; [now apply IH1 | exact H2]. }
    assert (Hinv : lang (Seq r1 r2) (String c s) ->
                   lang (Seq (deriv c r1) r2) s \/
                   (lang r1 "" /\ lang (deriv c r2) s)).
    { intros H. apply lang_Seq_inv in H. destruct H as (s1 & s2 & E & H1 & H2).
      symmetry in E.
      destruct (append_eq_cons _ _ _ _ E) as [[-> ->] | (a' & -> & ->)].
      - right. split; [exact H1 | now apply IH2].
      - left. apply lang_Seq; [now apply IH1 | exact H2]. }
    destruct (nullable r1) eqn:Hn.
    + split.
      * intros H. apply lang_Alt_inv in H. destruct H as [H | H]; [now apply Hhead |].
        rewrite <- (append_nil (String c s)).
        apply lang_Seq; [now apply nullable_spec | now apply IH2].
      * intros H. destruct (Hinv H) as [H' | [_ H']];
          [now apply lang_Alt_l | now apply lang_Alt_r].
    + split; [apply Hhead |].
      intros H. destruct (Hinv H) as [H' | [H' _]]; [exact H' |].
      apply nullable_spec in H'. congruence.
  - split.
    + intros H. apply lang_Alt_inv in H.
      destruct H as [H | H]; [apply lang_Alt_l, IH1 | apply lang_Alt_r, IH2]; exact H.
    + intros H. apply lang_Alt_inv in H.
      destruct H as [H | H]; [apply lang_Alt_l, IH1 | apply lang_Alt_r, IH2]; exact H.
  - split.
    + intros H. apply lang_Seq_inv in H. destruct H as (s1 & s2 & -> & H1 & H2).
      rewrite <- append_cons. apply lang_Star_cons; [now apply IH | exact H2].
    + intros H. apply lang_Star_cons_inv in H.
      destruct H as (s1 & s2 & -> & H1 & H2).
      apply lang_Seq; [now apply IH | exact H2].
Qed.

Lemma lang_Seq_Void_l (r : regex) (s : string) : ~ lang (Seq Void r) s.
Proof. intros H. apply lang_Seq_inv in H. destruct H as (? & ? & _ & H & _). inversion H. Qed.

Lemma lang_Seq_Void_r (r : regex) (s : string) : ~ lang (Seq r Void) s.
Proof. intros H. apply lang_Seq_inv in H. destruct H as (? & ? & _ & _ & H). inversion H. Qed.

Lemma lang_Seq_Eps_l (r : regex) (s : string) : lang (Seq Eps r) s <-> lang r s.
Proof.
  split.
  - intros H. apply lang_Seq_inv in H. destruct H as (s1 & s2 & -> & H1 & H2).
    apply lang_Eps_inv in H1. now subst.
  - intros H. rewrite <- (append_nil s). apply lang_Seq; [constructor | exact H].
Qed.

Lemma lang_Seq_iff (r1 r2 r1' r2' : regex) :
  (forall s, lang r1' s <-> lang r1 s) ->
  (forall s, lang r2' s <-> lang r2 s) ->
  forall s, lang (Seq r1' r2') s <-> lang (Seq r1 r2) s.
Proof.
  intros H1 H2 s. split; intros H; apply lang_Seq_inv in H;
    destruct H as (s1 & s2 & -> & Ha & Hb); apply lang_Seq;
    first [now apply H1 | now apply H2].
Qed.

Lemma lang_Alt_iff (r1 r2 r1' r2' : regex) :
  (forall s, lang r1' s <-> lang r1 s) ->
  (forall s, lang r2' s <-> lang r2 s) ->
  forall s, lang (Alt r1' r2') s <-> lang (Alt r1 r2) s.
Proof.
  intros H1 H2 s. split; intros H; apply lang_Alt_inv in H;
    destruct H as [H | H];
    first [apply lang_Alt_l; now apply H1 | apply lang_Alt_r; now apply H2].
Qed.

(** Pruning keeps the language. *)
Lemma prune_spec (r : regex) (s : string) : lang (prune r) s <-> lang r s.
Proof.
  revert s.
  induction r as [| | | | | |r1 IH1 r2 IH2|r1 IH1 r2 IH2|r IH]; intros s;
    try reflexivity.
  - rewrite <- (lang_Seq_iff r1 r2 (prune r1) (prune r2) IH1 IH2 s).
    simpl.
    destruct (prune r1) eqn:E1.
    1: { split; [inversion 1 | intros H; now apply lang_Seq_Void_l in H]. }
    1: { destruct (prune r2) eqn:E2; symmetry; apply lang_Seq_Eps_l. }
    all: destruct (prune r2) eqn:E2; try reflexivity;
      split; [inversion 1 | intros H; now apply lang_Seq_Void_r in H].
  - rewrite <- (lang_Alt_iff r1 r2 (prune r1) (prune r2) IH1 IH2 s).
    simpl.
    assert (Hl : forall r, lang r s <-> lang (Alt Void r) s).
    { intros r. split; [apply lang_Alt_r |].
      intros H. apply lang_Alt_inv in H. destruct H as [H | H]; [inversion H | exact H]. }
    assert (Hr : forall r, lang r s <-> lang (Alt r Void) s).
    { intros r. split; [apply lang_Alt_l |].
      intros H. apply lang_Alt_inv in H. destruct H as [H | H]; [exact H | inversion H]. }
    destruct (prune r1) eqn:E1; [apply Hl | ..];
      destruct (prune r2) eqn:E2; try reflexivity; apply Hr.
Qed.

(** The matcher decides the language. *)
Lemma matches_spec (r : regex) (s : string) : matches r s = true <-> lang r s.
Proof.
  revert r. induction s as [|c s IH]; intros r; simpl.
  - apply nullable_spec.
  - now rewrite IH, prune_spec, deriv_spec.
Qed.

Lemma lang_Star_AnyChar (s : string) : lang (Star AnyChar) s.
Proof.
  induction s as [|c s IH]; [constructor |].
  change (String c s) with (String c "" ++ s).
  apply lang_Star_cons; [constructor | exact IH].
Qed.

(** [test] looks for the pattern anywhere in the string. *)
Lemma test_spec (r : regex) (s : string) : test r s = true <-> occurs_in r s.
Proof.
  unfold test, occurs_in. rewrite matches_spec. split.
  - intros H. apply lang_Seq_inv in H. destruct H as (pre & rest & -> & _ & H).
    apply lang_Seq_inv in H. destruct H as (mid & post & -> & H & _).
    now exists pre, mid, post.
  - intros (pre & mid & post & -> & H).
    apply lang_Seq; [apply lang_Star_AnyChar |].
    apply lang_Seq; [exact H | apply lang_Star_AnyChar].
Qed.

Lemma lang_Lit (t s : string) : lang (Lit t) s <-> s = t.
Proof.
  revert s. induction t as [|c t IH]; intros s; simpl.
  - split; [apply lang_Eps_inv | intros ->; constructor].
  - split.
    + intros H. apply lang_Seq_inv in H. destruct H as (s1 & s2 & -> & H1 & H2).
      inversion H1; subst. apply IH in H2. now subst.
    + intros ->. change (String c t) with (String c "" ++ t).
      apply lang_Seq; [constructor | now apply IH].
Qed.

Lemma has_no_slash_intro (c : ascii) (s : string) :
  c <> "/"%char -> has_no_slash s -> has_no_slash (String c s).
Proof.
  intros Hc Hs pre post E. destruct pre as [|x pre].
  - rewrite append_nil, append_cons in E. injection E as -> _. contradiction.
  - rewrite append_cons in E. injection E as _ E. now apply (Hs pre post).
Qed.

Lemma has_no_slash_empty : has_no_slash "".
Proof. intros pre post E. destruct pre; rewrite ?append_nil, ?append_cons in E; discriminate. Qed.

Lemma lang_Star_NotSlash (s : string) :
  lang (Star NotSlash) s <-> has_no_slash s.
Proof.
  induction s as [|c s IH].
  - split; [intros _; apply has_no_slash_empty | constructor].
  - split.
    + intros H. apply lang_Star_cons_inv in H.
      destruct H as (s1 & s2 & -> & H1 & H2).
      inversion H1; subst. rewrite append_nil in *.
      apply has_no_slash_intro; [assumption | now apply IH].
    + intros H. apply has_no_slash_cons in H. destruct H as [Hc Hs].
      change (String c s) with (String c "" ++ s).
      apply lang_Star_cons; [now constructor | now apply IH].
Qed.

(** [[^/]+]: a segment, one character at least and no slash. *)
Lemma lang_segment (s : string) :
  lang (Plus NotSlash) s <-> s <> "" /\ has_no_slash s.
Proof.
  unfold Plus. split.
  - intros H. apply lang_Seq_inv in H. destruct H as (s1 & s2 & -> & H1 & H2).
    inversion H1; subst. rewrite append_cons, append_nil.
    split; [discriminate |].
    apply has_no_slash_intro; [assumption | now apply lang_Star_NotSlash].
  - intros [Hne Hs]. destruct s as [|c s]; [contradiction |].
    apply has_no_slash_cons in Hs. destruct Hs as [Hc Hs].
    change (String c s) with (String c "" ++ s).
    apply lang_Seq; [now constructor | now apply lang_Star_NotSlash].
Qed.

Lemma lang_Seq_Lit_l (t : string) (r : regex) (s : string) :
  lang (Seq (Lit t) r) s <-> exists rest, s = t ++ rest /\ lang r rest.
Proof.
  split.
  - intros H. apply lang_Seq_inv in H. destruct H as (s1 & s2 & -> & H1 & H2).
    apply lang_Lit in H1. subst. now exists s2.
  - intros (rest & -> & H). apply lang_Seq; [now apply lang_Lit | exact H].
Qed.

Lemma lang_Seq_segment_l (r : regex) (s : string) :
  lang (Seq (Plus NotSlash) r) s <->
  exists seg rest, seg <> "" /\ has_no_slash seg /\ s = seg ++ rest /\ lang r rest.
Proof.
  split.
  - intros H. apply lang_Seq_inv in H. destruct H as (s1 & s2 & -> & H1 & H2).
    apply lang_segment in H1. destruct H1 as [Hne Hs]. now exists s1, s2.
  - intros (seg & rest & Hne & Hs & -> & H).
    apply lang_Seq; [now apply lang_segment | exact H].
Qed.

(** X11: the pattern by which [getMetadata] picks the descriptor.  It is
    found in a path exactly when the path contains, anywhere,
    [Payload/<app>.app/Info.plist] with [<app>] one non-empty segment: the
    optional leading [/] or [:/] of the pattern changes nothing, and neither
    the start nor the end of the path is fixed. *)
Theorem metadata_pattern (path : string) :
  test metadataRegex path = true <->
  exists pre app post,
    app <> "" /\ has_no_slash app /\
    path = pre ++ "Payload/" ++ app ++ ".app/Info.plist" ++ post.
Proof.
  rewrite test_spec. unfold occurs_in, metadataRegex. split.
  - intros (pre & mid & post & -> & H).
    apply lang_Seq_inv in H. destruct H as (s1 & s2 & -> & H1 & H2).
    apply lang_Lit in H2. subst s2.
    apply lang_Seq_inv in H1. destruct H1 as (lead & core & -> & _ & H1).
    apply lang_Seq_Lit_l in H1. destruct H1 as (rest & -> & H1).
    apply lang_Seq_segment_l in H1.
    destruct H1 as (app & rest' & Hne & Hs & -> & H1).
    apply lang_Lit in H1. subst rest'.
    exists (pre ++ lead), app, post. split; [exact Hne |]. split; [exact Hs |].
    rewrite !append_assoc. reflexivity.
  - intros (pre & app & post & Hne & Hs & ->).
    exists pre, ("Payload/" ++ app ++ ".app/Info.plist"), post.
    split; [now rewrite !append_assoc |].
    replace ("Payload/" ++ app ++ ".app/Info.plist")
      with (("" ++ "Payload/" ++ app ++ ".app/") ++ "Info.plist")
      by (rewrite append_nil, !append_assoc; reflexivity).
    apply lang_Seq; [| now apply lang_Lit].
    apply lang_Seq; [apply lang_Alt_l; constructor |].
    apply lang_Seq_Lit_l. exists (app ++ ".app/"). split; [reflexivity |].
    apply lang_Seq_segment_l. exists app, ".app/".
    repeat split; [exact Hne | exact Hs | now apply lang_Lit].
Qed.

(** The pattern of [getExtensionName] is found in a path exactly when the
    path contains a directory of an application's [PlugIns] folder. *)
Lemma extension_occurrence (path : string) :
  test extensionRegex path = true <->
  exists pre app name post,
    app <> "" /\ name <> "" /\ has_no_slash app /\ has_no_slash name /\
    path = pre ++ "Payload/" ++ app ++ ".app/PlugIns/" ++ name ++ ".appex/" ++ post.
Proof.
  rewrite test_spec. unfold occurs_in, extensionRegex. split.
  - intros (pre & mid & post & -> & H).
    apply lang_Seq_Lit_l in H. destruct H as (r1 & -> & H).
    apply lang_Seq_segment_l in H. destruct H as (app & r2 & Hne & Hs & -> & H).
    apply lang_Seq_Lit_l in H. destruct H as (r3 & -> & H).
    apply lang_Seq_inv in H. destruct H as (s1 & s2 & -> & H1 & H2).
    inversion H2; subst.
    apply lang_Seq_segment_l in H1. destruct H1 as (name & r4 & Hne' & Hs' & -> & H1).
    apply lang_Lit in H1. subst r4.
    exists pre, app, name, post. repeat split; try assumption.
    rewrite !append_assoc. reflexivity.
  - intros (pre & app & name & post & Hne & Hne' & Hs & Hs' & ->).
    exists pre, ("Payload/" ++ app ++ ".app/PlugIns/" ++ name ++ ".appex/"), post.
    split; [now rewrite !append_assoc |].
    apply lang_Seq_Lit_l. eexists. split; [reflexivity |].
    apply lang_Seq_segment_l. exists app. eexists.
    split; [exact Hne |]. split; [exact Hs |]. split; [reflexivity |].
    apply lang_Seq_Lit_l. eexists. split; [reflexivity |].
    replace (name ++ ".appex/") with ((name ++ ".appex") ++ "/")
      by (rewrite append_assoc; reflexivity).
    apply lang_Seq; [| constructor].
    apply lang_Seq_segment_l. exists name, ".appex".
    repeat split; [exact Hne' | exact Hs' | now apply lang_Lit].
Qed.

(** X12: the pattern of [getExtensionName].  It is found in a path exactly
    when the path contains, anywhere,
    [Payload/<app>.app/PlugIns/<name>.appex/] with [<app>] and [<name>] one
    non-empty segment each; every path of the sub-component convention
    therefore has it. *)
Theorem extension_pattern (path : string) :
  (test extensionRegex path = true <->
   exists pre app name post,
     app <> "" /\ name <> "" /\ has_no_slash app /\ has_no_slash name /\
     path = pre ++ "Payload/" ++ app ++ ".app/PlugIns/" ++ name ++ ".appex/" ++ post) /\
  (conventional_extension_path path -> test extensionRegex path = true).
Proof.
  split; [apply extension_occurrence |].
  intros (app & ext & Hne & Hne' & Hs & Hs' & ->). apply extension_occurrence.
  exists "", app, ext, "". repeat split; assumption.
Qed.

(** ** The label of an extension *)

Import Backtrack.

Lemma repeat_matcher_sound {A : Type}
    (m : string -> (string -> option A) -> option A) (r : regex) :
  (forall s k v, m s k = Some v ->
     exists s1 s2, s = s1 ++ s2 /\ lang r s1 /\ k s2 = Some v) ->
  forall rounds s k v, repeat_matcher m rounds s k = Some v ->
    exists s1 s2, s = s1 ++ s2 /\ lang (Star r) s1 /\ k s2 = Some v.
Proof.
  intros Hm. induction rounds as [|n IH]; intros s k v H; simpl in H.
  - exists "", s. repeat split; [constructor | exact H].
  - destruct (m s _) as [v0|] eqn:E.
    + injection H as ->. apply Hm in E. destruct E as (s1 & s2 & -> & H1 & H2).
      destruct (String.length s2 <? _)%nat; [| discriminate].
      apply IH in H2. destruct H2 as (t1 & t2 & -> & H2 & H3).
      exists (s1 ++ t1), t2. rewrite append_assoc.
      repeat split; [now apply lang_Star_cons | exact H3].
    + exists "", s. repeat split; [constructor | exact H].
Qed.

Lemma repeat_matcher_complete {A : Type}
    (m : string -> (string -> option A) -> option A) (r : regex) :
  (forall s1 s2 k, lang r s1 -> (exists v, k s2 = Some v) ->
     exists v, m (s1 ++ s2) k = Some v) ->
  forall rounds s1 s2 k,
    lang (Star r) s1 -> (String.length (s1 ++ s2) <= rounds)%nat ->
    (exists v, k s2 = Some v) ->
    exists v, repeat_matcher m rounds (s1 ++ s2) k = Some v.
Proof.
  intros Hm. induction rounds as [|n IH]; intros s1 s2 k Hs Hlen [v Hk].
  - rewrite length_append in Hlen. destruct s1; [| simpl in Hlen; lia].
    rewrite append_nil. simpl. eauto.
  - destruct s1 as [|c t].
    + rewrite append_nil. simpl. destruct (m s2 _); eauto.
    + apply lang_Star_cons_inv in Hs. destruct Hs as (a & b & -> & Ha & Hb).
      assert (Es : String c (a ++ b) ++ s2 = String c a ++ (b ++ s2))
        by now rewrite !append_cons, append_assoc.
      rewrite Es in *. cbn [repeat_matcher].
      assert (Hlt : (String.length (b ++ s2)
                     < String.length (String c a ++ b ++ s2))%nat).
      { rewrite (length_append (String c a)). simpl. lia. }
      destruct (Hm (String c a) (b ++ s2)
                  (fun s' =>
                     if (String.length s' <? String.length (String c a ++ b ++ s2))%nat
                     then repeat_matcher m n s' k else None) Ha) as [v' Hv'].
      * apply Nat.ltb_lt in Hlt. rewrite Hlt.
        apply IH; [exact Hb | | eauto].
        apply Nat.ltb_lt in Hlt. lia.
      * rewrite Hv'. eauto.
Qed.

(** What the matcher finds is in the language of the pattern. *)
Lemma run_sound {A : Type} (r : regex) (s : string) (k : string -> option A) (v : A) :
  run r s k = Some v ->
  exists s1 s2, s = s1 ++ s2 /\ lang r s1 /\ k s2 = Some v.
Proof.
  revert s k v.
  induction r as [| | c | | | |r1 IH1 r2 IH2|r1 IH1 r2 IH2|r IH]; intros s k v H;
    simpl in H.
  - discriminate.
  - exists "", s. repeat split; [constructor | exact H].
  - destruct s as [|d s]; [discriminate |].
    destruct (Ascii.eqb_spec d c) as [-> |]; [| discriminate].
    exists (String c ""), s. repeat split; [constructor | exact H].
  - destruct s as [|d s]; [discriminate |].
    destruct (Ascii.eqb_spec d "/") as [|Hd]; [discriminate |].
    exists (String d ""), s. repeat split; [now constructor | exact H].
  - destruct s as [|d s]; [discriminate |].
    destruct (is_digit d) eqn:Hd; [| discriminate].
    exists (String d ""), s. repeat split; [now constructor | exact H].
  - destruct s as [|d s]; [discriminate |].
    exists (String d ""), s. repeat split; [constructor | exact H].
  - apply IH1 in H. destruct H as (s1 & s2 & -> & H1 & H).
    apply IH2 in H. destruct H as (t1 & t2 & -> & H2 & H).
    exists (s1 ++ t1), t2. rewrite append_assoc.
    repeat split; [now apply lang_Seq | exact H].
  - destruct (run r1 s k) as [v0|] eqn:E.
    + injection H as ->. apply IH1 in E. destruct E as (s1 & s2 & -> & H1 & H).
      exists s1, s2. repeat split; [now apply lang_Alt_l | exact H].
    + apply IH2 in H. destruct H as (s1 & s2 & -> & H1 & H).
      exists s1, s2. repeat split; [now apply lang_Alt_r | exact H].
  - exact (repeat_matcher_sound (run r) r IH _ s k v H).
Qed.

(** Where the pattern matches and the continuation accepts what is left, the
    matcher finds a match. *)
Lemma run_complete {A : Type} (r : regex) (s1 s2 : string) (k : string -> option A) :
  lang r s1 -> (exists v, k s2 = Some v) ->
  exists v, run r (s1 ++ s2) k = Some v.
Proof.
  revert s1 s2 k.
  induction r as [| | c | | | |r1 IH1 r2 IH2|r1 IH1 r2 IH2|r IH];
    intros s1 s2 k Hs Hk.
  - inversion Hs.
  - apply lang_Eps_inv in Hs. subst. exact Hk.
  - inversion Hs; subst. rewrite append_cons, append_nil. simpl.
    now rewrite Ascii.eqb_refl.
  - inversion Hs; subst. rewrite append_cons, append_nil. simpl.
    destruct (Ascii.eqb_spec c "/"); [contradiction | exact Hk].
  - inversion Hs as [| | |c Hd| | | | | |]; subst.
    rewrite append_cons, append_nil. simpl. now rewrite Hd.
  - inversion Hs; subst. rewrite append_cons, append_nil. exact Hk.
  - apply lang_Seq_inv in Hs. destruct Hs as (a & b & -> & Ha & Hb).
    rewrite append_assoc. simpl. apply IH1; [exact Ha |]. now apply IH2.
  - simpl. apply lang_Alt_inv in Hs. destruct Hs as [Hs | Hs].
    + destruct (IH1 s1 s2 k Hs Hk) as [v ->]. eauto.
    + destruct (run r1 (s1 ++ s2) k); [eauto |]. now apply IH2.
  - simpl. apply (repeat_matcher_complete (run r) r); [exact IH | exact Hs | lia | exact Hk].
Qed.

Lemma substring_append (a b : string) :
  String.substring 0 (String.length (a ++ b) - String.length b) (a ++ b) = a.
Proof.
  rewrite length_append. replace (_ + _ - _)%nat with (String.length a) by lia.
  induction a as [|c a IH]; [destruct b; reflexivity |].
  rewrite append_cons. simpl. now rewrite IH.
Qed.

Lemma has_no_slash_append (a b : string) :
  has_no_slash a -> has_no_slash b -> has_no_slash (a ++ b).
Proof.
  induction a as [|c a IH]; intros Ha Hb; [exact Hb |].
  apply has_no_slash_cons in Ha. destruct Ha as [Hc Ha].
  rewrite append_cons. apply has_no_slash_intro; [exact Hc | now apply IH].
Qed.

(** A path has one first segment. *)
Lemma first_segment_unique (a a' x x' : string) :
  has_no_slash a -> has_no_slash a' ->
  a ++ String "/" x = a' ++ String "/" x' -> a = a' /\ x = x'.
Proof.
  revert a'. induction a as [|c a IH]; intros a' Ha Ha' E.
  - destruct a' as [|c' a']; rewrite ?append_nil, ?append_cons in E.
    + injection E as ->. now split.
    + injection E as <- _. apply has_no_slash_cons in Ha'. now destruct Ha'.
  - apply has_no_slash_cons in Ha. destruct Ha as [Hc Ha].
    destruct a' as [|c' a']; rewrite ?append_nil, ?append_cons in E.
    + injection E as -> _. contradiction.
    + injection E as -> E. apply has_no_slash_cons in Ha'. destruct Ha' as [_ Ha'].
      destruct (IH a' Ha Ha' E) as [-> ->]. now split.
Qed.

Lemma append_cancel_l (p x y : string) : p ++ x = p ++ y -> x = y.
Proof.
  induction p as [|c p IH]; [now rewrite !append_nil |].
  rewrite !append_cons. intros [= E]. now apply IH.
Qed.

Lemma append_cancel_r (a a' c : string) : a ++ c = a' ++ c -> a = a'.
Proof.
  intros E.
  assert (Hlen : String.length a = String.length a').
  { apply (f_equal String.length) in E. rewrite !length_append in E. lia. }
  revert a' E Hlen. induction a as [|x a IH]; intros [|x' a'] E Hlen;
    try discriminate Hlen; [reflexivity |].
  rewrite !append_cons in E. injection E as -> E. injection Hlen as Hlen.
  now rewrite (IH a' E Hlen).
Qed.

Lemma has_no_slash_literal_app : has_no_slash ".app".
Proof.
  repeat (apply has_no_slash_intro; [discriminate |]). apply has_no_slash_empty.
Qed.

Lemma has_no_slash_literal_appex : has_no_slash ".appex".
Proof.
  repeat (apply has_no_slash_intro; [discriminate |]). apply has_no_slash_empty.
Qed.

(** An attempt that succeeds has read [Payload/<app>.app/PlugIns/<name>.appex/]
    and captured [<name>]. *)
Lemma exec_at_extension_sound (s : string) (cap : option string) :
  exec_at extensionRegex_groups s = Some cap ->
  exists app name post,
    app <> "" /\ name <> "" /\ has_no_slash app /\ has_no_slash name /\
    s = "Payload/" ++ app ++ ".app/PlugIns/" ++ name ++ ".appex/" ++ post /\
    cap = Some name.
Proof.
  unfold exec_at, extensionRegex_groups. cbn [grun]. intros H.
  apply run_sound in H. destruct H as (l1 & s1 & -> & H1 & H). apply lang_Lit in H1.
  apply run_sound in H. destruct H as (app & s2 & -> & H2 & H). apply lang_segment in H2.
  apply run_sound in H. destruct H as (l3 & s3 & -> & H3 & H). apply lang_Lit in H3.
  apply run_sound in H. destruct H as (name & s4 & E4 & H4 & H). apply lang_segment in H4.
  apply run_sound in H. destruct H as (l5 & s5 & -> & H5 & H). apply lang_Lit in H5.
  apply run_sound in H. destruct H as (l6 & s6 & -> & H6 & H). inversion H6; subst.
  injection H as <-. rewrite substring_append.
  destruct H2 as [Hne Hs], H4 as [Hne' Hs'].
  exists app, name, s6. repeat split; assumption.
Qed.

Lemma exec_at_extension_complete (app name post : string) :
  app <> "" -> name <> "" -> has_no_slash app -> has_no_slash name ->
  exists cap,
    exec_at extensionRegex_groups
      ("Payload/" ++ app ++ ".app/PlugIns/" ++ name ++ ".appex/" ++ post)
    = Some cap.
Proof.
  intros Hne Hne' Hs Hs'. unfold exec_at, extensionRegex_groups. cbn [grun].
  apply run_complete; [now apply lang_Lit |].
  apply run_complete; [now apply lang_segment |].
  apply run_complete; [now apply lang_Lit |].
  apply run_complete; [now apply lang_segment |].
  change (".appex/" ++ post) with (".appex" ++ String "/" "" ++ post).
  apply run_complete; [now apply lang_Lit |].
  apply run_complete; [constructor |]. eauto.
Qed.

(** The attempt at the start of such a path captures its own name. *)
Lemma exec_at_extension (app name post : string) :
  app <> "" -> name <> "" -> has_no_slash app -> has_no_slash name ->
  exec_at extensionRegex_groups
    ("Payload/" ++ app ++ ".app/PlugIns/" ++ name ++ ".appex/" ++ post)
  = Some (Some name).
Proof.
  intros Hne Hne' Hs Hs'.
  destruct (exec_at_extension_complete app name post Hne Hne' Hs Hs') as [cap Hcap].
  rewrite Hcap. f_equal.
  apply exec_at_extension_sound in Hcap.
  destruct Hcap as (app' & name' & post' & _ & _ & Hs2 & Hs2' & E & ->).
  apply append_cancel_l in E.
  f_equal.
  change (".app/PlugIns/" ++ name ++ ".appex/" ++ post)
    with (".app" ++ "/" ++ "PlugIns/" ++ name ++ ".appex/" ++ post) in E.
  change (".app/PlugIns/" ++ name' ++ ".appex/" ++ post')
    with (".app" ++ "/" ++ "PlugIns/" ++ name' ++ ".appex/" ++ post') in E.
  rewrite <- !(append_assoc _ ".app") in E.
  apply first_segment_unique in E;
    [| apply has_no_slash_append; [assumption | apply has_no_slash_literal_app] ..].
  destruct E as [_ E]. apply append_cancel_l in E.
  change (".appex/" ++ post) with (".appex" ++ "/" ++ post) in E.
  change (".appex/" ++ post') with (".appex" ++ "/" ++ post') in E.
  rewrite <- !(append_assoc _ ".appex") in E.
  apply first_segment_unique in E;
    [| apply has_no_slash_append; [assumption | apply has_no_slash_literal_appex] ..].
  destruct E as [E _]. symmetry. exact (append_cancel_r _ _ _ E).
Qed.

(** The result of [match] is the result of one of its attempts, and of the
    first one made when that succeeds. *)
Lemma js_match_some (g : grouped) (s : string) (cap : option string) :
  js_match g s = Some cap ->
  exists pre rest, s = pre ++ rest /\ exec_at g rest = Some cap.
Proof.
  induction s as [|c s IH]; simpl; intros H.
  - destruct (exec_at g "") eqn:E; [| discriminate].
    injection H as ->. now exists "", "".
  - destruct (exec_at g (String c s)) eqn:E.
    + injection H as ->. now exists "", (String c s).
    + destruct (IH H) as (pre & rest & -> & Hr). now exists (String c pre), rest.
Qed.

Lemma js_match_first (g : grouped) (s : string) (cap : option string) :
  exec_at g s = Some cap -> js_match g s = Some cap.
Proof. intros H. destruct s; simpl; now rewrite H. Qed.

Lemma js_match_found (g : grouped) (pre rest : string) (cap : option string) :
  exec_at g rest = Some cap -> js_match g (pre ++ rest) <> None.
Proof.
  intros H. induction pre as [|c pre IH].
  - rewrite append_nil, (js_match_first g rest cap H). intros Hx. discriminate Hx.
  - rewrite append_cons. simpl.
    destruct (exec_at g (String c (pre ++ rest)));
      [intros Hx; discriminate Hx | exact IH].
Qed.

Lemma getExtensionName_match (path : string) :
  getExtensionName path = js_match extensionRegex_groups path.
Proof. unfold getExtensionName. now destruct (js_match _ _). Qed.

(** X13: the label of a toggle.  For a path that starts with
    [Payload/<app>.app/PlugIns/<name>.appex/], with [<app>] and [<name>] one
    non-empty segment each, [getExtensionName] returns [<name>] whatever
    follows; a directory nested in an extension is therefore labelled with
    the name of the outer extension. *)
Theorem extension_label (app name post : string) :
  app <> "" -> name <> "" -> has_no_slash app -> has_no_slash name ->
  getExtensionName
    ("Payload/" ++ app ++ ".app/PlugIns/" ++ name ++ ".appex/" ++ post)
  = Some (Some name).
Proof.
  intros Hne Hne' Hs Hs'. rewrite getExtensionName_match.
  apply js_match_first. now apply exec_at_extension.
Qed.

Lemma extension_label_witness :
  getExtensionName "Payload/A.app/PlugIns/Widget.appex/PlugIns/Inner.appex/"
  = Some (Some "Widget").
Proof.
  apply (extension_label "A" "Widget" "PlugIns/Inner.appex/");
    first [discriminate
          | repeat (apply has_no_slash_intro; [discriminate |]);
            apply has_no_slash_empty].
Defined.

(** X14: [getExtensionName] returns [null] exactly for the paths in which
    the pattern is found nowhere, the two readings of the pattern (with and
    without its groups) being the same pattern; any other result is the
    [<name>] of an occurrence of [Payload/<app>.app/PlugIns/<name>.appex/]
    in the path, never [undefined]. *)
Theorem extension_label_null (path : string) :
  erase extensionRegex_groups = extensionRegex /\
  (getExtensionName path = None <-> test extensionRegex path = false) /\
  (forall cap, getExtensionName path = Some cap ->
     exists pre app name post,
       app <> "" /\ name <> "" /\ has_no_slash app /\ has_no_slash name /\
       path = pre ++ "Payload/" ++ app ++ ".app/PlugIns/" ++ name ++ ".appex/" ++ post /\
       cap = Some name).
Proof.
  assert (Hsome : forall cap, getExtensionName path = Some cap ->
     exists pre app name post,
       app <> "" /\ name <> "" /\ has_no_slash app /\ has_no_slash name /\
       path = pre ++ "Payload/" ++ app ++ ".app/PlugIns/" ++ name ++ ".appex/" ++ post /\
       cap = Some name).
  { intros cap H. rewrite getExtensionName_match in H.
    apply js_match_some in H. destruct H as (pre & rest & -> & H).
    apply exec_at_extension_sound in H.
    destruct H as (app & name & post & Hne & Hne' & Hs & Hs' & -> & ->).
    now exists pre, app, name, post. }
  split; [reflexivity |]. split; [| exact Hsome].
  split.
  - intros Hnull. destruct (test extensionRegex path) eqn:Ht; [| reflexivity].
    apply extension_occurrence in Ht.
    destruct Ht as (pre & app & name & post & Hne & Hne' & Hs & Hs' & ->).
    rewrite getExtensionName_match in Hnull.
    destruct (exec_at_extension_complete app name post Hne Hne' Hs Hs') as [cap Hcap].
    now apply (js_match_found _ pre) in Hcap.
  - intros Ht. destruct (getExtensionName path) as [cap|] eqn:E; [| reflexivity].
    destruct (Hsome cap eq_refl) as (pre & app & name & post & Hne & Hne' & Hs & Hs' & Hp & _).
    assert (Htrue : test extensionRegex path = true).
    { apply extension_occurrence. now exists pre, app, name, post. }
    congruence.
Qed.

(** ** What the guard of [saveIPA] stands for *)

Lemma lookup_insert_still_waiting (l : list Attempt) (i j : nat) (fr fr' : Frame)
    (wt : bool) (att0 : Attempt) :
  l !! i = Some (mkAttempt fr wt) ->
  l !! j = Some att0 ->
  exists att, <[i := mkAttempt fr' wt]> l !! j = Some att /\
              waiting att = waiting att0.
Proof.
  intros Hi Hj. destruct (decide (i = j)) as [<- | Hne].
  - rewrite list_lookup_insert_eq by (eapply lookup_lt_Some; exact Hi).
    exists (mkAttempt fr' wt). split; [reflexivity |].
    rewrite Hi in Hj. now injection Hj as <-.
  - rewrite list_lookup_insert_ne by exact Hne. now exists att0.
Qed.

Section Guard.

Variable getEntries : File -> option (list Entry).
Variable parsePlist : Bytes -> option PlistValue.
Variable cgbiToPng : Bytes -> option Bytes.
Variable RegExp : string -> option regex.

Local Abbreviation step := (sys_step getEntries parsePlist cgbiToPng RegExp).
Local Abbreviation run := (sys_run getEntries parsePlist cgbiToPng RegExp).
Local Abbreviation load := (loadIPA getEntries parsePlist cgbiToPng RegExp).

Lemma load_icon_saving (entries : list Entry) (a : App) :
  saving (load_icon cgbiToPng RegExp entries a).1 = saving a.
Proof.
  unfold load_icon.
  destruct (metadata a ≫= prop "CFBundleIcons") as [icons|]; [| reflexivity].
  destruct (negb (truthy icons)); [reflexivity |].
  destruct (prop "CFBundlePrimaryIcon" icons ≫= prop "CFBundleIconFiles");
    [| reflexivity].
  destruct (RegExp _); [| reflexivity].
  destruct (List.find _ entries) as [[n d [[data|]|]]|]; try reflexivity.
  now destruct (cgbiToPng data).
Qed.

Lemma loadIPA_saving (a : App) : saving (load a).1 = saving a.
Proof.
  unfold loadIPA. destruct (files a) as [[|f fs]|]; try reflexivity.
  destruct (getEntries f) as [entries|]; [| reflexivity].
  destruct (getMetadata parsePlist (with_loaded entries a)); [reflexivity |].
  now rewrite load_icon_saving.
Qed.

Lemma step_guard_agrees (s : Sys) (ev : Event) :
  guard_agrees s -> guard_agrees (step s ev).
Proof.
  intros [Hctl Hsav]. destruct ev; cbn [sys_step].
  - (* saveIPA *)
    unfold saveIPA.
    destruct (bool_decide (abortController (vars (world s)) <> None)
              || saving (vars (world s))) eqn:Hguard; [now split |].
    unfold _saveIPA.
    pose proof (resume_same_package new_frame
                  (on_vars (with_controller (Some (List.length (attempts s))) true)
                           (world s))) as (_ & Hsame & _).
    destruct (resume new_frame _) as [fr w]. cbn [snd] in Hsame.
    split; cbn [world attempts]; rewrite Hsame;
      cbn [on_vars vars with_controller abortController].
    + intros i [= <-]. exists (mkAttempt fr true). split; [| reflexivity].
      rewrite lookup_app_r by lia. now rewrite Nat.sub_diag.
    + intros _. discriminate.
  - (* clearIPA *)
    split.
    + rewrite (clearIPA_controller s). intros i Hi.
      destruct (Hctl i Hi) as ([fr wt] & Hatt & Hw).
      rewrite (clearIPA_attempts s i fr wt Hi Hatt).
      destruct (lookup_insert_still_waiting (attempts s) i i fr
                  (on_abort fr (world s)).1 wt _ Hatt Hatt) as (att & Ha & Hwa).
      exists att. split; [exact Ha | congruence].
    + unfold clearIPA. intros H. exfalso. revert H.
      destruct (abortController (vars (world s))) as [i|];
        [destruct (attempts s !! i) as [[fr wt]|];
         [destruct (on_abort fr (world s)) |] |];
        simpl; discriminate.
  - (* drop *)
    unfold drop. destruct (files (vars (world s))); [now split |].
    split; cbn [world attempts on_vars vars].
    + rewrite loadIPA_controller. cbn [with_files abortController]. exact Hctl.
    + rewrite loadIPA_controller, loadIPA_saving.
      cbn [with_files abortController saving]. exact Hsav.
  - (* toggle *)
    split; cbn [world attempts on_vars vars]; unfold toggle;
      destruct (existsb _ _); assumption.
  - (* io_done *)
    unfold io_done. destruct (attempts s !! i) as [[fr wt]|] eqn:Hatt; [| now split].
    pose proof (resume_same_package fr (world s)) as (_ & Hsame & _ & _ & _ & Hsaving).
    destruct (resume fr (world s)) as [fr' w']. cbn [snd] in Hsame, Hsaving.
    split; cbn [world attempts]; rewrite Hsame.
    + intros k Hk. destruct (Hctl k Hk) as (att0 & Hk0 & Hw0).
      destruct (lookup_insert_still_waiting (attempts s) i k fr fr' wt att0 Hatt Hk0)
        as (att & Ha & Hwa).
      exists att. split; [exact Ha | congruence].
    + rewrite Hsaving. exact Hsav.
  - (* saveIPA_finally *)
    unfold saveIPA_finally.
    destruct (attempts s !! i) as [[fr [|]]|] eqn:Hatt; try (now split).
    destruct (promise fr); [now split | |];
      (split; cbn [world attempts on_vars vars with_controller abortController saving];
       [intros k [=] | intros [=]]).
Qed.

Lemma run_guard_agrees (evs : list Event) (s : Sys) :
  guard_agrees s -> guard_agrees (run evs s).
Proof.
  revert s. induction evs as [|ev evs IH]; intros s Hinv; [exact Hinv |].
  simpl. apply IH, step_guard_agrees, Hinv.
Qed.

(** X15: what the guard of [saveIPA] stands for.  In every state the
    component can reach, [abortController] is set exactly while a save is in
    flight, and [saving] is set only then; so when no save is in flight a
    click on Save is never turned away: it starts a new attempt, which holds
    the controller. *)
Theorem guard_blocks_only_in_flight (evs : list Event) :
  let s := run evs initial in
  (in_flight s <-> abortController (vars (world s)) <> None) /\
  (saving (vars (world s)) = true -> in_flight s) /\
  (~ in_flight s ->
   exists fr w,
     step s ClickSave = mkSys w (attempts s ++ [mkAttempt fr true]) /\
     abortController (vars w) = Some (List.length (attempts s)) /\
     saving (vars w) = true).
Proof.
  assert (Hheld : controller_held (run evs initial)).
  { apply run_controller_held. intros i att Hi.
    unfold initial in Hi. cbn [attempts] in Hi. now rewrite lookup_nil in Hi. }
  assert (Hinv : guard_agrees (run evs initial)).
  { apply run_guard_agrees. split; [intros i [=] | intros [=]]. }
  destruct Hinv as [Hctl Hsav]. cbv zeta.
  assert (Hiff : in_flight (run evs initial) <->
                 abortController (vars (world (run evs initial))) <> None).
  { split.
    - intros (i & att & Hi & Hw). rewrite (Hheld i att Hi Hw). discriminate.
    - intros Hne. destruct (abortController _) as [i|] eqn:E; [| contradiction].
      destruct (Hctl i eq_refl) as (att & Hi & Hw). now exists i, att. }
  split; [exact Hiff |]. split; [intros H; apply Hiff, Hsav, H |].
  intros Hidle.
  assert (Hnone : abortController (vars (world (run evs initial))) = None).
  { destruct (abortController _) as [i|] eqn:E; [| reflexivity].
    exfalso. apply Hidle, Hiff. discriminate. }
  assert (Hfalse : saving (vars (world (run evs initial))) = false).
  { destruct (saving _) eqn:E; [| reflexivity].
    exfalso. now apply (Hsav eq_refl). }
  cbn [sys_step]. unfold saveIPA. rewrite Hnone, Hfalse.
  rewrite bool_decide_eq_false_2 by (intros H; now apply H). cbn [orb].
  unfold _saveIPA.
  pose proof (resume_same_package new_frame
                (on_vars (with_controller
                            (Some (List.length (attempts (run evs initial)))) true)
                         (world (run evs initial))))
    as (_ & Hsame & _ & _ & _ & Hsaving).
  destruct (resume new_frame _) as [fr w]. cbn [snd] in Hsame, Hsaving.
  exists fr, w. split; [reflexivity |]. now rewrite Hsame, Hsaving.
Qed.

End Guard.

(** ** A package that cannot be read *)

Section Stranded.

Variable getEntries : File -> option (list Entry).
Variable parsePlist : Bytes -> option PlistValue.
Variable cgbiToPng : Bytes -> option Bytes.
Variable RegExp : string -> option regex.

Local Abbreviation step := (sys_step getEntries parsePlist cgbiToPng RegExp).
Local Abbreviation run := (sys_run getEntries parsePlist cgbiToPng RegExp).
Local Abbreviation load := (loadIPA getEntries parsePlist cgbiToPng RegExp).
Local Abbreviation offered_all := (all_offered getEntries parsePlist cgbiToPng RegExp).

(** The events the "Analyzing" screen lets happen keep it. *)
Lemma step_analyzing (s : Sys) (ev : Event) :
  screen (vars (world s)) = Analyzing ->
  offered (vars (world s)) ev = true ->
  screen (vars (world (step s ev))) = Analyzing.
Proof.
  intros Hscreen Hoff. unfold offered in Hoff. rewrite Hscreen in Hoff.
  destruct ev; try discriminate Hoff; cbn [sys_step].
  - unfold io_done. destruct (attempts s !! i) as [[fr wt]|]; [| exact Hscreen].
    pose proof (resume_same_package fr (world s)) as (Hf & _ & Hi & _).
    destruct (resume fr (world s)) as [fr' w']. cbn [snd] in Hf, Hi.
    cbn [world]. unfold screen in *. now rewrite Hf, Hi.
  - unfold saveIPA_finally.
    destruct (attempts s !! i) as [[fr [|]]|]; try exact Hscreen.
    destruct (promise fr); exact Hscreen.
Qed.

Lemma run_analyzing (evs : list Event) (s : Sys) :
  screen (vars (world s)) = Analyzing ->
  offered_all evs s = true ->
  screen (vars (world (run evs s))) = Analyzing.
Proof.
  revert s. induction evs as [|ev evs IH]; intros s Hscreen Hoff; [exact Hscreen |].
  simpl in Hoff. apply andb_true_iff in Hoff. destruct Hoff as [Hev Hrest].
  simpl. apply IH; [now apply step_analyzing | exact Hrest].
Qed.

(** X16: a package that cannot be read strands the component.  When the drop
    zone is given no file, or a file whose entries the reader cannot list,
    [loadIPA] ends with an error before it sets [ipa]; [files] stays bound,
    so the template shows "Analyzing IPA...", a screen without any control:
    whatever then happens, the component stays on it. *)
Theorem unreadable_package_strands (s : Sys) (fs : list File) (evs : list Event) :
  screen (vars (world s)) = DropZone ->
  ipa (vars (world s)) = None ->
  (forall f rest, fs = f :: rest -> getEntries f = None) ->
  let s1 := step s (Drop fs) in
  (load (with_files (Some fs) (vars (world s)))).2 <> None /\
  screen (vars (world s1)) = Analyzing /\
  (offered_all evs s1 = true -> screen (vars (world (run evs s1))) = Analyzing).
Proof.
  intros Hzone Hipa Hbad.
  assert (Hfiles : files (vars (world s)) = None).
  { unfold screen in Hzone. destruct (files _); [destruct (ipa _) |]; congruence. }
  assert (Hload : load (with_files (Some fs) (vars (world s)))
                  = (with_files (Some fs) (vars (world s)),
                     Some (match fs with [] => NoFileSelected | _ => CorruptArchive end))).
  { unfold loadIPA. cbn [files with_files]. destruct fs as [|f rest]; [reflexivity |].
    now rewrite (Hbad f rest eq_refl). }
  cbv zeta.
  assert (Hscreen : screen (vars (world (step s (Drop fs)))) = Analyzing).
  { cbn [sys_step]. unfold drop. rewrite Hfiles. cbn [world on_vars vars].
    rewrite Hload. unfold screen. cbn [fst files with_files ipa]. now rewrite Hipa. }
  split; [rewrite Hload; now destruct fs |].
  split; [exact Hscreen |].
  intros Hoff. now apply run_analyzing.
Qed.

End Stranded.

Lemma unreadable_package_strands_witness :
  screen (vars (world
    (sys_run (fun _ => None) (fun _ => None) (fun _ => None) (fun _ => None)
       [IoDone 0%nat; Settled 0%nat]
       (sys_step (fun _ => None) (fun _ => None) (fun _ => None) (fun _ => None)
          initial (Drop [sample_file])))))
  = Analyzing.
Proof.
  apply (unreadable_package_strands
           (fun _ => None) (fun _ => None) (fun _ => None) (fun _ => None)
           initial [sample_file] [IoDone 0%nat; Settled 0%nat]);
    reflexivity.
Defined.

(** ** Back to the start *)

Lemma clearIPA_vars (s : Sys) :
  vars (world (clearIPA s))
  = mkApp None (abortController (vars (world s))) None None None [] ∅ false
          0 0 "Idle".
Proof.
  rewrite <- (clearIPA_controller s). unfold clearIPA.
  destruct (abortController (vars (world s))) as [i|];
    [destruct (attempts s !! i) as [[fr wt]|];
     [destruct (on_abort fr (world s)) |] |];
    reflexivity.
Qed.

Section Back.

Variable getEntries : File -> option (list Entry).
Variable parsePlist : Bytes -> option PlistValue.
Variable cgbiToPng : Bytes -> option Bytes.
Variable RegExp : string -> option regex.

Local Abbreviation step := (sys_step getEntries parsePlist cgbiToPng RegExp).
Local Abbreviation run := (sys_run getEntries parsePlist cgbiToPng RegExp).

(** X17: Back returns the component to the state it was mounted in.  In
    every state the component can reach, when no save is in flight the vars
    after [clearIPA] are the initial ones; when a save is in flight they are
    the initial ones once the [finally] of that save has run. *)
Theorem back_restores_the_mounted_state (evs : list Event) :
  let s := run evs initial in
  (~ in_flight s -> vars (world (step s ClickBack)) = vars (world initial)) /\
  (forall i att,
     attempts s !! i = Some att -> waiting att = true ->
     vars (world (run [ClickBack; Settled i] s)) = vars (world initial)).
Proof.
  intros s.
  assert (Hheld : controller_held s).
  { apply run_controller_held. intros j a Hj.
    unfold initial in Hj. cbn [attempts] in Hj. now rewrite lookup_nil in Hj. }
  assert (Hsig : signal_rejects s).
  { apply run_signal_rejects. intros j a Hj.
    unfold initial in Hj. cbn [attempts] in Hj. now rewrite lookup_nil in Hj. }
  assert (Hguard : guard_agrees s).
  { apply run_guard_agrees. split; [intros j [=] | intros [=]]. }
  split.
  - intros Hidle. cbn [sys_step]. rewrite clearIPA_vars.
    destruct (abortController (vars (world s))) as [i|] eqn:Hctl; [| reflexivity].
    exfalso. apply Hidle. destruct (proj1 Hguard i Hctl) as (att & Hi & Hw).
    now exists i, att.
  - intros i [fr wt] Hatt Hw. cbn [waiting] in Hw. subst wt.
    pose proof (Hheld i _ Hatt eq_refl) as Hctl.
    pose proof (clearIPA_attempts s i fr true Hctl Hatt) as Hatts.
    destruct (on_abort_settled fr (world s)
                (fun H => Hsig i (mkAttempt fr true) Hatt H)) as [Hab Hpr].
    set (fr1 := (on_abort fr (world s)).1) in *.
    assert (Hi1 : attempts (clearIPA s) !! i = Some (mkAttempt fr1 true)).
    { rewrite Hatts. apply list_lookup_insert_eq. eapply lookup_lt_Some; exact Hatt. }
    cbn [sys_run fold_left sys_step]. unfold saveIPA_finally. rewrite Hi1.
    destruct (promise fr1) eqn:Hp1; [now contradiction Hpr | |];
      cbn [world vars on_vars]; rewrite clearIPA_vars; reflexivity.
Qed.

End Back.

(** ** The vars a save writes *)

Lemma same_but_progress_refl (a : App) : same_but_progress a a.
Proof. now repeat split. Qed.

Lemma same_but_progress_trans (a b c : App) :
  same_but_progress a b -> same_but_progress b c -> same_but_progress a c.
Proof.
  unfold same_but_progress.
  intros (H1 & H2 & H3 & H4 & H5 & H6 & H7 & H8)
         (K1 & K2 & K3 & K4 & K5 & K6 & K7 & K8).
  repeat split; congruence.
Qed.

Lemma loop_same_but_progress (rest : list Entry) (fr : Frame) (w : World) :
  same_but_progress (vars (loop rest fr w).2) (vars w).
Proof.
  revert w. induction rest as [|entry rest IH]; intros w; simpl.
  - unfold after_loop. destruct (aborted fr); now repeat split.
  - destruct (aborted fr) eqn:Hab.
    { unfold after_loop. rewrite Hab. apply same_but_progress_refl. }
    destruct (skip_entry (extensionsToRemove fr) entry).
    { eapply same_but_progress_trans; [apply IH | now repeat split]. }
    destruct (directory entry); [now repeat split |].
    destruct (getData entry); [now repeat split |].
    eapply same_but_progress_trans; [apply IH | now repeat split].
Qed.

Lemma resume_same_but_progress (fr : Frame) (w : World) :
  same_but_progress (vars (resume fr w).2) (vars w).
Proof.
  unfold resume. destruct (pc fr).
  - unfold start.
    destruct (files (vars (set_progress 0 w))) as [[|f fs]|];
      [now repeat split | | now repeat split].
    destruct (ipa (vars (set_progress 0 w))); [| now repeat split].
    destruct (every_kept (extensionsToKeep (vars (set_progress 0 w)))).
    + destruct (aborted fr); now repeat split.
    + eapply same_but_progress_trans;
        [apply loop_same_but_progress | now repeat split].
  - apply loop_same_but_progress.
  - destruct (getData entry) as [[data|]|]; apply same_but_progress_refl.
  - apply loop_same_but_progress.
  - cbn [aborted writer_close]. destruct (aborted fr); now repeat split.
  - now repeat split.
  - apply same_but_progress_refl.
  - apply same_but_progress_refl.
Qed.

Lemma on_abort_same_but_progress (fr : Frame) (w : World) :
  same_but_progress (vars (on_abort fr w).2) (vars w).
Proof. unfold on_abort. destruct (aborted fr); now repeat split. Qed.

(** X18: a save writes no var but [progress], [progressMax] and
    [progressText].  From any point of [_saveIPA] on, whatever completes and
    whenever the signal fires, the file list, the controller, the catalog,
    the metadata, the icon, the extensions, the selection and [saving] are
    what they were. *)
Theorem save_writes_progress_only (fr : Frame) (w : World) (evs : list JobEvent) :
  same_but_progress (vars (job_run evs (fr, w)).2) (vars w).
Proof.
  assert (H : forall c, same_but_progress (vars (job_run evs c).2) (vars c.2)).
  { induction evs as [|ev evs IH]; intros c; [apply same_but_progress_refl |].
    simpl. eapply same_but_progress_trans; [apply IH |].
    destruct c as [fr0 w0]. destruct ev; [apply resume_same_but_progress |].
    destruct (job_step_abort_cases fr0 w0) as [E | E]; rewrite E;
      [apply same_but_progress_refl | apply on_abort_same_but_progress]. }
  exact (H (fr, w)).
Qed.
